(** * Stickman Umbrella Glide: the simulation tick of [GameCanvas.tsx]

    A shallow embedding of the [update] callback of
    [src/components/GameCanvas.tsx] (the per-frame simulation step), of the
    level table of [src/services/challengeLevels.ts] and of the part of
    [src/App.tsx] that reacts to the game-over callback.

    Conventions of the embedding.
    - A JavaScript [number] is an exact rational ([Q]); the raw score, which
      the code only ever changes by adding a [Math.floor], the frame counter
      and the power-up timers are integers ([Z]).
    - [Math.random()] and [Date.now()] are inputs of the tick ([Rand], [now]).
    - The refs of the component ([scoreRef], [playerRef], [obstaclesRef], ...)
      are the fields of one state record [Sim], passed through the tick.
    - The callbacks [onScoreUpdate], [onLevelProgressUpdate], [onGameOver]
      and [onCoinCollect] are recorded as a chronological list of [Event]s.
    - Particles, background elements, screen shake, lightning, sounds, the
      animation timers of the player and the [id]/[description] strings are
      left out: [update] never reads them back into score, positions,
      velocities, entity lists, power-ups or objectives. *)

From Stdlib Require Import String Sorted.
From Stdlib Require Import ZArith QArith Qabs Qround Qminmax List Bool Lia Lqa.
Import ListNotations.

Open Scope Q_scope.

(* ------------------------------------------------------------------ *)
(** ** JavaScript comparisons and rounding on numbers *)

Definition Qleb (a b : Q) : bool := Qle_bool a b.
Definition Qltb (a b : Q) : bool := negb (Qle_bool b a).

Infix "<=?" := Qleb (at level 70, no associativity) : Q_scope.
Infix "<?" := Qltb (at level 70, no associativity) : Q_scope.

(** [Math.floor] of a number, as a number. *)
Definition floorQ (a : Q) : Q := inject_Z (Qfloor a).

(* ------------------------------------------------------------------ *)
(** ** Data model ([src/types.ts]) *)

Inductive GameState := START | PLAYING | GAME_OVER.
Inductive GameMode := ENDLESS | STORM | CHALLENGE.
Inductive DifficultyMode := EASY | MEDIUM | HARD.
Inductive ObstacleType := BIRD | CLOUD | BUILDING | BALLOON.
Inductive PowerUpType := SLOW_MOTION | SHIELD | WIND_BREAKER | SUPER_GLIDE.
Inductive ObjectiveType :=
  SURVIVE_TIME | REACH_DEPTH | COLLECT_COINS | NO_DAMAGE | AVOID_OBSTACLES.

Scheme Equality for GameState.
Scheme Equality for GameMode.
Scheme Equality for ObstacleType.
Scheme Equality for PowerUpType.
Scheme Equality for ObjectiveType.

Record Obstacle := mkObstacle {
  ob_x : Q; ob_y : Q; ob_width : Q; ob_height : Q;
  ob_type : ObstacleType; ob_speedX : Q }.

Record WindZone := mkWindZone {
  wz_x : Q; wz_y : Q; wz_width : Q; wz_height : Q; wz_vx : Q; wz_vy : Q }.

Record PowerUp := mkPowerUp {
  pu_x : Q; pu_y : Q; pu_width : Q; pu_height : Q;
  pu_type : PowerUpType; pu_collected : bool }.

Record ActivePowerUp := mkActive {
  ap_type : PowerUpType; ap_timeLeft : Z; ap_duration : Z }.

Record Coin := mkCoin {
  c_x : Q; c_y : Q; c_width : Q; c_height : Q;
  c_collected : bool; c_spin : Q }.

Record ChallengObjective := mkObjective {
  o_type : ObjectiveType; o_target : Q; o_current : Q; o_completed : bool }.

Record LevelProgress := mkProgress {
  objectives : list ChallengObjective; startTime : Q; timeElapsed : Q }.

(** [playerRef]: position, velocity and the two fields the input handlers
    write ([isUmbrellaOpen], [targetX]). *)
Record Player := mkPlayer {
  p_x : Q; p_y : Q; p_vx : Q; p_vy : Q;
  isUmbrellaOpen : bool; targetX : Q }.

(** [windGustRef]. *)
Record WindGust := mkGust {
  g_active : bool; g_vx : Q; g_vy : Q; g_timeLeft : Q }.

(** The refs of the component together with the two pieces of [App] state
    the tick depends on ([gameState], [levelProgress]). *)
Record Sim := mkSim {
  gameState : GameState;
  levelProgress : option LevelProgress;
  score : Z;
  player : Player;
  windGust : WindGust;
  obstacles : list Obstacle;
  windZones : list WindZone;
  powerUps : list PowerUp;
  activePowerUps : list ActivePowerUp;
  coins : list Coin;
  frameCount : Z }.

(** One value per [Math.random()] call that feeds gameplay state. *)
Record Rand := mkRand {
  r_gust : Q; r_gustDir : Q; r_gustVx : Q; r_gustVy : Q; r_gustTime : Q;
  r_obsType : Q; r_obsX : Q; r_obsSpeed : Q; r_obsWidth : Q; r_obsSide : Q;
  r_wzWidth : Q; r_wzHeight : Q; r_wzX : Q; r_wzType : Q; r_wzDir : Q;
  r_wzForce : Q;
  r_puType : Q; r_puX : Q;
  r_coinX : Q }.

(** What a tick reads besides the refs: the props of the component, the
    canvas size, the clock and the random draws. *)
Record Env := mkEnv {
  isPaused : bool;
  difficultyMode : DifficultyMode;
  gameMode : GameMode;
  selectedChallengeLevel : option Z;
  canvasWidth : Q;
  canvasHeight : Q;
  now : Q;
  rand : Rand }.

Inductive Cause :=
| HitObstacle (t : ObstacleType)      (* `Hit a ${obs.type.toLowerCase()}` *)
| LevelComplete (level : Z).          (* `LEVEL ${n} COMPLETE!` *)

Inductive Event :=
| ScoreUpdate (depth : Z)
| LevelProgressUpdate (lp : LevelProgress)
| GameOver (depth : Z) (cause : Cause)
| CoinCollect (amount : Z).

Definition BASE_GRAVITY : Q := 0.5.
Definition BASE_GLIDE_GRAVITY : Q := 0.15.
Definition BASE_TERMINAL_VELOCITY : Q := 15.
Definition BASE_GLIDE_TERMINAL_VELOCITY : Q := 3.
Definition WORLD_SPEED_MULTIPLIER_MAX : Q := 2.0.

(* ------------------------------------------------------------------ *)
(** ** Difficulty and the scalars derived from it *)

(** [Math.min(Math.max(0, currentScore - 200) / 5000, 1)] *)
Definition difficulty (currentScore : Z) : Q :=
  Qmin (Qmax 0 (inject_Z currentScore - 200) / 5000) 1.

(** The formula as the specification writes it. *)
Definition clamp (v lo hi : Q) : Q := Qmax lo (Qmin v hi).
Definition spec_difficulty (s : Z) : Q :=
  clamp ((inject_Z s - 200) / 5000) 0 1.

Definition modeMultiplier (m : DifficultyMode) : Q :=
  match m with EASY => 0.35 | MEDIUM => 1.0 | HARD => 1.5 end.

Definition isStormMode (g : GameMode) : bool := GameMode_beq g STORM.

Definition stormModeMultiplier (g : GameMode) : Q :=
  if isStormMode g then 2.0 else 1.

Definition obstacleSpawnRate (e : Env) (d : Q) : Z :=
  Qfloor (Qmax 20 (60 - d * 35 * modeMultiplier (difficultyMode e)
                          * stormModeMultiplier (gameMode e))).

Definition windZoneSpawnRate (e : Env) (d : Q) : Z :=
  Qfloor (Qmax 80 (240 - d * 160 * modeMultiplier (difficultyMode e)
                           * stormModeMultiplier (gameMode e))).

Definition gustProbability (e : Env) (d : Q) : Q :=
  0.001 + d * 0.008 * modeMultiplier (difficultyMode e)
  + (if isStormMode (gameMode e) then 0.01 else 0).

Definition hasActive (t : PowerUpType) (aps : list ActivePowerUp) : bool :=
  existsb (fun p => PowerUpType_beq (ap_type p) t) aps.

Definition worldSpeedMultiplier (e : Env) (d : Q) (hasSlowMotion : bool) : Q :=
  let w := 1.0 + d * (WORLD_SPEED_MULTIPLIER_MAX - 1.0)
                   * modeMultiplier (difficultyMode e) in
  if hasSlowMotion then w * 0.5 else w.

Definition gravityMultiplier (e : Env) (d : Q) : Q :=
  1.0 + d * 0.8 * modeMultiplier (difficultyMode e).

Definition scoreMultiplier (e : Env) (d : Q) : Q :=
  let m := 1.0 + d * 1.5 in
  if isStormMode (gameMode e) then m * 3.0 else m.

(* ------------------------------------------------------------------ *)
(** ** Collision test of the obstacle loop *)

Record Rect := mkRect { rx : Q; ry : Q; rw : Q; rh : Q }.

(** The four-way comparison of the collision checks, for a hitbox [h] and an
    entity at [(bx, by_)] of size [bw] by [bh]. *)
Definition overlaps (h : Rect) (bx by_ bw bh : Q) : bool :=
  (rx h <? bx + bw) && (bx <? rx h + rw h) &&
  (ry h <? by_ + bh) && (by_ <? rh h + ry h).

(** The hitbox literal of the obstacle and power-up loops. *)
Definition playerHitbox (p : Player) : Rect :=
  mkRect (p_x p - 10) (p_y p - 40) 20 80.

(** The wider hitbox literal of the coin loop. *)
Definition coinHitbox (p : Player) : Rect :=
  mkRect (p_x p - 15) (p_y p - 45) 30 90.

Definition hitsObstacle (p : Player) (o : Obstacle) : bool :=
  overlaps (playerHitbox p) (ob_x o) (ob_y o) (ob_width o) (ob_height o).

(** Specification side: two rectangles overlap strictly when the overlap of
    their extents has positive length on both axes. *)
Definition overlapLength (a1 a2 b1 b2 : Q) : Q := Qmin a2 b2 - Qmax a1 b1.

Definition strictOverlap (A B : Rect) : Prop :=
  0 < overlapLength (rx A) (rx A + rw A) (rx B) (rx B + rw B) /\
  0 < overlapLength (ry A) (ry A + rh A) (ry B) (ry B + rh B).

Definition obstacleRect (o : Obstacle) : Rect :=
  mkRect (ob_x o) (ob_y o) (ob_width o) (ob_height o).

(** Two rectangles that merely touch: an edge of one lies on the opposite
    edge of the other. *)
Definition edgeTouch (A B : Rect) : Prop :=
  rx A + rw A == rx B \/ rx B + rw B == rx A \/
  ry A + rh A == ry B \/ ry B + rh B == ry A.

(* ------------------------------------------------------------------ *)
(** ** Physics of one tick *)

(** Step 2 of [update], the global gust: count an active gust down, or roll
    for a new one once the score is above 300. *)
Definition stepGust (e : Env) (d : Q) (currentScore : Z) (g : WindGust)
  : WindGust :=
  if g_active g then
    let t := g_timeLeft g - 1 in
    if t <=? 0 then mkGust false (g_vx g) (g_vy g) t
    else mkGust true (g_vx g) (g_vy g) t
  else if (300 <? currentScore)%Z && (r_gust (rand e) <? gustProbability e d)
  then
    let direction := if 0.5 <? r_gustDir (rand e) then 1 else -1 in
    let difficultyMult := 1 + d in
    mkGust true
      (direction * (5 + r_gustVx (rand e) * 8) * difficultyMult)
      (-0.5 - r_gustVy (rand e) * 1.5 * difficultyMult)
      (60 + r_gustTime (rand e) * 60)
  else g.

(** [moveSpeed]: the drift towards [targetX], capped at 20 either way. *)
Definition lateralSpeed (p : Player) : Q :=
  let dx := targetX p - p_x p in
  let responsiveness := if isUmbrellaOpen p then 0.05 else 0.12 in
  let moveSpeed := dx * responsiveness in
  let moveSpeed := if 20 <? moveSpeed then 20 else moveSpeed in
  if moveSpeed <? -20 then -20 else moveSpeed.

(** The gust force path: [gustVx] and the updraft added to [player.vy]. *)
Definition gustForce (g : WindGust) (hasWindBreaker : bool) : Q * Q :=
  if g_active g && negb hasWindBreaker then (g_vx g, g_vy g) else (0, 0).

Definition inZone (p : Player) (z : WindZone) : bool :=
  (wz_x z <? p_x p) && (p_x p <? wz_x z + wz_width z) &&
  (wz_y z <? p_y p) && (p_y p <? wz_y z + wz_height z).

(** Body of the [for (const zone of windZonesRef.current)] loop on the
    running velocity [(vx, vy)]; the position is not moved inside the loop. *)
Definition zonePush (p : Player) (v : Q * Q) (z : WindZone) : Q * Q :=
  if inZone p z then
    let surfaceFactor := if isUmbrellaOpen p then 1.0 else 0.3 in
    (fst v + wz_vx z * surfaceFactor * 0.15,
     snd v + wz_vy z * surfaceFactor * 0.15)
  else v.

(** The wind-zone force path, guarded by [if (!hasWindBreaker)]. *)
Definition applyWindZones (p : Player) (hasWindBreaker : bool)
  (zones : list WindZone) (v : Q * Q) : Q * Q :=
  if negb hasWindBreaker then fold_left (zonePush p) zones v else v.

(** Horizontal screen bound with [PLAYER_MARGIN = 50]: position and [vx]. *)
Definition clampHorizontal (width : Q) (xv : Q * Q) : Q * Q :=
  let PLAYER_MARGIN := 50 in
  let xv := if fst xv <? PLAYER_MARGIN then (PLAYER_MARGIN, 0) else xv in
  if width - PLAYER_MARGIN <? fst xv then (width - PLAYER_MARGIN, 0) else xv.

(** Vertical screen bound: position and [vy]. *)
Definition clampVertical (height : Q) (yv : Q * Q) : Q * Q :=
  let yv := if fst yv <? 100 then (100, Qmax (snd yv) 0) else yv in
  if height - 100 <? fst yv then (height - 100, Qmin (snd yv) 0) else yv.

(** Super glide, terminal velocity and the cap on the ascent speed. *)
Definition clampFall (currentTerminal : Q) (gustActive hasSuperGlide : bool)
  (vy : Q) : Q :=
  let vy := if hasSuperGlide then vy - 0.4 else vy in
  let vy :=
    if currentTerminal * 2 <? vy then currentTerminal * 2
    else if (currentTerminal <? vy) && negb gustActive then currentTerminal
    else vy in
  if (vy <? -8) && negb hasSuperGlide then -8 else vy.

(** Steps 3 and 5 of [update] up to the velocity clamps: the player after
    the physics of the tick, given the gust as left by [stepGust]. *)
Definition movePlayer (e : Env) (d : Q) (aps : list ActivePowerUp)
  (zones : list WindZone) (g : WindGust) (p : Player) : Player :=
  let hasWindBreaker := hasActive WIND_BREAKER aps in
  let hasSuperGlide := hasActive SUPER_GLIDE aps in
  let moveSpeed := lateralSpeed p in
  let gust := gustForce g hasWindBreaker in
  let vy := p_vy p + snd gust in
  let vx := moveSpeed + fst gust in
  let currentGravity :=
    (if isUmbrellaOpen p then BASE_GLIDE_GRAVITY else BASE_GRAVITY)
    * gravityMultiplier e d in
  let currentTerminal :=
    (if isUmbrellaOpen p then BASE_GLIDE_TERMINAL_VELOCITY
     else BASE_TERMINAL_VELOCITY) * gravityMultiplier e d in
  let currentGravity :=
    if isUmbrellaOpen p then currentGravity - (Qabs vx * 0.1) * 0.05
    else currentGravity in
  let vy := if isUmbrellaOpen p && (5 <? Qabs vx) then vy - 0.05 else vy in
  let v := applyWindZones p hasWindBreaker zones (vx, vy) in
  let x := p_x p + fst v in
  let vy := snd v + currentGravity in
  let xv := clampHorizontal (canvasWidth e) (x, fst v) in
  let yv := clampVertical (canvasHeight e) (p_y p, vy) in
  let vy := clampFall currentTerminal (g_active g) hasSuperGlide (snd yv) in
  mkPlayer (fst xv) (fst yv) (snd xv) vy (isUmbrellaOpen p) (targetX p).

(* ------------------------------------------------------------------ *)
(** ** Entity factories *)

Definition spawnObstacle (e : Env) (d : Q) (currentScore : Z) : Obstacle :=
  let r := rand e in
  let typeRoll := r_obsType r in
  let width := 100 in
  let y := canvasHeight e + 100 in
  let x := r_obsX r * (canvasWidth e - width) in
  let speedMult := 1 + d in
  if typeRoll <? 0.4 then
    mkObstacle x y 40 20 BIRD ((r_obsSpeed r - 0.5) * 4 * speedMult)
  else if typeRoll <? 0.6 then
    mkObstacle x y 30 40 BALLOON 0
  else if (typeRoll <? 0.8) && (500 <? currentScore)%Z then
    let width := 150 + r_obsWidth r * 100 in
    let height := 400 in
    mkObstacle (if 0.5 <? r_obsSide r then 0 else canvasWidth e - width)
               (canvasHeight e + height) width height BUILDING 0
  else
    mkObstacle x y 100 60 CLOUD 0.

Definition spawnWindZone (e : Env) (d : Q) : WindZone :=
  let r := rand e in
  let width := 200 + r_wzWidth r * 300 in
  let height := 300 + r_wzHeight r * 400 in
  let x := r_wzX r * (canvasWidth e - width) in
  let y := canvasHeight e + 100 in
  let typeRoll := r_wzType r in
  let forceMult := 1 + d * 1.5 in
  if typeRoll <? 0.4 then
    mkWindZone x y width height
      ((if 0.5 <? r_wzDir r then 1 else -1) * (2 + r_wzForce r * 3) * forceMult)
      0
  else if typeRoll <? 0.7 then
    mkWindZone x y width height 0 (- (0.5 + r_wzForce r * 0.8) * forceMult)
  else
    mkWindZone x y width height 0 ((0.5 + r_wzForce r * 0.5) * forceMult).

(** [types[Math.floor(Math.random() * types.length)]] over the four types,
    for a draw in [0, 1). *)
Definition pickPowerUpType (roll : Q) : PowerUpType :=
  match Qfloor (roll * 4) with
  | 0%Z => SLOW_MOTION
  | 1%Z => SHIELD
  | 2%Z => WIND_BREAKER
  | _ => SUPER_GLIDE
  end.

Definition spawnPowerUp (e : Env) : PowerUp :=
  let width := 40 in
  mkPowerUp (r_puX (rand e) * (canvasWidth e - width)) (canvasHeight e + 100)
            width 40 (pickPowerUpType (r_puType (rand e))) false.

Definition spawnCoin (e : Env) : Coin :=
  let width := 30 in
  mkCoin (r_coinX (rand e) * (canvasWidth e - width)) (canvasHeight e + 100)
         width 30 false 0.

(* ------------------------------------------------------------------ *)
(** ** Challenge objectives *)

(** The callback of [levelProgress.objectives.map] in the per-tick tracker. *)
Definition trackObjective (timeElapsed : Q) (currentDepth : Z)
  (obj : ChallengObjective) : ChallengObjective :=
  if o_completed obj then obj
  else match o_type obj with
       | SURVIVE_TIME =>
           mkObjective (o_type obj) (o_target obj) (floorQ timeElapsed)
                       (o_target obj <=? timeElapsed)
       | REACH_DEPTH =>
           mkObjective (o_type obj) (o_target obj) (inject_Z currentDepth)
                       (o_target obj <=? inject_Z currentDepth)
       | COLLECT_COINS => obj
       | NO_DAMAGE => obj
       | AVOID_OBSTACLES => obj
       end.

(** The callback used when an obstacle leaves the screen
    ([AVOID_OBSTACLES]) and when a coin is collected ([COLLECT_COINS]). *)
Definition bumpObjective (t : ObjectiveType) (obj : ChallengObjective)
  : ChallengObjective :=
  if ObjectiveType_beq (o_type obj) t && negb (o_completed obj) then
    let current := o_current obj + 1 in
    mkObjective (o_type obj) (o_target obj) current (o_target obj <=? current)
  else obj.

(** The callback used on an unshielded collision. *)
Definition failNoDamage (obj : ChallengObjective) : ChallengObjective :=
  if ObjectiveType_beq (o_type obj) NO_DAMAGE then
    mkObjective (o_type obj) (o_target obj) 0 false
  else obj.

(** A [NO_DAMAGE] objective whose [completed] flag is still false. *)
Definition openNoDamage (obj : ChallengObjective) : bool :=
  ObjectiveType_beq (o_type obj) NO_DAMAGE && negb (o_completed obj).

(** [if (gameMode === 'CHALLENGE' && levelProgress)]: apply [f] to the
    shared objective objects and hand the spread progress to the sink. *)
Definition updateObjectives (e : Env) (lp0 : option LevelProgress)
  (f : ChallengObjective -> ChallengObjective)
  (objs : list ChallengObjective) (evs : list Event)
  : list ChallengObjective * list Event :=
  match gameMode e, lp0 with
  | CHALLENGE, Some lp =>
      let updatedObjectives := map f objs in
      (updatedObjectives,
       evs ++ [LevelProgressUpdate
                 (mkProgress updatedObjectives (startTime lp) (timeElapsed lp))])
  | _, _ => (objs, evs)
  end.

(** The objectives-tracking block that follows the score update.  The
    [if (canvasRef.current)] around [onGameOver] is taken as true: [update]
    is only called with that very canvas. *)
Definition challengeTick (e : Env) (lp0 : option LevelProgress)
  (currentDepth : Z) : list ChallengObjective * list Event :=
  match lp0 with
  | None => ([], [])
  | Some lp =>
      match gameMode e, selectedChallengeLevel e with
      | CHALLENGE, Some level =>
          let timeElapsed := (now e - startTime lp) / 1000 in
          let updatedObjectives :=
            map (trackObjective timeElapsed currentDepth) (objectives lp) in
          let allCompleted := forallb o_completed updatedObjectives in
          (updatedObjectives,
           LevelProgressUpdate
             (mkProgress updatedObjectives (startTime lp) timeElapsed)
           :: (if allCompleted
               then [GameOver currentDepth (LevelComplete level)] else []))
      | _, _ => (objectives lp, [])
      end
  end.

(* ------------------------------------------------------------------ *)
(** ** World update: timers, scrolling and the collision loops *)

(** The timer loop over [activePowerUpsRef]: every entry is counted down and
    spliced out once its [timeLeft] is not positive. *)
Fixpoint tickTimers (aps : list ActivePowerUp) : list ActivePowerUp :=
  match aps with
  | [] => []
  | a :: rest =>
      let timeLeft := (ap_timeLeft a - 1)%Z in
      if (timeLeft <=? 0)%Z then tickTimers rest
      else mkActive (ap_type a) timeLeft (ap_duration a) :: tickTimers rest
  end.

Fixpoint scrollWindZones (distanceTraveled : Q) (zones : list WindZone)
  : list WindZone :=
  match zones with
  | [] => []
  | z :: rest =>
      let y := wz_y z - distanceTraveled * 1.5 in
      if y <? - wz_height z - 100 then scrollWindZones distanceTraveled rest
      else mkWindZone (wz_x z) y (wz_width z) (wz_height z) (wz_vx z) (wz_vy z)
           :: scrollWindZones distanceTraveled rest
  end.

Definition moveObstacle (e : Env) (distanceTraveled : Q) (o : Obstacle)
  : Obstacle :=
  let y := ob_y o - distanceTraveled * 1.5 in
  let x := ob_x o + ob_speedX o in
  let speedX :=
    if ObstacleType_beq (ob_type o) BIRD
       && ((x <=? 0) || (canvasWidth e <=? x + ob_width o))
    then ob_speedX o * -1 else ob_speedX o in
  mkObstacle x y (ob_width o) (ob_height o) (ob_type o) speedX.

(** [findIndex] of the first entry of type [t], then [splice(index, 1)]. *)
Fixpoint removeFirst (t : PowerUpType) (aps : list ActivePowerUp)
  : list ActivePowerUp :=
  match aps with
  | [] => []
  | a :: rest =>
      if PowerUpType_beq (ap_type a) t then rest else a :: removeFirst t rest
  end.

(** State of the obstacle loop; [sc_fatal] records the early [return]. *)
Record Scan := mkScan {
  sc_obstacles : list Obstacle;
  sc_active : list ActivePowerUp;
  sc_objectives : list ChallengObjective;
  sc_events : list Event;
  sc_fatal : bool }.

(** The obstacle loop runs from the last index down.  [todo] holds the
    obstacles not yet visited, last index first; [kept] the visited ones that
    stay in the array, in array order. *)
Fixpoint scanObstacles (e : Env) (lp0 : option LevelProgress)
  (distanceTraveled : Q) (p : Player) (depth : Z)
  (todo kept : list Obstacle) (aps : list ActivePowerUp)
  (objs : list ChallengObjective) (evs : list Event) : Scan :=
  match todo with
  | [] => mkScan kept aps objs evs false
  | o :: todo' =>
      let obs := moveObstacle e distanceTraveled o in
      if ob_y obs <? -500 then
        let '(objs', evs') :=
          updateObjectives e lp0 (bumpObjective AVOID_OBSTACLES) objs evs in
        scanObstacles e lp0 distanceTraveled p depth todo' kept aps objs' evs'
      else if hitsObstacle p obs then
        if hasActive SHIELD aps then
          scanObstacles e lp0 distanceTraveled p depth todo' kept
                        (removeFirst SHIELD aps) objs evs
        else
          let '(objs', evs') :=
            updateObjectives e lp0 failNoDamage objs evs in
          mkScan (rev todo' ++ obs :: kept) aps objs'
                 (evs' ++ [GameOver depth (HitObstacle (ob_type obs))]) true
      else
        scanObstacles e lp0 distanceTraveled p depth todo' (obs :: kept) aps
                      objs evs
  end.

Definition powerUpDuration (t : PowerUpType) : Z :=
  match t with
  | SLOW_MOTION => 180
  | SHIELD => -1
  | WIND_BREAKER => 300
  | SUPER_GLIDE => 300
  end.

(** The power-up loop, in the same last-to-first order. *)
Fixpoint scanPowerUps (distanceTraveled : Q) (p : Player)
  (todo kept : list PowerUp) (aps : list ActivePowerUp)
  : list PowerUp * list ActivePowerUp :=
  match todo with
  | [] => (kept, aps)
  | u :: todo' =>
      let y := pu_y u - distanceTraveled * 1.5 in
      if y <? -100 then scanPowerUps distanceTraveled p todo' kept aps
      else if negb (pu_collected u)
              && overlaps (playerHitbox p) (pu_x u) y (pu_width u) (pu_height u)
      then
        let duration := powerUpDuration (pu_type u) in
        scanPowerUps distanceTraveled p todo' kept
                     (aps ++ [mkActive (pu_type u) duration duration])
      else
        scanPowerUps distanceTraveled p todo'
          (mkPowerUp (pu_x u) y (pu_width u) (pu_height u) (pu_type u)
                     (pu_collected u) :: kept) aps
  end.

(** The coin loop. *)
Fixpoint scanCoins (e : Env) (lp0 : option LevelProgress)
  (distanceTraveled : Q) (p : Player) (todo kept : list Coin)
  (objs : list ChallengObjective) (evs : list Event)
  : list Coin * list ChallengObjective * list Event :=
  match todo with
  | [] => (kept, objs, evs)
  | c :: todo' =>
      let y := c_y c - distanceTraveled * 1.5 in
      let spin := c_spin c + 0.1 in
      if y <? -100 then scanCoins e lp0 distanceTraveled p todo' kept objs evs
      else if negb (c_collected c)
              && overlaps (coinHitbox p) (c_x c) y (c_width c) (c_height c)
      then
        let '(objs', evs') :=
          updateObjectives e lp0 (bumpObjective COLLECT_COINS) objs
                           (evs ++ [CoinCollect 1]) in
        scanCoins e lp0 distanceTraveled p todo' kept objs' evs'
      else
        scanCoins e lp0 distanceTraveled p todo'
          (mkCoin (c_x c) y (c_width c) (c_height c) (c_collected c) spin
           :: kept) objs evs
  end.

(** The progress object [App] holds after the tick: the one last handed to
    [onLevelProgressUpdate], whose objective objects are the shared ones and
    so carry every later mutation of the tick. *)
Fixpoint lastProgress (evs : list Event) (acc : option LevelProgress)
  : option LevelProgress :=
  match evs with
  | [] => acc
  | LevelProgressUpdate lp :: rest => lastProgress rest (Some lp)
  | _ :: rest => lastProgress rest acc
  end.

Definition progressAfter (lp0 : option LevelProgress)
  (objs : list ChallengObjective) (evs : list Event) : option LevelProgress :=
  match lastProgress evs lp0 with
  | None => None
  | Some lp => Some (mkProgress objs (startTime lp) (timeElapsed lp))
  end.

(* ------------------------------------------------------------------ *)
(** ** The tick *)

Definition update (e : Env) (s : Sim) : Sim * list Event :=
  if negb (GameState_beq (gameState s) PLAYING) || isPaused e then (s, [])
  else
    let currentScore := score s in
    let d := difficulty currentScore in
    let aps := activePowerUps s in
    let hasSlowMotion := hasActive SLOW_MOTION aps in
    let lp0 := levelProgress s in
    (* physics *)
    let gust := stepGust e d currentScore (windGust s) in
    let p := movePlayer e d aps (windZones s) gust (player s) in
    (* score *)
    let distanceTraveled := p_vy p * worldSpeedMultiplier e d hasSlowMotion in
    let score' :=
      (currentScore + Qfloor (distanceTraveled * scoreMultiplier e d))%Z in
    let depth := (score' / 10)%Z in
    (* challenge objectives *)
    let '(objs, cevs) := challengeTick e lp0 depth in
    let evs := ScoreUpdate depth :: cevs in
    (* spawning *)
    let frame := frameCount s in
    let obs :=
      if (frame mod obstacleSpawnRate e d =? 0)%Z
      then obstacles s ++ [spawnObstacle e d score'] else obstacles s in
    let zones :=
      if (frame mod windZoneSpawnRate e d =? 0)%Z && (200 <? score')%Z
      then windZones s ++ [spawnWindZone e d] else windZones s in
    let pus :=
      if (frame mod 300 =? 0)%Z && (100 <? score')%Z
      then powerUps s ++ [spawnPowerUp e] else powerUps s in
    let cs :=
      if (frame mod 120 =? 0)%Z && (50 <? score')%Z
      then coins s ++ [spawnCoin e] else coins s in
    (* timers and scrolling *)
    let aps := tickTimers aps in
    let zones := scrollWindZones distanceTraveled zones in
    (* obstacles *)
    let sc :=
      scanObstacles e lp0 distanceTraveled p depth (rev obs) [] aps objs evs in
    if sc_fatal sc then
      (mkSim (gameState s)
             (progressAfter lp0 (sc_objectives sc) (sc_events sc))
             score' p gust (sc_obstacles sc) zones pus (sc_active sc) cs frame,
       sc_events sc)
    else
      let '(pus, aps) :=
        scanPowerUps distanceTraveled p (rev pus) [] (sc_active sc) in
      let '(cs, objs, evs) :=
        scanCoins e lp0 distanceTraveled p (rev cs) []
                  (sc_objectives sc) (sc_events sc) in
      (mkSim (gameState s) (progressAfter lp0 objs evs)
             score' p gust (sc_obstacles sc) zones pus aps cs (frame + 1)%Z,
       evs).

(* ------------------------------------------------------------------ *)
(** ** A run: input handlers, ticks and the reaction of [App] *)

(** Net effect of the pointer handlers between two frames. *)
Record Input := mkInput { i_umbrella : option bool; i_targetX : option Q }.

Definition applyInput (i : Input) (s : Sim) : Sim :=
  let p := player s in
  let p' := mkPlayer (p_x p) (p_y p) (p_vx p) (p_vy p)
              (match i_umbrella i with Some b => b | None => isUmbrellaOpen p end)
              (match i_targetX i with Some x => x | None => targetX p end) in
  mkSim (gameState s) (levelProgress s) (score s) p' (windGust s)
        (obstacles s) (windZones s) (powerUps s) (activePowerUps s) (coins s)
        (frameCount s).

Definition isGameOver (ev : Event) : bool :=
  match ev with GameOver _ _ => true | _ => false end.

Definition isLevelComplete (ev : Event) : bool :=
  match ev with GameOver _ (LevelComplete _) => true | _ => false end.

(** [handleGameOver] of [App.tsx]: [setGameState(GameState.GAME_OVER)].  The
    canvas sees the new value only once React has rendered again and the
    effect has replaced the loop by one whose closure holds it. *)
Definition handleGameOver (s : Sim) : Sim :=
  mkSim GAME_OVER (levelProgress s) (score s) (player s) (windGust s)
        (obstacles s) (windZones s) (powerUps s) (activePowerUps s) (coins s)
        (frameCount s).

(** The state the canvas is rendered with once React has committed what
    [App] did in the callbacks [evs] of a frame: [onGameOver] is wired to
    [handleGameOver].  The commit is asynchronous and is no part of a frame. *)
Definition deliver (evs : list Event) (s : Sim) : Sim :=
  if existsb isGameOver evs then handleGameOver s else s.

(** One animation frame of [loop]: the pending input, then [update].  The
    [gameState] the frame reads is the one its closure was created with, so
    the callbacks of a frame do not change it; [loop] queues the next frame
    itself. *)
Definition frame (s : Sim) (ie : Input * Env) : Sim * list Event :=
  update (snd ie) (applyInput (fst ie) s).

(** Consecutive frames of one closure of [loop]. *)
Fixpoint run (s : Sim) (frames : list (Input * Env)) : Sim * list Event :=
  match frames with
  | [] => (s, [])
  | ie :: rest =>
      let '(s', evs) := frame s ie in
      let '(s'', evs') := run s' rest in
      (s'', evs ++ evs')
  end.

(* ------------------------------------------------------------------ *)
(** ** Level table ([src/services/challengeLevels.ts]) *)

Definition CHALLENGE_LEVELS : list (Z * list ChallengObjective) :=
  [ (1%Z, [ mkObjective REACH_DEPTH 500 0 false;
            mkObjective COLLECT_COINS 10 0 false ]);
    (2%Z, [ mkObjective SURVIVE_TIME 90 0 false;
            mkObjective REACH_DEPTH 1000 0 false;
            mkObjective NO_DAMAGE 1 1 false ]);
    (3%Z, [ mkObjective REACH_DEPTH 1500 0 false;
            mkObjective COLLECT_COINS 25 0 false;
            mkObjective AVOID_OBSTACLES 50 0 false ]);
    (4%Z, [ mkObjective SURVIVE_TIME 120 0 false;
            mkObjective REACH_DEPTH 2000 0 false;
            mkObjective COLLECT_COINS 30 0 false ]);
    (5%Z, [ mkObjective SURVIVE_TIME 180 0 false;
            mkObjective REACH_DEPTH 5000 0 false;
            mkObjective COLLECT_COINS 50 0 false;
            mkObjective NO_DAMAGE 1 1 false ]) ].

Definition getLevelById (id : Z) : option (Z * list ChallengObjective) :=
  find (fun level => (fst level =? id)%Z) CHALLENGE_LEVELS.

Definition initializeLevelObjectives (levelId : Z) : list ChallengObjective :=
  match getLevelById levelId with
  | None => []
  | Some level => snd level
  end.

(** No level-complete event among [evs]. *)
Definition quiet (evs : list Event) : Prop :=
  existsb isLevelComplete evs = false.

(** [b] is what a callback made of [a]: an open [NO_DAMAGE] objective is
    still one. *)
Definition staysOpen (a b : ChallengObjective) : Prop :=
  openNoDamage a = true -> openNoDamage b = true.

(* ------------------------------------------------------------------ *)
(** ** Concrete scenes used by the examples below *)

(** Random draws that start no gust ([0.5] is above every gust
    probability). *)
Definition quietRand : Rand :=
  mkRand 0.5 0.5 0.5 0.5 0.5 0.5 0.5 0.5 0.5 0.5 0.5 0.5 0.5 0.5 0.5 0.5 0.5
         0.5 0.5.

(** A 400 by 900 canvas, medium difficulty, not paused. *)
Definition sceneEnv (mode : GameMode) (level : option Z) (clock : Q) : Env :=
  mkEnv false MEDIUM mode level 400 900 clock quietRand.

Definition noInput : Input := mkInput None None.

Definition stillGust : WindGust := mkGust false 0 0 0.

(** The player at the centre of the 400 by 900 canvas, a third of the way
    down, steering straight. *)
Definition centredPlayer (vy : Q) (umbrella : bool) : Player :=
  mkPlayer 200 300 0 vy umbrella 200.

(** Gliding at raw score 200 (difficulty 0) in an empty sky. *)
Definition glidingSim (aps : list ActivePowerUp) : Sim :=
  mkSim PLAYING None 200 (centredPlayer 0 true) stillGust [] [] [] aps [] 1.

(** A challenge run started with a level id that is not in the table:
    [initializeLevelObjectives] hands back no objective. *)
Definition emptyLevelSim : Sim :=
  mkSim PLAYING (Some (mkProgress (initializeLevelObjectives 9) 0 0)) 0
        (centredPlayer 0 false) stillGust [] [] [] [] [] 0.

(** Level 3, one second before depth 1500 with coins and avoided obstacles
    already done, diving at raw score 14995 (difficulty 1) onto a balloon. *)
Definition levelThreeSim : Sim :=
  mkSim PLAYING
        (Some (mkProgress [ mkObjective REACH_DEPTH 1500 1499 false;
                            mkObjective COLLECT_COINS 25 25 true;
                            mkObjective AVOID_OBSTACLES 50 50 true ] 0 60))
        14995 (centredPlayer 10 false) stillGust
        [mkObstacle 190 330 30 40 BALLOON 0] [] [] [] [] 1.

(** Endless run at raw score 150 (difficulty 0), diving: a SHIELD power-up
    is reached on the first tick, a cloud on the second. *)
Definition shieldPickupSim : Sim :=
  mkSim PLAYING None 150 (centredPlayer 10 false) stillGust
        [mkObstacle 150 360 100 60 CLOUD 0] []
        [mkPowerUp 190 310 40 40 SHIELD false] [] [] 1.

(** Level 2 right after [handleStart]. *)
Definition levelTwoSim : Sim :=
  mkSim PLAYING (Some (mkProgress (initializeLevelObjectives 2) 0 0)) 0
        (centredPlayer 0 false) stillGust [] [] [] [] [] 0.

(* ------------------------------------------------------------------ *)
(** ** Measures used to state what the loops do *)

(** Number of active power-ups of type [t]. *)
Definition countActive (t : PowerUpType) (aps : list ActivePowerUp) : nat :=
  length (filter (fun a => PowerUpType_beq (ap_type a) t) aps).

(** The obstacle, once moved by the loop, stays on screen and passes the
    collision test. *)
Definition strikes (e : Env) (distanceTraveled : Q) (p : Player)
  (o : Obstacle) : bool :=
  let obs := moveObstacle e distanceTraveled o in
  negb (ob_y obs <? -500) && hitsObstacle p obs.

(** The [let]s of [update] the statements below name: the player after the
    physics step, [distanceTraveled], the raw score after the score step, and
    [obstaclesRef.current] as the obstacle loop finds it, after the spawn
    step. *)
Definition movedPlayer (e : Env) (s : Sim) : Player :=
  let d := difficulty (score s) in
  movePlayer e d (activePowerUps s) (windZones s)
             (stepGust e d (score s) (windGust s)) (player s).

Definition tickDistance (e : Env) (s : Sim) : Q :=
  p_vy (movedPlayer e s)
  * worldSpeedMultiplier e (difficulty (score s))
      (hasActive SLOW_MOTION (activePowerUps s)).

Definition scoreAfter (e : Env) (s : Sim) : Z :=
  (score s
   + Qfloor (tickDistance e s * scoreMultiplier e (difficulty (score s))))%Z.

Definition obstaclesAfterSpawn (e : Env) (s : Sim) : list Obstacle :=
  let d := difficulty (score s) in
  if (frameCount s mod obstacleSpawnRate e d =? 0)%Z
  then obstacles s ++ [spawnObstacle e d (scoreAfter e s)] else obstacles s.

(** [currentTerminal] of the physics step. *)
Definition currentTerminal (e : Env) (d : Q) (p : Player) : Q :=
  (if isUmbrellaOpen p then BASE_GLIDE_TERMINAL_VELOCITY
   else BASE_TERMINAL_VELOCITY) * gravityMultiplier e d.

Definition isCrash (ev : Event) : bool :=
  match ev with GameOver _ (HitObstacle _) => true | _ => false end.

Definition isScoreUpdate (ev : Event) : bool :=
  match ev with ScoreUpdate _ => true | _ => false end.

Definition isCoinCollect (ev : Event) : bool :=
  match ev with CoinCollect _ => true | _ => false end.

(** [b] is what the callbacks may make of the objective [a]: type and target
    are kept, and a completed objective other than NO_DAMAGE is not touched
    at all. *)
Definition settled (a b : ChallengObjective) : Prop :=
  o_type b = o_type a /\ o_target b = o_target a /\
  (o_type a <> NO_DAMAGE -> o_completed a = true -> b = a).

(* ------------------------------------------------------------------ *)
(** ** Reset effect of the canvas and [handleStart] of [App] *)

(** The reset effect of [GameCanvas.tsx], run when [gameState] changes:
    [prev] is [prevGameStateRef.current].  It empties the entity lists and
    the score, hands out the STORM start shield and puts the player back;
    [isUmbrellaOpen] and the force of the last gust are not reset. *)
Definition resetEffect (prev : GameState) (e : Env) (s : Sim) : Sim :=
  if GameState_beq (gameState s) START
     || (GameState_beq (gameState s) PLAYING && GameState_beq prev GAME_OVER)
  then
    let g := windGust s in
    let p := player s in
    mkSim (gameState s) (levelProgress s) 0
          (mkPlayer (canvasWidth e / 2) (canvasHeight e / 3) 0 0
                    (isUmbrellaOpen p) (canvasWidth e / 2))
          (mkGust false (g_vx g) (g_vy g) (g_timeLeft g))
          [] [] []
          (match gameMode e with
           | STORM => [mkActive SHIELD 5000 5000]
           | _ => []
           end)
          [] 0
  else s.

(** [handleStart] of [App.tsx], on the state the tick reads: in challenge
    mode without a selected level it only opens the level list; otherwise
    it sets up the progress object and switches to PLAYING. *)
Definition handleStart (e : Env) (s : Sim) : Sim :=
  let playing lp :=
    mkSim PLAYING lp (score s) (player s) (windGust s) (obstacles s)
          (windZones s) (powerUps s) (activePowerUps s) (coins s)
          (frameCount s) in
  match gameMode e, selectedChallengeLevel e with
  | CHALLENGE, None => s
  | CHALLENGE, Some level =>
      playing (Some (mkProgress (initializeLevelObjectives level) (now e) 0))
  | _, _ => playing None
  end.

(* ------------------------------------------------------------------ *)
(** ** Leaderboard ([src/services/leaderboardService.ts]) *)

(** An entry of the leaderboard list [App] holds ([LeaderboardEntry] of
    [src/types.ts], without the document id). *)
Record LeaderboardEntry := mkEntry {
  le_userId : option string; le_name : string; le_score : Q; le_date : Q }.

Definition isHighScore (score : Q) (currentLeaderboard : list LeaderboardEntry)
  : bool :=
  if (length currentLeaderboard <? 10)%nat then true
  else
    match nth_error currentLeaderboard (length currentLeaderboard - 1) with
    | Some lowest => le_score lowest <? score
    | None => false
    end.

Inductive SubmitResult :=
| SubmitOk
| SubmitError (error : string).

(** [if (userId)]: neither [undefined] nor the empty string. *)
Definition givenUser (userId : option string) : option string :=
  match userId with
  | Some u => if String.eqb u "" then None else Some u
  | None => None
  end.

(** A JavaScript string as the sequence of its UTF-16 code units, which is
    what [slice] counts. *)
Definition JsString := list N.

(** A document of the [leaderboard] collection: its id and the fields
    [submitScore] writes. *)
Record Doc := mkDoc {
  doc_id : string; doc_userId : option string; doc_name : JsString;
  doc_score : Q; doc_date : Q }.

(** The two writes of [submitScore], [updateDoc] on a document id and
    [addDoc]; the [date] field is [serverTimestamp()], which the server
    fills in. *)
Inductive Write :=
| UpdateDoc (id : string) (name : JsString) (score : Q)
| AddDoc (userId : option string) (name : JsString) (score : Q).

(** What an awaited Firestore call settles with. *)
Inductive Reply (A : Type) :=
| Fulfilled (a : A)
| Rejected (message : string).

Arguments Fulfilled {A} a.
Arguments Rejected {A} message.

(** [submitScore] is an [async] function: between two [await]s other code
    runs, other calls of [submitScore] included.  A call is therefore
    embedded up to its next [await]: it has returned, or it is suspended on
    the [getDocs] of the [where('userId', '==', userId)] query, or on a
    write, and [k] is the rest of the function. *)
Inductive Submit :=
| Return (r : SubmitResult)
| AwaitGetDocs (userId : string) (k : Reply (list Doc) -> Submit)
| AwaitWrite (w : Write) (k : Reply unit -> Submit).

(** The [catch] block: [error.message || "Unknown ..."]. *)
Definition caught (message : string) : Submit :=
  Return (SubmitError (if String.eqb message ""
                       then "Unknown network or permission error."
                       else message)).

Definition afterWrite (r : Reply unit) : Submit :=
  match r with
  | Fulfilled _ => Return SubmitOk
  | Rejected message => caught message
  end.

(** [submitScore]; [db] tells whether Firestore was initialised. *)
Definition submitScore (db : bool) (name : JsString) (score : Q)
  (userId : option string) : Submit :=
  if negb db then
    Return (SubmitError
              "Database connection not established. Check configuration.")
  else
    let create :=
      AwaitWrite (AddDoc (givenUser userId) (firstn 15 name) score)
                 afterWrite in
    match givenUser userId with
    | Some u =>
        AwaitGetDocs u (fun querySnapshot =>
          match querySnapshot with
          | Rejected message => caught message
          | Fulfilled [] => create
          | Fulfilled (existingDoc :: _) =>
              if doc_score existingDoc <? score
              then AwaitWrite (UpdateDoc (doc_id existingDoc)
                                         (firstn 15 name) score) afterWrite
              else Return SubmitOk
          end)
    | None => create
    end.

(** The Firestore side.  The collection is the list of its documents in the
    order in which a query lists them.  What the server adds when it serves
    one request: whether the request fails (nothing is written then), the
    timestamp, and for [addDoc] the generated id and the place the new
    document takes in that order. *)
Record Server := mkServer {
  sv_fault : option string; sv_date : Q; sv_newId : string; sv_place : nat }.

Definition ownedBy (u : string) (d : Doc) : bool :=
  match doc_userId d with
  | Some v => String.eqb v u
  | None => false
  end.

Definition hasId (id : string) (d : Doc) : bool := String.eqb (doc_id d) id.

(** [updateDoc] overwrites name, score and date of the document with the
    given id and fails when there is none; [addDoc] creates a document. *)
Definition applyWrite (w : Write) (sv : Server) (docs : list Doc)
  : Reply unit * list Doc :=
  match w with
  | UpdateDoc id name score =>
      if existsb (hasId id) docs then
        (Fulfilled tt,
         map (fun d => if hasId id d
                       then mkDoc (doc_id d) (doc_userId d) name score
                                  (sv_date sv)
                       else d) docs)
      else (Rejected "No document to update", docs)
  | AddDoc userId name score =>
      (Fulfilled tt,
       firstn (sv_place sv) docs
       ++ mkDoc (sv_newId sv) userId name score (sv_date sv)
          :: skipn (sv_place sv) docs)
  end.

(** The server serves the request a call is suspended on, and the call runs
    on to its next [await]. *)
Definition serve (sv : Server) (call : Submit) (docs : list Doc)
  : Submit * list Doc :=
  match call with
  | Return r => (Return r, docs)
  | AwaitGetDocs u k =>
      match sv_fault sv with
      | Some message => (k (Rejected message), docs)
      | None => (k (Fulfilled (filter (ownedBy u) docs)), docs)
      end
  | AwaitWrite w k =>
      match sv_fault sv with
      | Some message => (k (Rejected message), docs)
      | None => let '(r, docs') := applyWrite w sv docs in (k r, docs')
      end
  end.

(** A call whose two requests are served with no other write in between. *)
Definition alone (sv1 sv2 : Server) (call : Submit) (docs : list Doc)
  : Submit * list Doc :=
  let '(call', docs') := serve sv1 call docs in serve sv2 call' docs'.

(** Two calls in flight: each step serves the pending request of the first
    call ([true]) or of the second. *)
Fixpoint interleave (steps : list (bool * Server)) (a b : Submit)
  (docs : list Doc) : Submit * Submit * list Doc :=
  match steps with
  | [] => (a, b, docs)
  | (true, sv) :: rest =>
      let '(a', docs') := serve sv a docs in interleave rest a' b docs'
  | (false, sv) :: rest =>
      let '(b', docs') := serve sv b docs in interleave rest a b' docs'
  end.

(** The user ids present in the collection, in document order. *)
Definition userIds (docs : list Doc) : list string :=
  flat_map (fun d => match doc_userId d with Some u => [u] | None => [] end)
           docs.

(* ------------------------------------------------------------------ *)
(** ** Shop ([src/App.tsx]) *)

Inductive CosmeticType := umbrella_color | hat | accessory | trail.

Record CosmeticItem := mkItem {
  ci_id : string; ci_name : string; ci_type : CosmeticType; ci_cost : Z;
  ci_unlocked : bool; ci_value : option string }.

Record PlayerCosmetics := mkCosmetics {
  pc_umbrellaColor : option string; pc_hat : option string;
  pc_accessory : option string; pc_trail : option string }.

(** The three pieces of [App] state the shop handlers touch. *)
Record Shop := mkShop {
  sh_coins : Z;
  sh_unlockedItems : list string;
  sh_selectedCosmetics : PlayerCosmetics }.

Definition includes (id : string) (ids : list string) : bool :=
  existsb (String.eqb id) ids.

(** [shopItems], recomputed at every render from [unlockedItems]. *)
Definition shopItems (unlockedItems : list string) : list CosmeticItem :=
  let item id name ty cost value :=
    mkItem id name ty cost (includes id unlockedItems) (Some value) in
  [ mkItem "umbrella_red" "Red Umbrella" umbrella_color 0 true (Some "#ef4444");
    item "umbrella_blue" "Blue Umbrella" umbrella_color 50%Z "#3b82f6";
    item "umbrella_green" "Green Umbrella" umbrella_color 50%Z "#10b981";
    item "umbrella_purple" "Purple Umbrella" umbrella_color 75%Z "#a855f7";
    item "umbrella_gold" "Golden Umbrella" umbrella_color 100%Z "#fbbf24";
    item "umbrella_rainbow" "Rainbow Umbrella" umbrella_color 200%Z "rainbow";
    item "hat_cap" "Baseball Cap" hat 100%Z "cap";
    item "hat_tophat" "Top Hat" hat 150%Z "tophat";
    item "hat_crown" "Crown" hat 250%Z "crown";
    item "hat_halo" "Halo" hat 300%Z "halo";
    item "acc_scarf" "Scarf" accessory 75%Z "scarf";
    item "acc_headphones" "Headphones" accessory 100%Z "headphones";
    item "acc_cape" "Cape" accessory 150%Z "cape";
    item "acc_glasses" "Sunglasses" accessory 80%Z "glasses";
    item "trail_sparkle" "Sparkle Trail" trail 120%Z "sparkle";
    item "trail_cloud" "Cloud Trail" trail 150%Z "cloud";
    item "trail_rainbow" "Rainbow Trail" trail 200%Z "rainbow";
    item "trail_fire" "Fire Trail" trail 180%Z "fire" ]%string.

(** The four branches on [item.type] shared by purchase and equip. *)
Definition equip (item : CosmeticItem) (c : PlayerCosmetics)
  : PlayerCosmetics :=
  match ci_type item with
  | umbrella_color =>
      mkCosmetics (ci_value item) (pc_hat c) (pc_accessory c) (pc_trail c)
  | hat =>
      mkCosmetics (pc_umbrellaColor c) (ci_value item) (pc_accessory c)
                  (pc_trail c)
  | accessory =>
      mkCosmetics (pc_umbrellaColor c) (pc_hat c) (ci_value item) (pc_trail c)
  | trail =>
      mkCosmetics (pc_umbrellaColor c) (pc_hat c) (pc_accessory c)
                  (ci_value item)
  end.

Definition handlePurchaseItem (item : CosmeticItem) (st : Shop) : Shop :=
  if ci_unlocked item then st
  else if (sh_coins st <? ci_cost item)%Z then st
  else mkShop (sh_coins st - ci_cost item)%Z
              (sh_unlockedItems st ++ [ci_id item])
              (equip item (sh_selectedCosmetics st)).

Definition handleEquipItem (item : CosmeticItem) (st : Shop) : Shop :=
  if negb (ci_unlocked item) then st
  else mkShop (sh_coins st) (sh_unlockedItems st)
              (equip item (sh_selectedCosmetics st)).

(* ------------------------------------------------------------------ *)
(** ** Game-over lines ([getGameOverRoast]) *)

Definition roastsData : list (Z * string) :=
  [
    (200%Z, "Gravity checked. It works.");
    (200%Z, "That was a short flight.");
    (200%Z, "Did you trip?");
    (200%Z, "The ground approached faster than expected.");
    (200%Z, "Umbrella failure or user error?");
    (200%Z, "Splats are messy.");
    (200%Z, "Are you trying to hit the ground?");
    (200%Z, "Speedrun to the bottom?");
    (200%Z, "Oof. Just oof.");
    (200%Z, "Newton is laughing at you.");
    (200%Z, "Flap your arms harder next time.");
    (200%Z, "That barely counts as a fall.");
    (200%Z, "Elevator would have been safer.");
    (200%Z, "Parachute > Umbrella?");
    (200%Z, "Physics 101: Failed.");
    (200%Z, "Aim for the bushes next time.");
    (200%Z, "Flat as a pancake.");
    (200%Z, "Wile E. Coyote style.");
    (200%Z, "Maybe try gliding?");
    (200%Z, "Face, meet pavement.");
    (500%Z, "Mediocrity achieved.");
    (500%Z, "A solid effort at failing.");
    (500%Z, "You can do better.");
    (500%Z, "Is that all you got?");
    (500%Z, "Warm up round?");
    (500%Z, "Almost impressive. Almost.");
    (500%Z, "Wind resistance is futile.");
    (500%Z, "Not quite terminal velocity.");
    (500%Z, "You fell. Good job.");
    (500%Z, "Participation award winner.");
    (500%Z, "Bird food.");
    (500%Z, "Cloud gazing interrupted.");
    (500%Z, "Decent descent.");
    (500%Z, "Slightly less embarrassing.");
    (500%Z, "You cleared the trees at least.");
    (500%Z, "The sky is the limit, not the ground.");
    (500%Z, "Stuck the landing... sort of.");
    (500%Z, "Needs more glide.");
    (500%Z, "Practice makes perfect.");
    (500%Z, "Keep your head up.");
    (1000%Z, "Respectable plummet.");
    (1000%Z, "Getting the hang of this.");
    (1000%Z, "Cruising altitude reached.");
    (1000%Z, "Not bad for a stickman.");
    (1000%Z, "You're a falling star.");
    (1000%Z, "Steady glide.");
    (1000%Z, "Avoiding obstacles like a pro.");
    (1000%Z, "Solid run.");
    (1000%Z, "Mid-tier falling skills.");
    (1000%Z, "You're in the zone.");
    (1000%Z, "Gravity is your friend.");
    (1000%Z, "Swoosh.");
    (1000%Z, "Graceful... until the end.");
    (1000%Z, "Nice airtime.");
    (1000%Z, "A decent drop.");
    (1000%Z, "Breaking the sound barrier?");
    (1000%Z, "You've got potential.");
    (1000%Z, "Falling with style.");
    (1000%Z, "Better than walking.");
    (1000%Z, "Sky high.");
    (2000%Z, "Impressive depth!");
    (2000%Z, "You're a natural glider.");
    (2000%Z, "Marathon faller.");
    (2000%Z, "The birds are jealous.");
    (2000%Z, "Defying physics for a while.");
    (2000%Z, "That's a long way down.");
    (2000%Z, "High altitude achiever.");
    (2000%Z, "Look at you go!");
    (2000%Z, "Professional skydiver?");
    (2000%Z, "Stratospheric performance.");
    (2000%Z, "You owned the sky.");
    (2000%Z, "Fantastic voyage.");
    (2000%Z, "Epic descent.");
    (2000%Z, "Gravity who?");
    (2000%Z, "Master of the wind.");
    (2000%Z, "Cloud surfer.");
    (2000%Z, "Way down we go.");
    (2000%Z, "Just keep falling.");
    (2000%Z, "Airborne elite.");
    (2000%Z, "Soaring success.");
    (999999%Z, "LEGENDARY FALL.");
    (999999%Z, "Are you even human?");
    (999999%Z, "The bottomless pit called.");
    (999999%Z, "You beat gravity.");
    (999999%Z, "God-tier gliding.");
    (999999%Z, "Space station to ground.");
    (999999%Z, "Infinite descent mode?");
    (999999%Z, "A truly chaotic fall.");
    (999999%Z, "Stickman supreme.");
    (999999%Z, "Umbrella mastery level 100.");
    (999999%Z, "You live in the sky now.");
    (999999%Z, "Unstoppable force.");
    (999999%Z, "Historic performance.");
    (999999%Z, "The abyss stared back.");
    (999999%Z, "Falling forever.");
    (999999%Z, "Sky king.");
    (999999%Z, "Absolute unit of a glider.");
    (999999%Z, "Physics is broken.");
    (999999%Z, "Ascended... downwards.");
    (999999%Z, "The void welcomes you.")
  ]%string.

(** [getGameOverRoast] for a displayed depth [score] and the draw [roll] of
    [Math.random()]; [None] stands for the [TypeError] of reading [.text]
    off an index outside the list. *)
Definition getGameOverRoast (score : Q) (roll : Q) : option string :=
  let eligibleRoasts :=
    if score <=? 200 then filter (fun r => (fst r =? 200)%Z) roastsData
    else if score <=? 500 then filter (fun r => (fst r =? 500)%Z) roastsData
    else if score <=? 1000 then filter (fun r => (fst r =? 1000)%Z) roastsData
    else if score <=? 2000 then filter (fun r => (fst r =? 2000)%Z) roastsData
    else filter (fun r => (fst r =? 999999)%Z) roastsData in
  if (length eligibleRoasts =? 0)%nat then Some "Gravity wins."%string
  else
    let index := Qfloor (roll * inject_Z (Z.of_nat (length eligibleRoasts))) in
    if (index <? 0)%Z then None
    else option_map snd (nth_error eligibleRoasts (Z.to_nat index)).

(* ------------------------------------------------------------------ *)
(** ** The falling stickman of the home screen *)

(** The variables of the animation closure. *)
Record Stickman := mkStickman {
  hs_y : Q; hs_umbrellaOpen : bool; hs_umbrellaAnim : Q; hs_vy : Q;
  hs_rotation : Q }.

(** The state part of one [draw] call on the 200 by 400 canvas; [roll] is
    the draw that may toggle the umbrella. *)
Definition drawStep (roll : Q) (h : Stickman) : Stickman :=
  let canvasHeight := 400 in
  let vy :=
    if hs_umbrellaOpen h
    then (let vy := hs_vy h + 0.15 in if 2 <? vy then 2 else vy)
    else (let vy := hs_vy h + 0.5 in if 8 <? vy then 8 else vy) in
  let rotation :=
    if hs_umbrellaOpen h then hs_rotation h else hs_rotation h + 0.1 in
  let y := hs_y h + vy in
  let umbrellaOpen :=
    if roll <? 0.01 then negb (hs_umbrellaOpen h) else hs_umbrellaOpen h in
  let umbrellaAnim :=
    if umbrellaOpen && (hs_umbrellaAnim h <? 1) then hs_umbrellaAnim h + 0.1
    else if negb umbrellaOpen && (0 <? hs_umbrellaAnim h)
         then hs_umbrellaAnim h - 0.1
         else hs_umbrellaAnim h in
  if canvasHeight + 100 <? y
  then mkStickman (-100) false umbrellaAnim 0 0
  else mkStickman y umbrellaOpen umbrellaAnim vy rotation.

Definition homeStickmanStart : Stickman := mkStickman (-100) false 0 0 0.

(* ================================================================== *)
(** * Properties *)

(* ------------------------------------------------------------------ *)
(** ** Comparisons *)

Lemma Qleb_true (a b : Q) : (a <=? b) = true <-> a <= b.
Proof. apply Qle_bool_iff. Qed.

Lemma Qleb_false (a b : Q) : (a <=? b) = false <-> b < a.
Proof.
  unfold Qleb. split; intro H.
  - apply Qnot_le_lt. intro L. apply Qle_bool_iff in L. congruence.
  - destruct (Qle_bool a b) eqn:E; [|reflexivity].
    apply Qle_bool_iff in E. exfalso. apply (Qlt_not_le _ _ H E).
Qed.

Lemma Qltb_true (a b : Q) : (a <? b) = true <-> a < b.
Proof.
  unfold Qltb. rewrite negb_true_iff. apply (Qleb_false b a).
Qed.

Lemma Qltb_false (a b : Q) : (a <? b) = false <-> b <= a.
Proof.
  unfold Qltb. rewrite negb_false_iff. apply Qle_bool_iff.
Qed.

(** Case analysis on a JavaScript comparison, leaving the order fact. *)
Ltac case_lt a b :=
  let E := fresh "E" in
  destruct (a <? b) eqn:E;
  [apply Qltb_true in E | apply Qltb_false in E].

Lemma Qmax_cases (a b : Q) :
  (a <= b /\ Qmax a b == b) \/ (b <= a /\ Qmax a b == a).
Proof.
  destruct (Q.max_spec a b) as [[H E]|[H E]]; [left|right]; split; auto.
  apply Qlt_le_weak; exact H.
Qed.

Lemma Qmin_cases (a b : Q) :
  (a <= b /\ Qmin a b == a) \/ (b <= a /\ Qmin a b == b).
Proof.
  destruct (Q.min_spec a b) as [[H E]|[H E]]; [left|right]; split; auto.
  apply Qlt_le_weak; exact H.
Qed.

(* ------------------------------------------------------------------ *)
(** ** Difficulty *)

Lemma Qdiv_5000 (a : Q) : a / 5000 == a * (1 # 5000).
Proof. reflexivity. Qed.

(** Unfolds the two nested [Math.min]/[Math.max] of [difficulty] into the
    order facts that decide them. *)
Ltac split_difficulty s :=
  unfold difficulty;
  generalize (Qdiv_5000 (Qmax 0 (inject_Z s - 200)));
  generalize (Qmin_cases (Qmax 0 (inject_Z s - 200) / 5000) 1);
  generalize (Qmax 0 (inject_Z s - 200) / 5000);
  generalize (Qmax_cases 0 (inject_Z s - 200));
  generalize (Qmax 0 (inject_Z s - 200));
  intros m Hm v Hv Ev.

Lemma difficulty_range (s : Z) : 0 <= difficulty s <= 1.
Proof.
  split_difficulty s.
  destruct Hm as [[? ?]|[? ?]]; destruct Hv as [[? E]|[? E]]; rewrite E; lra.
Qed.

(** C7. For every raw score [s] the difficulty computed by the tick is the
    clamp of [(s - 200) / 5000] to [0, 1]: it lies in [0, 1], it is 0 for
    every [s <= 200] and it is exactly 1 for every [s >= 5200]. *)
Theorem difficulty_is_clamped_ramp (s : Z) :
  difficulty s == spec_difficulty s /\
  0 <= difficulty s <= 1 /\
  ((s <= 200)%Z -> difficulty s == 0) /\
  ((5200 <= s)%Z -> difficulty s == 1).
Proof.
  split; [|split; [apply difficulty_range|split]].
  - unfold spec_difficulty, clamp.
    generalize (Qmax_cases 0 (Qmin ((inject_Z s - 200) / 5000) 1)).
    generalize (Qmax 0 (Qmin ((inject_Z s - 200) / 5000) 1)).
    generalize (Qmin_cases ((inject_Z s - 200) / 5000) 1).
    generalize (Qmin ((inject_Z s - 200) / 5000) 1).
    generalize (Qdiv_5000 (inject_Z s - 200)).
    generalize ((inject_Z s - 200) / 5000).
    intros w Ew n Hn c Hc.
    split_difficulty s.
    destruct Hm as [[? ?]|[? ?]]; destruct Hv as [[? E]|[? E]]; rewrite E;
      destruct Hn as [[? ?]|[? ?]]; destruct Hc as [[? ?]|[? ?]]; lra.
  - intro L. rewrite Zle_Qle in L. change (inject_Z 200) with 200 in L.
    split_difficulty s.
    destruct Hm as [[? ?]|[? ?]]; destruct Hv as [[? E]|[? E]]; rewrite E; lra.
  - intro L. rewrite Zle_Qle in L. change (inject_Z 5200) with 5200 in L.
    split_difficulty s.
    destruct Hm as [[? ?]|[? ?]]; destruct Hv as [[? E]|[? E]]; rewrite E; lra.
Qed.

Lemma difficulty_is_clamped_ramp_witness :
  (5200 <= 5200)%Z /\ difficulty 5200 == 1.
Proof.
  split; [lia|].
  apply (proj2 (proj2 (proj2 (difficulty_is_clamped_ramp 5200)))). lia.
Defined.

(* ------------------------------------------------------------------ *)
(** ** Collision test *)

Lemma andb4_true (a b c d : bool) :
  a && b && c && d = true <-> (a = true /\ b = true) /\ (c = true /\ d = true).
Proof. destruct a, b, c, d; simpl; intuition congruence. Qed.

Lemma overlapLength_pos (a1 a2 b1 b2 : Q) :
  a1 < a2 -> b1 < b2 ->
  (0 < overlapLength a1 a2 b1 b2 <-> a1 < b2 /\ b1 < a2).
Proof.
  intros Ha Hb. unfold overlapLength.
  destruct (Qmin_cases a2 b2) as [[? E1]|[? E1]];
  destruct (Qmax_cases a1 b1) as [[? E2]|[? E2]];
    rewrite E1, E2; split; intros; try split; lra.
Qed.

Lemma overlaps_iff (h : Rect) (bx by_ bw bh : Q) :
  0 < rw h -> 0 < rh h -> 0 < bw -> 0 < bh ->
  (overlaps h bx by_ bw bh = true <-> strictOverlap h (mkRect bx by_ bw bh)).
Proof.
  intros Hw Hh Hbw Hbh. unfold overlaps, strictOverlap. cbn [rx ry rw rh].
  rewrite andb4_true, !Qltb_true.
  rewrite !overlapLength_pos by lra.
  intuition lra.
Qed.

Lemma hitsObstacle_iff (p : Player) (o : Obstacle) :
  0 < ob_width o -> 0 < ob_height o ->
  (hitsObstacle p o = true
   <-> strictOverlap (playerHitbox p) (obstacleRect o)).
Proof.
  intros Hw Hh. unfold hitsObstacle, obstacleRect. apply overlaps_iff; cbn; lra.
Qed.

Lemma edgeTouch_no_overlap (p : Player) (o : Obstacle) :
  0 < ob_width o -> 0 < ob_height o ->
  edgeTouch (playerHitbox p) (obstacleRect o) ->
  ~ strictOverlap (playerHitbox p) (obstacleRect o).
Proof.
  intros Hw Hh T [Ex Ey].
  unfold edgeTouch, playerHitbox, obstacleRect in *. cbn [rx ry rw rh] in *.
  apply overlapLength_pos in Ex; [|lra|lra].
  apply overlapLength_pos in Ey; [|lra|lra].
  destruct T as [T|[T|[T|T]]]; lra.
Qed.

(* ------------------------------------------------------------------ *)
(** ** What a tick leaves in the state *)

Section Tick.
Variables (e : Env) (s : Sim).
Hypothesis Hplaying : gameState s = PLAYING.
Hypothesis Hrunning : isPaused e = false.

(** The player the physics of this tick produces. *)
Let moved : Player :=
  movePlayer e (difficulty (score s)) (activePowerUps s) (windZones s)
    (stepGust e (difficulty (score s)) (score s) (windGust s)) (player s).

Lemma update_player : player (fst (update e s)) = moved.
Proof using Hplaying Hrunning.
  unfold update. rewrite Hplaying, Hrunning. cbn [GameState_beq negb orb].
  destruct (challengeTick _ _ _) as [objs cevs].
  match goal with |- context [sc_fatal ?sc] => destruct (sc_fatal sc) end.
  - reflexivity.
  - destruct (scanPowerUps _ _ _ _ _) as [pus aps].
    destruct (scanCoins _ _ _ _ _ _ _ _) as [[cs objs'] evs']. reflexivity.
Qed.

Lemma update_score :
  score (fst (update e s))
  = (score s
     + Qfloor (p_vy moved
               * worldSpeedMultiplier e (difficulty (score s))
                   (hasActive SLOW_MOTION (activePowerUps s))
               * scoreMultiplier e (difficulty (score s))))%Z.
Proof using Hplaying Hrunning.
  unfold update. rewrite Hplaying, Hrunning. cbn [GameState_beq negb orb].
  destruct (challengeTick _ _ _) as [objs cevs].
  match goal with |- context [sc_fatal ?sc] => destruct (sc_fatal sc) end.
  - reflexivity.
  - destruct (scanPowerUps _ _ _ _ _) as [pus aps].
    destruct (scanCoins _ _ _ _ _ _ _ _) as [[cs objs'] evs']. reflexivity.
Qed.
End Tick.

Lemma update_idle (e : Env) (s : Sim) :
  gameState s <> PLAYING \/ isPaused e = true -> update e s = (s, []).
Proof.
  intros [H|H]; unfold update.
  - destruct (gameState s); try congruence; reflexivity.
  - rewrite H, orb_true_r. reflexivity.
Qed.

(* ------------------------------------------------------------------ *)
(** ** Screen bounds *)

Lemma clampHorizontal_band (width : Q) (xv : Q * Q) :
  100 <= width ->
  50 <= fst (clampHorizontal width xv) <= width - 50.
Proof.
  intros Hw. unfold clampHorizontal.
  case_lt (fst xv) 50; cbn [fst];
    match goal with |- context [?a <? ?b] => case_lt a b end; cbn [fst]; lra.
Qed.

Lemma clampHorizontal_stop (width : Q) (xv : Q * Q) :
  clampHorizontal width xv = xv \/ snd (clampHorizontal width xv) = 0.
Proof.
  unfold clampHorizontal.
  case_lt (fst xv) 50; cbn [fst];
    match goal with |- context [?a <? ?b] => case_lt a b end; cbn [snd]; auto.
Qed.

Lemma clampVertical_band (height : Q) (yv : Q * Q) :
  200 <= height ->
  100 <= fst (clampVertical height yv) <= height - 100.
Proof.
  intros Hh. unfold clampVertical.
  case_lt (fst yv) 100; cbn [fst];
    match goal with |- context [?a <? ?b] => case_lt a b end; cbn [fst]; lra.
Qed.

Lemma clampHorizontal_narrow (width : Q) (xv : Q * Q) :
  width < 100 -> clampHorizontal width xv = (width - 50, 0).
Proof.
  intros Hw. unfold clampHorizontal.
  case_lt (fst xv) 50; cbn [fst];
    match goal with |- context [?a <? ?b] =>
      assert (Ewin : (a <? b) = true) by (apply Qltb_true; lra); rewrite Ewin
    end; reflexivity.
Qed.

Lemma clampVertical_low (height : Q) (yv : Q * Q) :
  height < 200 -> fst (clampVertical height yv) = height - 100.
Proof.
  intros Hh. unfold clampVertical.
  case_lt (fst yv) 100; cbn [fst];
    match goal with |- context [?a <? ?b] =>
      assert (Ewin : (a <? b) = true) by (apply Qltb_true; lra); rewrite Ewin
    end; reflexivity.
Qed.

(** C8 (as amended). When the canvas is at least 100 wide the player is
    inside [50, width - 50] after every tick, when it is at least 200 high
    inside [100, height - 100], and the horizontal bound either left the
    position at [x + vx] or zeroed [vx].  On a narrower canvas the player
    ends at [width - 50] with [vx = 0], on a lower one at [height - 100]. *)
Theorem player_stays_in_bands (e : Env) (s : Sim) :
  gameState s = PLAYING -> isPaused e = false ->
  let p := player (fst (update e s)) in
  (100 <= canvasWidth e -> 50 <= p_x p <= canvasWidth e - 50) /\
  (200 <= canvasHeight e -> 100 <= p_y p <= canvasHeight e - 100) /\
  (p_vx p = 0 \/ p_x p = p_x (player s) + p_vx p) /\
  (canvasWidth e < 100 -> p_x p = canvasWidth e - 50 /\ p_vx p = 0) /\
  (canvasHeight e < 200 -> p_y p = canvasHeight e - 100).
Proof.
  intros Hp Hr p. subst p. rewrite update_player by assumption.
  unfold movePlayer. cbn [p_x p_y p_vx].
  split; [intros Hw; apply clampHorizontal_band; exact Hw|].
  split; [intros Hh; apply clampVertical_band; exact Hh|].
  split.
  - match goal with |- context [clampHorizontal ?w ?xv] =>
      destruct (clampHorizontal_stop w xv) as [E|E];
        [right; rewrite E|left; exact E]
    end.
    reflexivity.
  - split.
    + intros Hw. rewrite clampHorizontal_narrow by exact Hw. split; reflexivity.
    + intros Hh. apply clampVertical_low. exact Hh.
Qed.

Lemma player_stays_in_bands_witness :
  let e := sceneEnv ENDLESS None 0 in
  let s := glidingSim [] in
  gameState s = PLAYING /\ isPaused e = false /\
  100 <= canvasWidth e /\ 200 <= canvasHeight e /\
  50 <= p_x (player (fst (update e s))) <= canvasWidth e - 50 /\
  100 <= p_y (player (fst (update e s))) <= canvasHeight e - 100.
Proof.
  cbv zeta.
  split; [reflexivity|split; [reflexivity|split; [|split]]].
  - unfold Qle; simpl; lia.
  - unfold Qle; simpl; lia.
  - pose proof (player_stays_in_bands (sceneEnv ENDLESS None 0) (glidingSim [])
                  eq_refl eq_refl) as H.
    cbv zeta in H.
    assert (Hw : 100 <= canvasWidth (sceneEnv ENDLESS None 0))
      by (unfold Qle; simpl; lia).
    assert (Hh : 200 <= canvasHeight (sceneEnv ENDLESS None 0))
      by (unfold Qle; simpl; lia).
    destruct H as [Hx [Hy _]].
    split; [exact (Hx Hw)|exact (Hy Hh)].
Defined.

(** On a canvas narrower than 100 the horizontal band is empty and the
    second bound wins: the player ends at [width - 50], left of 50. *)
Lemma narrow_canvas_leaves_band :
  let e := mkEnv false MEDIUM ENDLESS None 80 900 0 quietRand in
  let s := mkSim PLAYING None 200 (mkPlayer 40 300 0 0 true 40) stillGust
                 [] [] [] [] [] 1 in
  let p := player (fst (update e s)) in
  p_x p == 30 /\ ~ (50 <= p_x p <= canvasWidth e - 50).
Proof.
  cbv zeta. split.
  - vm_compute. reflexivity.
  - intros [H _]. vm_compute in H. apply H. reflexivity.
Qed.

(* ------------------------------------------------------------------ *)
(** ** Wind breaker *)

Lemma gustForce_wind_breaker (g : WindGust) : gustForce g true = (0, 0).
Proof. unfold gustForce. cbn [negb]. rewrite andb_false_r. reflexivity. Qed.

Lemma applyWindZones_wind_breaker (p : Player) (zones : list WindZone)
  (v : Q * Q) : applyWindZones p true zones v = v.
Proof. reflexivity. Qed.

(* ------------------------------------------------------------------ *)
(** ** Score *)

Lemma modeMultiplier_pos (m : DifficultyMode) : 0 < modeMultiplier m.
Proof. destruct m; reflexivity. Qed.



Lemma Qfloor_nonneg (a : Q) : 0 <= a -> (0 <= Qfloor a)%Z.
Proof. intros H. apply (Qfloor_resp_le 0 a H). Qed.





(* ------------------------------------------------------------------ *)
(** ** Events of a tick *)

Lemma quiet_app (a b : list Event) : quiet a -> quiet b -> quiet (a ++ b).
Proof.
  unfold quiet. intros Ha Hb. rewrite existsb_app, Ha, Hb. reflexivity.
Qed.

Lemma updateObjectives_events (e : Env) (lp0 : option LevelProgress)
  (f : ChallengObjective -> ChallengObjective)
  (objs : list ChallengObjective) (evs : list Event) :
  exists extra,
    snd (updateObjectives e lp0 f objs evs) = evs ++ extra /\ quiet extra.
Proof.
  unfold updateObjectives.
  destruct (gameMode e), lp0; cbn [snd];
    try (exists []; rewrite app_nil_r; split; reflexivity).
  eexists; split; reflexivity.
Qed.

Lemma scanObstacles_events (e : Env) (lp0 : option LevelProgress) (dist : Q)
  (p : Player) (depth : Z) (todo : list Obstacle) :
  forall kept aps objs evs,
  exists extra,
    sc_events (scanObstacles e lp0 dist p depth todo kept aps objs evs)
    = evs ++ extra /\ quiet extra.
Proof.
  induction todo as [|o todo IH]; intros kept aps objs evs; cbn [scanObstacles].
  - exists []. rewrite app_nil_r. split; reflexivity.
  - destruct (ob_y (moveObstacle e dist o) <? -500).
    + pose proof (updateObjectives_events e lp0
                    (bumpObjective AVOID_OBSTACLES) objs evs) as [x [Ex Qx]].
      destruct (updateObjectives e lp0 (bumpObjective AVOID_OBSTACLES) objs evs)
        as [objs' evs'].
      cbn [snd] in Ex. subst evs'.
      destruct (IH kept aps objs' (evs ++ x)) as [y [Ey Qy]].
      exists (x ++ y). rewrite Ey, app_assoc. split; [reflexivity|].
      apply quiet_app; assumption.
    + destruct (hitsObstacle p (moveObstacle e dist o)); [|apply IH].
      destruct (hasActive SHIELD aps); [apply IH|].
      pose proof (updateObjectives_events e lp0 failNoDamage objs evs)
        as [x [Ex Qx]].
      destruct (updateObjectives e lp0 failNoDamage objs evs) as [objs' evs'].
      cbn [snd] in Ex. subst evs'. cbn [sc_events].
      eexists. rewrite <- app_assoc. split; [reflexivity|].
      apply quiet_app; [exact Qx|reflexivity].
Qed.

Lemma scanCoins_events (e : Env) (lp0 : option LevelProgress) (dist : Q)
  (p : Player) (todo : list Coin) :
  forall kept objs evs,
  exists extra,
    snd (scanCoins e lp0 dist p todo kept objs evs) = evs ++ extra
    /\ quiet extra.
Proof.
  induction todo as [|c todo IH]; intros kept objs evs; cbn [scanCoins].
  - exists []. rewrite app_nil_r. split; reflexivity.
  - destruct (c_y c - dist * 1.5 <? -100); [apply IH|].
    destruct (negb (c_collected c) && _); [|apply IH].
    pose proof (updateObjectives_events e lp0 (bumpObjective COLLECT_COINS)
                  objs (evs ++ [CoinCollect 1])) as [x [Ex Qx]].
    destruct (updateObjectives e lp0 (bumpObjective COLLECT_COINS) objs
                (evs ++ [CoinCollect 1])) as [objs' evs'].
    cbn [snd] in Ex. subst evs'.
    destruct (IH kept objs' ((evs ++ [CoinCollect 1]) ++ x)) as [y [Ey Qy]].
    exists ([CoinCollect 1] ++ x ++ y).
    rewrite Ey, <- !app_assoc. split; [reflexivity|].
    apply quiet_app; [reflexivity|apply quiet_app; assumption].
Qed.

(** The events of a running tick: the score, then what the objective
    tracker emits, then events none of which is a level-complete. *)
Lemma update_events (e : Env) (s : Sim) :
  gameState s = PLAYING -> isPaused e = false ->
  let depth := (score (fst (update e s)) / 10)%Z in
  exists extra,
    snd (update e s)
    = ScoreUpdate depth :: snd (challengeTick e (levelProgress s) depth)
      ++ extra
    /\ quiet extra.
Proof.
  intros Hp Hr depth. subst depth. rewrite (update_score e s Hp Hr).
  unfold update. rewrite Hp, Hr. cbn [GameState_beq negb orb].
  destruct (challengeTick _ _ _) as [objs cevs]. cbn [snd].
  match goal with |- context [scanObstacles ?e ?l ?d ?p ?k ?t ?kp ?a ?o ?ev] =>
    destruct (scanObstacles_events e l d p k t kp a o ev) as [x [Ex Qx]];
    destruct (sc_fatal (scanObstacles e l d p k t kp a o ev))
  end.
  - cbn [snd]. exists x. split; [exact Ex|exact Qx].
  - destruct (scanPowerUps _ _ _ _ _) as [pus aps].
    match goal with |- context [scanCoins ?e ?l ?d ?p ?t ?k ?o ?ev] =>
      destruct (scanCoins_events e l d p t k o ev) as [y [Ey Qy]];
      destruct (scanCoins e l d p t k o ev) as [[cs objs'] evs']
    end.
    cbn [snd] in *. subst evs'. rewrite Ex.
    exists (x ++ y). split; [|apply quiet_app; assumption].
    cbn [app]. rewrite <- app_assoc. reflexivity.
Qed.

(* ------------------------------------------------------------------ *)
(** ** Empty objective list *)

(** C5 (as amended). With an empty objective list [every] is vacuously true:
    each tick of a challenge run whose progress object has no objectives
    emits the level-complete game-over event, with the depth of that tick. *)
Theorem empty_objectives_complete_level (e : Env) (s : Sim)
  (lp : LevelProgress) (level : Z) :
  gameState s = PLAYING -> isPaused e = false ->
  gameMode e = CHALLENGE -> selectedChallengeLevel e = Some level ->
  levelProgress s = Some lp -> objectives lp = [] ->
  In (GameOver (score (fst (update e s)) / 10) (LevelComplete level))
     (snd (update e s)).
Proof.
  intros Hp Hr Hm Hl Hlp Ho.
  destruct (update_events e s Hp Hr) as [extra [E _]]. rewrite E.
  right. apply in_or_app. left.
  unfold challengeTick. rewrite Hlp, Hm, Hl, Ho. cbn. right. left. reflexivity.
Qed.

Lemma empty_objectives_complete_level_witness :
  let e := sceneEnv CHALLENGE (Some 9%Z) 1000 in
  let s := emptyLevelSim in
  gameState s = PLAYING /\ isPaused e = false /\
  gameMode e = CHALLENGE /\ selectedChallengeLevel e = Some 9%Z /\
  levelProgress s = Some (mkProgress [] 0 0) /\
  In (GameOver (score (fst (update e s)) / 10) (LevelComplete 9))
     (snd (update e s)).
Proof.
  cbv zeta. repeat (split; [reflexivity|]).
  apply (empty_objectives_complete_level (sceneEnv CHALLENGE (Some 9%Z) 1000)
           emptyLevelSim (mkProgress [] 0 0) 9); reflexivity.
Defined.

(** The first tick of a challenge run without objectives already reports
    the level as complete. *)
Lemma empty_level_completes_at_once :
  objectives (mkProgress (initializeLevelObjectives 9) 0 0) = [] /\
  existsb isLevelComplete
    (snd (update (sceneEnv CHALLENGE (Some 9%Z) 1000) emptyLevelSim)) = true.
Proof. split; vm_compute; reflexivity. Qed.

(* ------------------------------------------------------------------ *)
(** ** Game over within one tick *)

(** C3. On the tick of level 3 that reaches depth 1500 while the player is
    on a balloon, [onGameOver] is called twice: the level-complete branch
    does not return, so the obstacle loop still runs and reports the crash. *)
Theorem level_complete_then_crash_same_tick :
  filter isGameOver
         (snd (update (sceneEnv CHALLENGE (Some 3%Z) 61000) levelThreeSim))
  = [GameOver 1504 (LevelComplete 3); GameOver 1504 (HitObstacle BALLOON)].
Proof. vm_compute. reflexivity. Qed.

(** The crash branch does return: the obstacle loop calls [onGameOver] at
    most once, and when it does the call is the last event of the loop. *)
Lemma updateObjectives_no_game_over (e : Env) (lp0 : option LevelProgress)
  (f : ChallengObjective -> ChallengObjective)
  (objs : list ChallengObjective) (evs : list Event) :
  exists extra,
    snd (updateObjectives e lp0 f objs evs) = evs ++ extra
    /\ existsb isGameOver extra = false.
Proof.
  unfold updateObjectives.
  destruct (gameMode e), lp0; cbn [snd];
    try (exists []; rewrite app_nil_r; split; reflexivity).
  eexists; split; reflexivity.
Qed.

Lemma scanObstacles_crash_once (e : Env) (lp0 : option LevelProgress)
  (dist : Q) (p : Player) (depth : Z) (todo : list Obstacle) :
  forall kept aps objs evs,
  let r := scanObstacles e lp0 dist p depth todo kept aps objs evs in
  exists extra,
    sc_events r = evs ++ extra /\
    ((sc_fatal r = false /\ existsb isGameOver extra = false) \/
     (sc_fatal r = true /\
      exists pre t, extra = pre ++ [GameOver depth (HitObstacle t)]
                    /\ existsb isGameOver pre = false)).
Proof.
  induction todo as [|o todo IH]; intros kept aps objs evs; cbn zeta;
    cbn [scanObstacles].
  - exists []. rewrite app_nil_r. split; [reflexivity|left; split; reflexivity].
  - destruct (ob_y (moveObstacle e dist o) <? -500).
    + pose proof (updateObjectives_no_game_over e lp0
                    (bumpObjective AVOID_OBSTACLES) objs evs) as [x [Ex Qx]].
      destruct (updateObjectives e lp0 (bumpObjective AVOID_OBSTACLES) objs evs)
        as [objs' evs'].
      cbn [snd] in Ex. subst evs'.
      destruct (IH kept aps objs' (evs ++ x)) as [y [Ey Hy]].
      exists (x ++ y). rewrite Ey, app_assoc. split; [reflexivity|].
      destruct Hy as [[F Qy]|[F [pre [t [E Qp]]]]]; [left|right];
        (split; [exact F|]).
      * rewrite existsb_app, Qx, Qy. reflexivity.
      * exists (x ++ pre), t. rewrite E, app_assoc. split; [reflexivity|].
        rewrite existsb_app, Qx, Qp. reflexivity.
    + destruct (hitsObstacle p (moveObstacle e dist o)); [|apply IH].
      destruct (hasActive SHIELD aps); [apply IH|].
      pose proof (updateObjectives_no_game_over e lp0 failNoDamage objs evs)
        as [x [Ex Qx]].
      destruct (updateObjectives e lp0 failNoDamage objs evs) as [objs' evs'].
      cbn [snd] in Ex. subst evs'. cbn [sc_events sc_fatal].
      eexists. rewrite <- app_assoc. split; [reflexivity|].
      right. split; [reflexivity|]. exists x, (ob_type (moveObstacle e dist o)).
      split; [reflexivity|exact Qx].
Qed.

(* ------------------------------------------------------------------ *)
(** ** Shield *)

(** Every entry that survives the timer loop has a positive [timeLeft]. *)
Lemma tickTimers_positive (aps : list ActivePowerUp) (a : ActivePowerUp) :
  In a (tickTimers aps) -> (0 < ap_timeLeft a)%Z.
Proof.
  induction aps as [|b aps IH]; cbn [tickTimers]; [intros []|].
  destruct (ap_timeLeft b - 1 <=? 0)%Z eqn:E; [exact IH|].
  intros [H|H]; [|exact (IH H)].
  subst a. cbn [ap_timeLeft]. apply Z.leb_gt in E. exact E.
Qed.

(** So a shield stored with the duration [-1] of [powerUpDuration] is gone
    after the timer loop of the next tick, before the obstacle loop runs. *)
Lemma tickTimers_drops_collected_shield (aps : list ActivePowerUp) :
  (forall a, In a aps -> ap_type a = SHIELD ->
             ap_timeLeft a = powerUpDuration SHIELD) ->
  hasActive SHIELD (tickTimers aps) = false.
Proof.
  intros H. induction aps as [|b aps IH]; cbn [tickTimers]; [reflexivity|].
  assert (IH' : hasActive SHIELD (tickTimers aps) = false).
  { apply IH. intros a Ha. apply H. right. exact Ha. }
  destruct (ap_timeLeft b - 1 <=? 0)%Z eqn:E; [exact IH'|].
  unfold hasActive in *. cbn [existsb ap_type]. rewrite IH', orb_false_r.
  destruct (ap_type b) eqn:T; try reflexivity.
  exfalso. pose proof (H b (or_introl eq_refl) T) as L.
  cbn [powerUpDuration] in L. apply Z.leb_gt in E. lia.
Qed.

(** With a shield present at the collision, the loop does what the claim
    says: the first shield and the obstacle are dropped and the scan goes
    on. *)
Lemma shield_absorbs_hit (e : Env) (lp0 : option LevelProgress) (dist : Q)
  (p : Player) (depth : Z) (o : Obstacle) (todo kept : list Obstacle)
  (aps : list ActivePowerUp) (objs : list ChallengObjective)
  (evs : list Event) :
  -500 <= ob_y (moveObstacle e dist o) ->
  hitsObstacle p (moveObstacle e dist o) = true ->
  hasActive SHIELD aps = true ->
  scanObstacles e lp0 dist p depth (o :: todo) kept aps objs evs
  = scanObstacles e lp0 dist p depth todo kept (removeFirst SHIELD aps)
                  objs evs.
Proof.
  intros Hy Hh Hs. cbn [scanObstacles].
  apply Qltb_false in Hy. rewrite Hy, Hh, Hs. reflexivity.
Qed.

(** C1. A SHIELD picked up on one tick does not protect on the next: the
    pick-up stores it with [timeLeft = -1], the timer loop of the following
    tick splices it out, and the collision with the cloud ends the run. *)
Theorem collected_shield_expires_before_hit :
  let e := sceneEnv ENDLESS None 0 in
  let first := frame shieldPickupSim (noInput, e) in
  let second := frame (fst first) (noInput, e) in
  activePowerUps (fst first) = [mkActive SHIELD (-1) (-1)] /\
  snd first = [ScoreUpdate 16] /\
  snd second = [ScoreUpdate 17; GameOver 17 (HitObstacle CLOUD)] /\
  gameState (deliver (snd second) (fst second)) = GAME_OVER.
Proof. vm_compute. repeat split; reflexivity. Qed.

(* ------------------------------------------------------------------ *)
(** ** Objective flags *)

Lemma trackObjective_completed (t : Q) (depth : Z) (obj : ChallengObjective) :
  o_completed obj = true -> trackObjective t depth obj = obj.
Proof. intros H. unfold trackObjective. rewrite H. reflexivity. Qed.

Lemma bumpObjective_completed (ty : ObjectiveType) (obj : ChallengObjective) :
  o_completed obj = true -> bumpObjective ty obj = obj.
Proof.
  intros H. unfold bumpObjective. rewrite H, andb_false_r. reflexivity.
Qed.

Lemma trackObjective_reach_depth (t : Q) (depth : Z)
  (obj : ChallengObjective) :
  o_type obj = REACH_DEPTH -> o_completed obj = false ->
  let obj' := trackObjective t depth obj in
  o_current obj' = inject_Z depth /\
  (o_completed obj' = true <-> o_target obj' <= o_current obj').
Proof.
  intros Ht Hc. unfold trackObjective. rewrite Hc, Ht. cbn.
  split; [reflexivity|apply Qleb_true].
Qed.

Lemma trackObjective_survive_time (t : Q) (depth : Z)
  (obj : ChallengObjective) (n : Z) :
  o_type obj = SURVIVE_TIME -> o_completed obj = false ->
  o_target obj = inject_Z n ->
  let obj' := trackObjective t depth obj in
  o_completed obj' = true <-> o_target obj' <= o_current obj'.
Proof.
  intros Ht Hc Hn. unfold trackObjective. rewrite Hc, Ht, Hn. cbn.
  rewrite Qleb_true. unfold floorQ. split; intros H.
  - rewrite <- Zle_Qle. rewrite <- (Qfloor_Z n). apply Qfloor_resp_le. exact H.
  - apply Qle_trans with (inject_Z (Qfloor t)); [exact H|apply Qfloor_le].
Qed.

Lemma bumpObjective_flag (ty : ObjectiveType) (obj : ChallengObjective) :
  o_type obj = ty -> o_completed obj = false ->
  let obj' := bumpObjective ty obj in
  o_current obj' = o_current obj + 1 /\
  (o_completed obj' = true <-> o_target obj' <= o_current obj').
Proof.
  intros Ht Hc. unfold bumpObjective. rewrite Hc, Ht.
  replace (ObjectiveType_beq ty ty) with true by (destruct ty; reflexivity).
  cbn. split; [reflexivity|apply Qleb_true].
Qed.

Lemma failNoDamage_resets (obj : ChallengObjective) :
  o_type obj = NO_DAMAGE ->
  o_current (failNoDamage obj) = 0 /\ o_completed (failNoDamage obj) = false.
Proof. intros Ht. unfold failNoDamage. rewrite Ht. cbn. split; reflexivity. Qed.

(** C4. The NO_DAMAGE objective of level 2 starts with
    [current = target = 1] and [completed = false]; the tracker hands it back
    unchanged on every tick, so its flag stays false although
    [current >= target]. *)
Theorem no_damage_objective_left_incomplete :
  let obj := mkObjective NO_DAMAGE 1 1 false in
  In obj (initializeLevelObjectives 2) /\
  o_target obj <= o_current obj /\
  (forall timeElapsed depth, trackObjective timeElapsed depth obj = obj) /\
  o_completed obj = false.
Proof.
  cbv zeta. split; [|split; [|split]].
  - cbn. right. right. left. reflexivity.
  - cbn. apply Qle_refl.
  - intros t d. reflexivity.
  - reflexivity.
Qed.

(* ------------------------------------------------------------------ *)
(** ** Levels with a NO_DAMAGE objective *)

Lemma trackObjective_staysOpen (t : Q) (depth : Z) (obj : ChallengObjective) :
  staysOpen obj (trackObjective t depth obj).
Proof.
  unfold staysOpen, openNoDamage, trackObjective.
  destruct obj as [ty tg cu co]; destruct ty, co; cbn; congruence.
Qed.

Lemma bumpObjective_staysOpen (ty : ObjectiveType) (obj : ChallengObjective) :
  ty <> NO_DAMAGE -> staysOpen obj (bumpObjective ty obj).
Proof.
  intros Hty. unfold staysOpen, openNoDamage, bumpObjective.
  destruct obj as [oty tg cu co]; destruct oty, co, ty; cbn; congruence.
Qed.

Lemma failNoDamage_staysOpen (obj : ChallengObjective) :
  staysOpen obj (failNoDamage obj).
Proof.
  unfold staysOpen, openNoDamage, failNoDamage.
  destruct obj as [ty tg cu co]; destruct ty, co; cbn; congruence.
Qed.

Lemma staysOpen_refl (l : list ChallengObjective) : Forall2 staysOpen l l.
Proof. induction l; constructor; [intro H; exact H|assumption]. Qed.

Lemma staysOpen_trans (a b c : list ChallengObjective) :
  Forall2 staysOpen a b -> Forall2 staysOpen b c -> Forall2 staysOpen a c.
Proof.
  intros Hab. revert c.
  induction Hab as [|x y a b Hxy Hab IH]; intros c Hbc.
  - inversion Hbc. constructor.
  - inversion Hbc as [|y' z b' c' Hyz Hbc']; subst.
    constructor; [intro H; apply Hyz, Hxy, H|apply IH; assumption].
Qed.

Lemma staysOpen_map (f : ChallengObjective -> ChallengObjective)
  (l : list ChallengObjective) :
  (forall obj, staysOpen obj (f obj)) -> Forall2 staysOpen l (map f l).
Proof. intros Hf. induction l; cbn [map]; constructor; auto. Qed.

Lemma staysOpen_exists (a b : list ChallengObjective) :
  Forall2 staysOpen a b ->
  existsb openNoDamage a = true -> existsb openNoDamage b = true.
Proof.
  induction 1 as [|x y a b Hxy _ IH]; cbn [existsb]; [trivial|].
  rewrite !orb_true_iff. intros [H|H]; [left; apply Hxy, H|right; apply IH, H].
Qed.

Lemma open_blocks_all_completed (l : list ChallengObjective) :
  existsb openNoDamage l = true -> forallb o_completed l = false.
Proof.
  induction l as [|obj l IH]; cbn [existsb forallb]; [discriminate|].
  rewrite orb_true_iff. intros [H|H].
  - unfold openNoDamage in H. apply andb_true_iff in H as [_ H].
    apply negb_true_iff in H. rewrite H. reflexivity.
  - rewrite (IH H). apply andb_false_r.
Qed.

Lemma updateObjectives_staysOpen (e : Env) (lp0 : option LevelProgress)
  (f : ChallengObjective -> ChallengObjective)
  (objs : list ChallengObjective) (evs : list Event) :
  (forall obj, staysOpen obj (f obj)) ->
  Forall2 staysOpen objs (fst (updateObjectives e lp0 f objs evs)).
Proof.
  intros Hf. unfold updateObjectives.
  destruct (gameMode e), lp0; cbn [fst];
    solve [apply staysOpen_refl | apply staysOpen_map; exact Hf].
Qed.

Lemma scanObstacles_staysOpen (e : Env) (lp0 : option LevelProgress)
  (dist : Q) (p : Player) (depth : Z) (todo : list Obstacle) :
  forall kept aps objs evs,
  Forall2 staysOpen objs
    (sc_objectives (scanObstacles e lp0 dist p depth todo kept aps objs evs)).
Proof.
  induction todo as [|o todo IH]; intros kept aps objs evs; cbn [scanObstacles].
  - apply staysOpen_refl.
  - destruct (ob_y (moveObstacle e dist o) <? -500).
    + pose proof (updateObjectives_staysOpen e lp0
                    (bumpObjective AVOID_OBSTACLES) objs evs) as H.
      destruct (updateObjectives e lp0 (bumpObjective AVOID_OBSTACLES) objs evs)
        as [objs' evs'].
      cbn [fst] in H. eapply staysOpen_trans; [|apply IH].
      apply H. intro obj. apply bumpObjective_staysOpen. discriminate.
    + destruct (hitsObstacle p (moveObstacle e dist o)); [|apply IH].
      destruct (hasActive SHIELD aps); [apply IH|].
      pose proof (updateObjectives_staysOpen e lp0 failNoDamage objs evs
                    failNoDamage_staysOpen) as H.
      destruct (updateObjectives e lp0 failNoDamage objs evs) as [objs' evs'].
      exact H.
Qed.

Lemma scanCoins_staysOpen (e : Env) (lp0 : option LevelProgress) (dist : Q)
  (p : Player) (todo : list Coin) :
  forall kept objs evs,
  Forall2 staysOpen objs
    (snd (fst (scanCoins e lp0 dist p todo kept objs evs))).
Proof.
  induction todo as [|c todo IH]; intros kept objs evs; cbn [scanCoins].
  - apply staysOpen_refl.
  - destruct (c_y c - dist * 1.5 <? -100); [apply IH|].
    destruct (negb (c_collected c) && _); [|apply IH].
    pose proof (updateObjectives_staysOpen e lp0 (bumpObjective COLLECT_COINS)
                  objs (evs ++ [CoinCollect 1])) as H.
    destruct (updateObjectives e lp0 (bumpObjective COLLECT_COINS) objs
                (evs ++ [CoinCollect 1])) as [objs' evs'].
    cbn [fst] in H. eapply staysOpen_trans; [|apply IH].
    apply H. intro obj. apply bumpObjective_staysOpen. discriminate.
Qed.

Lemma challengeTick_staysOpen (e : Env) (lp : LevelProgress) (depth : Z) :
  Forall2 staysOpen (objectives lp) (fst (challengeTick e (Some lp) depth)).
Proof.
  unfold challengeTick.
  destruct (gameMode e), (selectedChallengeLevel e); cbn [fst];
    solve [apply staysOpen_refl
          | apply staysOpen_map; intro; apply trackObjective_staysOpen].
Qed.

Lemma challengeTick_quiet (e : Env) (lp : LevelProgress) (depth : Z) :
  existsb openNoDamage (objectives lp) = true ->
  quiet (snd (challengeTick e (Some lp) depth)).
Proof.
  intros Ho. pose proof (challengeTick_staysOpen e lp depth) as H.
  apply staysOpen_exists in H; [|exact Ho].
  unfold challengeTick in *.
  destruct (gameMode e), (selectedChallengeLevel e); cbn [fst snd] in *;
    try reflexivity.
  rewrite (open_blocks_all_completed _ H). reflexivity.
Qed.

Lemma lastProgress_Some (evs : list Event) :
  forall lp, exists lp', lastProgress evs (Some lp) = Some lp'.
Proof.
  induction evs as [|ev evs IH]; intros lp; cbn [lastProgress].
  - exists lp. reflexivity.
  - destruct ev; apply IH.
Qed.

Lemma progressAfter_objectives (lp : LevelProgress)
  (objs : list ChallengObjective) (evs : list Event) :
  exists lp', progressAfter (Some lp) objs evs = Some lp'
              /\ objectives lp' = objs.
Proof.
  unfold progressAfter. destruct (lastProgress_Some evs lp) as [l E].
  rewrite E. eexists. split; reflexivity.
Qed.

(** The objectives a tick leaves in the progress object. *)
Lemma update_progress (e : Env) (s : Sim) (lp : LevelProgress) :
  levelProgress s = Some lp ->
  exists lp', levelProgress (fst (update e s)) = Some lp'
              /\ Forall2 staysOpen (objectives lp) (objectives lp').
Proof.
  intros Hlp. unfold update.
  destruct (negb (GameState_beq (gameState s) PLAYING) || isPaused e).
  { exists lp. split; [exact Hlp|apply staysOpen_refl]. }
  rewrite Hlp.
  match goal with |- context [challengeTick e (Some lp) ?d] =>
    pose proof (challengeTick_staysOpen e lp d) as Hc;
    destruct (challengeTick e (Some lp) d) as [objs cevs]
  end.
  cbn [fst] in Hc.
  match goal with |- context [scanObstacles ?e ?l ?d ?p ?k ?t ?kp ?a ?o ?ev] =>
    pose proof (scanObstacles_staysOpen e l d p k t kp a o ev) as Hs;
    destruct (scanObstacles e l d p k t kp a o ev) as [so sa sobj sev sf]
  end.
  cbn [sc_fatal sc_objectives sc_events sc_obstacles sc_active] in *.
  destruct sf.
  - cbn [fst levelProgress].
    destruct (progressAfter_objectives lp sobj sev) as [lp' [E O]].
    exists lp'. rewrite O. split; [exact E|].
    eapply staysOpen_trans; eassumption.
  - destruct (scanPowerUps _ _ _ _ _) as [pus aps].
    match goal with |- context [scanCoins ?e ?l ?d ?p ?t ?k ?o ?ev] =>
      pose proof (scanCoins_staysOpen e l d p t k o ev) as Hk;
      destruct (scanCoins e l d p t k o ev) as [[cs objs'] evs']
    end.
    cbn [fst snd levelProgress] in *.
    destruct (progressAfter_objectives lp objs' evs') as [lp' [E O]].
    exists lp'. rewrite O. split; [exact E|].
    eapply staysOpen_trans; [eassumption|].
    eapply staysOpen_trans; eassumption.
Qed.

Lemma update_quiet (e : Env) (s : Sim) (lp : LevelProgress) :
  levelProgress s = Some lp ->
  existsb openNoDamage (objectives lp) = true ->
  quiet (snd (update e s)).
Proof.
  intros Hlp Ho.
  destruct (GameState_eq_dec (gameState s) PLAYING) as [Hp|Hp];
    [destruct (isPaused e) eqn:Hr|].
  - rewrite update_idle by (right; exact Hr). reflexivity.
  - destruct (update_events e s Hp Hr) as [extra [E Q]]. rewrite E, Hlp.
    change (quiet ([ScoreUpdate (score (fst (update e s)) / 10)]
                   ++ snd (challengeTick e (Some lp)
                             (score (fst (update e s)) / 10)) ++ extra)).
    apply quiet_app; [reflexivity|].
    apply quiet_app; [apply challengeTick_quiet; exact Ho|exact Q].
  - rewrite update_idle by (left; exact Hp). reflexivity.
Qed.

Lemma frame_progress (s : Sim) (ie : Input * Env) (lp : LevelProgress) :
  levelProgress s = Some lp ->
  existsb openNoDamage (objectives lp) = true ->
  quiet (snd (frame s ie)) /\
  exists lp', levelProgress (fst (frame s ie)) = Some lp'
              /\ Forall2 staysOpen (objectives lp) (objectives lp').
Proof.
  intros Hlp Ho. unfold frame.
  assert (Hi : levelProgress (applyInput (fst ie) s) = Some lp) by exact Hlp.
  pose proof (update_quiet (snd ie) _ lp Hi Ho) as Q.
  destruct (update_progress (snd ie) _ lp Hi) as [lp' [E F]].
  destruct (update (snd ie) (applyInput (fst ie) s)) as [s' evs].
  cbn [fst snd] in *. split; [exact Q|].
  exists lp'. split; [exact E|exact F].
Qed.

(** C6. In a run whose progress object holds a NO_DAMAGE objective with
    [completed = false], every such objective keeps [completed = false]
    through all the ticks of the run, and no level-complete event is ever
    emitted, whatever the inputs. *)
Theorem no_damage_level_never_completes (frames : list (Input * Env)) :
  forall (s : Sim) (lp : LevelProgress),
  levelProgress s = Some lp ->
  existsb openNoDamage (objectives lp) = true ->
  quiet (snd (run s frames)) /\
  exists lp', levelProgress (fst (run s frames)) = Some lp'
              /\ Forall2 staysOpen (objectives lp) (objectives lp').
Proof.
  induction frames as [|ie frames IH]; intros s lp Hlp Ho; cbn [run].
  - split; [reflexivity|]. exists lp. split; [exact Hlp|apply staysOpen_refl].
  - destruct (frame_progress s ie lp Hlp Ho) as [Q [lp1 [E1 F1]]].
    destruct (frame s ie) as [s1 evs1]. cbn [fst snd] in *.
    pose proof (staysOpen_exists _ _ F1 Ho) as Ho1.
    destruct (IH s1 lp1 E1 Ho1) as [Q2 [lp2 [E2 F2]]].
    destruct (run s1 frames) as [s2 evs2]. cbn [fst snd] in *.
    split; [apply quiet_app; assumption|].
    exists lp2. split; [exact E2|eapply staysOpen_trans; eassumption].
Qed.

Lemma no_damage_level_never_completes_witness :
  let e := sceneEnv CHALLENGE (Some 2%Z) 95000 in
  let frames := [(noInput, e); (mkInput (Some true) None, e); (noInput, e)] in
  levelProgress levelTwoSim
  = Some (mkProgress (initializeLevelObjectives 2) 0 0) /\
  existsb openNoDamage (initializeLevelObjectives 2) = true /\
  quiet (snd (run levelTwoSim frames)).
Proof.
  cbv zeta. split; [reflexivity|split; [reflexivity|]].
  apply (no_damage_level_never_completes
           [(noInput, sceneEnv CHALLENGE (Some 2%Z) 95000);
            (mkInput (Some true) None, sceneEnv CHALLENGE (Some 2%Z) 95000);
            (noInput, sceneEnv CHALLENGE (Some 2%Z) 95000)]
           levelTwoSim (mkProgress (initializeLevelObjectives 2) 0 0));
    reflexivity.
Defined.

(* ================================================================== *)
(** * Further properties of the tick *)

(* ------------------------------------------------------------------ *)
(** ** Pacing scalars *)

(** X1. The difficulty never goes down when the raw score goes up. *)
Theorem difficulty_monotone (s1 s2 : Z) :
  (s1 <= s2)%Z -> difficulty s1 <= difficulty s2.
Proof.
  intros H. rewrite Zle_Qle in H. unfold difficulty.
  apply Q.min_le_compat_r.
  apply Qmult_le_compat_r; [|discriminate].
  apply Q.max_le_compat_l. lra.
Qed.

Lemma difficulty_monotone_witness :
  (1000 <= 3000)%Z /\ difficulty 1000 <= difficulty 3000.
Proof.
  split; [lia|]. apply (difficulty_monotone 1000 3000). lia.
Defined.

Lemma stormModeMultiplier_range (g : GameMode) :
  1 <= stormModeMultiplier g <= 2.
Proof. unfold stormModeMultiplier. destruct (isStormMode g); lra. Qed.

Lemma Qfloor_between (a : Q) (lo hi : Z) :
  inject_Z lo <= a -> a <= inject_Z hi -> (lo <= Qfloor a <= hi)%Z.
Proof.
  intros Hlo Hhi. split.
  - rewrite <- (Qfloor_Z lo). apply Qfloor_resp_le. exact Hlo.
  - rewrite <- (Qfloor_Z hi). apply Qfloor_resp_le. exact Hhi.
Qed.

(** X2. Whatever the score, the difficulty mode and the game mode, obstacles
    are spawned every 20 to 60 frames and wind zones every 80 to 240 frames:
    the periods used as moduli are never zero or negative. *)
Theorem spawn_periods_bounded (e : Env) (s : Z) :
  (20 <= obstacleSpawnRate e (difficulty s) <= 60)%Z /\
  (80 <= windZoneSpawnRate e (difficulty s) <= 240)%Z.
Proof.
  pose proof (difficulty_range s) as [Hd0 Hd1].
  pose proof (stormModeMultiplier_range (gameMode e)) as [Hs0 Hs1].
  pose proof (modeMultiplier_pos (difficultyMode e)) as Hm.
  set (d := difficulty s) in *.
  set (k := stormModeMultiplier (gameMode e)) in *.
  set (m := modeMultiplier (difficultyMode e)) in *.
  assert (Hp : 0 <= d * m * k)
    by (repeat apply Qmult_le_0_compat; lra).
  unfold obstacleSpawnRate, windZoneSpawnRate. fold d k m.
  split; apply Qfloor_between.
  - apply Q.le_max_l.
  - apply Q.max_lub; [discriminate|].
    change (inject_Z 60) with 60.
    setoid_replace (d * 35 * m * k) with (35 * (d * m * k)) by ring. lra.
  - apply Q.le_max_l.
  - apply Q.max_lub; [discriminate|].
    change (inject_Z 240) with 240.
    setoid_replace (d * 160 * m * k) with (160 * (d * m * k)) by ring. lra.
Qed.

(** X3. Ranges of the three multipliers the difficulty drives: gravity is
    scaled by 1 to 2.2, the world speed by 0.5 to 2.5 (the lower half only
    under SLOW_MOTION) and the score by 1 to 7.5. *)
Theorem pacing_multipliers_bounded (e : Env) (s : Z) (slow : bool) :
  1 <= gravityMultiplier e (difficulty s) <= 2.2 /\
  0.5 <= worldSpeedMultiplier e (difficulty s) slow <= 2.5 /\
  (slow = false -> 1 <= worldSpeedMultiplier e (difficulty s) slow) /\
  1 <= scoreMultiplier e (difficulty s) <= 7.5.
Proof.
  pose proof (difficulty_range s) as [Hd0 Hd1].
  set (d := difficulty s) in *.
  unfold gravityMultiplier, worldSpeedMultiplier, scoreMultiplier,
    WORLD_SPEED_MULTIPLIER_MAX.
  destruct (difficultyMode e), slow, (isStormMode (gameMode e));
    cbn [modeMultiplier]; repeat split; intros; try discriminate; lra.
Qed.

Lemma pacing_multipliers_bounded_witness :
  let e := sceneEnv STORM None 0 in
  false = false /\ 1 <= worldSpeedMultiplier e (difficulty 5200) false.
Proof.
  cbv zeta. split; [reflexivity|].
  apply (proj1 (proj2 (proj2 (pacing_multipliers_bounded
                                (sceneEnv STORM None 0) 5200 false)))).
  reflexivity.
Defined.

(* ------------------------------------------------------------------ *)
(** ** Velocity limits *)

Lemma update_gust (e : Env) (s : Sim) :
  gameState s = PLAYING -> isPaused e = false ->
  windGust (fst (update e s))
  = stepGust e (difficulty (score s)) (score s) (windGust s).
Proof.
  intros Hp Hr. unfold update. rewrite Hp, Hr. cbn [GameState_beq negb orb].
  destruct (challengeTick _ _ _) as [objs cevs].
  match goal with |- context [sc_fatal ?sc] => destruct (sc_fatal sc) end.
  - reflexivity.
  - destruct (scanPowerUps _ _ _ _ _) as [pus aps].
    destruct (scanCoins _ _ _ _ _ _ _ _) as [[cs objs'] evs']. reflexivity.
Qed.

Lemma gravityMultiplier_pos (e : Env) (d : Q) :
  0 <= d -> 1 <= gravityMultiplier e d.
Proof.
  intros Hd. unfold gravityMultiplier.
  destruct (difficultyMode e); cbn [modeMultiplier]; lra.
Qed.

(** Terminal velocity of the tick, as [update] computes it. *)
Lemma clampFall_bounds (term : Q) (gustActive superGlide : bool) (vy : Q) :
  0 < term ->
  let vy' := clampFall term gustActive superGlide vy in
  vy' <= term * 2 /\
  (superGlide = false -> -8 <= vy') /\
  (vy' <= term \/ gustActive = true \/ vy' = term * 2).
Proof.
  intros Ht. unfold clampFall.
  destruct superGlide, gustActive;
    match goal with |- context [?t * 2 <? ?v] => case_lt (t * 2) v end;
    try match goal with |- context [?t <? ?v] => case_lt t v end;
    cbn [andb negb];
    repeat match goal with
           | |- context [?a <? ?b] => case_lt a b; cbn [andb negb]
           end;
    cbn [andb negb] in *;
    (split; [lra|split; [intros; try discriminate; lra|]]);
    solve [left; lra | right; left; reflexivity | right; right; reflexivity].
Qed.

(** X4. After every tick the fall speed is at most twice the terminal
    velocity of the tick (3 with the umbrella open, 15 closed, times the
    gravity multiplier); without SUPER_GLIDE the player never rises faster
    than 8; and the fall speed exceeds the terminal velocity only while a
    gust is active or when it sits exactly on the doubled cap. *)
Theorem fall_speed_limits (e : Env) (s : Sim) :
  gameState s = PLAYING -> isPaused e = false ->
  let s' := fst (update e s) in
  let currentTerminal :=
    (if isUmbrellaOpen (player s) then BASE_GLIDE_TERMINAL_VELOCITY
     else BASE_TERMINAL_VELOCITY) * gravityMultiplier e (difficulty (score s)) in
  p_vy (player s') <= currentTerminal * 2 /\
  (hasActive SUPER_GLIDE (activePowerUps s) = false -> -8 <= p_vy (player s')) /\
  (p_vy (player s') <= currentTerminal \/ g_active (windGust s') = true
   \/ p_vy (player s') = currentTerminal * 2).
Proof.
  intros Hp Hr s' term. subst s'.
  rewrite update_player, update_gust by assumption.
  unfold movePlayer. cbn [p_vy]. fold term.
  apply clampFall_bounds.
  pose proof (difficulty_range (score s)) as [Hd _].
  pose proof (gravityMultiplier_pos e _ Hd) as Hg.
  subst term. unfold BASE_GLIDE_TERMINAL_VELOCITY, BASE_TERMINAL_VELOCITY.
  destruct (isUmbrellaOpen (player s)); lra.
Qed.

Lemma fall_speed_limits_witness :
  let e := sceneEnv ENDLESS None 0 in
  let s := glidingSim [] in
  gameState s = PLAYING /\ isPaused e = false /\
  hasActive SUPER_GLIDE (activePowerUps s) = false /\
  -8 <= p_vy (player (fst (update e s))).
Proof.
  cbv zeta. repeat (split; [reflexivity|]).
  apply (fall_speed_limits (sceneEnv ENDLESS None 0) (glidingSim [])
           eq_refl eq_refl).
  reflexivity.
Defined.

Lemma lateralSpeed_bounded (p : Player) : -20 <= lateralSpeed p <= 20.
Proof.
  unfold lateralSpeed.
  set (m := (targetX p - p_x p) * (if isUmbrellaOpen p then 0.05 else 0.12)).
  case_lt 20 m.
  - case_lt 20 (-20); lra.
  - case_lt m (-20); lra.
Qed.

(** X5. While a WIND_BREAKER is active the horizontal velocity left by a
    tick is the capped steering speed or zero: it stays within -20 and 20. *)
Theorem wind_breaker_caps_lateral_speed (e : Env) (s : Sim) :
  gameState s = PLAYING -> isPaused e = false ->
  hasActive WIND_BREAKER (activePowerUps s) = true ->
  -20 <= p_vx (player (fst (update e s))) <= 20.
Proof.
  intros Hp Hr Hwb. rewrite update_player by assumption.
  unfold movePlayer. cbn [p_vx]. rewrite Hwb, gustForce_wind_breaker.
  rewrite applyWindZones_wind_breaker. cbn [fst snd].
  pose proof (lateralSpeed_bounded (player s)) as [L U].
  match goal with |- context [clampHorizontal ?w ?xv] =>
    destruct (clampHorizontal_stop w xv) as [E|E]; rewrite E
  end; cbn [snd]; lra.
Qed.

Lemma wind_breaker_caps_lateral_speed_witness :
  let e := sceneEnv ENDLESS None 0 in
  let s := mkSim PLAYING None 1200 (mkPlayer 200 300 0 2 false 390)
                 (mkGust true 8 (-1) 40) [] [mkWindZone 100 100 300 400 4 0]
                 [] [mkActive WIND_BREAKER 120 300] [] 1 in
  gameState s = PLAYING /\ isPaused e = false /\
  hasActive WIND_BREAKER (activePowerUps s) = true /\
  -20 <= p_vx (player (fst (update e s))) <= 20.
Proof.
  cbv zeta. repeat (split; [reflexivity|]).
  apply (wind_breaker_caps_lateral_speed (sceneEnv ENDLESS None 0)
           (mkSim PLAYING None 1200 (mkPlayer 200 300 0 2 false 390)
                  (mkGust true 8 (-1) 40) [] [mkWindZone 100 100 300 400 4 0]
                  [] [mkActive WIND_BREAKER 120 300] [] 1));
    reflexivity.
Defined.

Lemma zones_missed (p : Player) (zones : list WindZone) (v : Q * Q) :
  (forall z, In z zones -> inZone p z = false) ->
  fold_left (zonePush p) zones v = v.
Proof.
  revert v. induction zones as [|z zones IH]; intros v H; [reflexivity|].
  cbn [fold_left]. unfold zonePush at 2.
  rewrite (H z (or_introl eq_refl)). apply IH.
  intros z' Hz'. apply H. right. exact Hz'.
Qed.

Lemma clampVertical_inside (height y vy : Q) :
  100 <= y <= height - 100 -> clampVertical height (y, vy) = (y, vy).
Proof.
  intros [L U]. unfold clampVertical. cbn [fst snd].
  case_lt y 100; [lra|]. cbn [fst]. case_lt (height - 100) y; [lra|].
  reflexivity.
Qed.

(** X6. Opening the umbrella in a dive does not bring the fall speed down
    to the glide terminal velocity.  With the umbrella open, no gust, no
    wind zone on the player, no SUPER_GLIDE, gentle steering and the player
    inside the vertical band, a tick that starts at twice the glide terminal
    velocity or faster ends at exactly twice that velocity: the first branch
    of the clamp fires and the branch for the plain terminal velocity is
    skipped. *)
Theorem open_umbrella_holds_double_terminal (e : Env) (s : Sim) :
  gameState s = PLAYING -> isPaused e = false ->
  isUmbrellaOpen (player s) = true ->
  hasActive SUPER_GLIDE (activePowerUps s) = false ->
  g_active (windGust (fst (update e s))) = false ->
  (forall z, In z (windZones s) -> inZone (player s) z = false) ->
  -100 <= targetX (player s) - p_x (player s) <= 100 ->
  100 <= p_y (player s) <= canvasHeight e - 100 ->
  let currentTerminal :=
    BASE_GLIDE_TERMINAL_VELOCITY * gravityMultiplier e (difficulty (score s)) in
  currentTerminal * 2 <= p_vy (player s) ->
  p_vy (player (fst (update e s))) = currentTerminal * 2.
Proof.
  intros Hp Hr Ho Hsg Hg Hz Hx Hy term Hv.
  rewrite update_gust in Hg by assumption.
  rewrite update_player by assumption.
  unfold movePlayer. cbn [p_vy]. rewrite Ho, Hsg. fold term.
  unfold gustForce. rewrite Hg. cbn [andb fst snd].
  pose proof (difficulty_range (score s)) as [Hd _].
  pose proof (gravityMultiplier_pos e _ Hd) as Hgm.
  set (gm := gravityMultiplier e (difficulty (score s))) in *.
  assert (Hls : -5 <= lateralSpeed (player s) + 0 <= 5).
  { unfold lateralSpeed. rewrite Ho.
    set (m := (targetX (player s) - p_x (player s)) * 0.05).
    assert (-5 <= m <= 5) by (subst m; lra).
    case_lt 20 m; [lra|]. case_lt m (-20); lra. }
  set (vx := lateralSpeed (player s) + 0) in *.
  assert (Ha : 0 <= Qabs vx <= 5).
  { split; [apply Qabs_nonneg|]. apply Qabs_Qle_condition. lra. }
  case_lt 5 (Qabs vx); [lra|].
  assert (Hw : forall v,
             applyWindZones (player s)
               (hasActive WIND_BREAKER (activePowerUps s)) (windZones s) v = v).
  { intro v. unfold applyWindZones.
    destruct (negb _); [apply zones_missed; exact Hz|reflexivity]. }
  rewrite !Hw. cbn [fst snd]. rewrite clampVertical_inside by exact Hy.
  cbn [snd]. unfold clampFall.
  set (v := p_vy (player s) + 0 + _).
  assert (Hlt : term * 2 < v).
  { subst v term. unfold BASE_GLIDE_GRAVITY, BASE_GLIDE_TERMINAL_VELOCITY in *.
    lra. }
  apply Qltb_true in Hlt. rewrite Hlt.
  case_lt (term * 2) (-8); [|reflexivity].
  subst term. unfold BASE_GLIDE_TERMINAL_VELOCITY in *. lra.
Qed.

Lemma open_umbrella_holds_double_terminal_witness :
  let e := sceneEnv ENDLESS None 0 in
  let s := mkSim PLAYING None 200 (centredPlayer 15 true) stillGust
                 [] [] [] [] [] 1 in
  isUmbrellaOpen (player s) = true /\
  BASE_GLIDE_TERMINAL_VELOCITY * gravityMultiplier e (difficulty (score s)) * 2
  <= p_vy (player s) /\
  p_vy (player (fst (update e s)))
  = BASE_GLIDE_TERMINAL_VELOCITY * gravityMultiplier e (difficulty (score s))
    * 2.
Proof.
  cbv zeta. split; [reflexivity|split; [vm_compute; discriminate|]].
  apply (open_umbrella_holds_double_terminal (sceneEnv ENDLESS None 0)
           (mkSim PLAYING None 200 (centredPlayer 15 true) stillGust
                  [] [] [] [] [] 1)); try reflexivity.
  - intros z [].
  - split; vm_compute; discriminate.
  - split; vm_compute; discriminate.
  - vm_compute; discriminate.
Defined.

(* ------------------------------------------------------------------ *)
(** ** Gusts *)

(** X7. A gust that starts on a tick (draws in [0, 1]) starts only above
    raw score 300, pushes upwards with a vertical force between -3.5 and
    -0.5, sideways with a force of magnitude 5 to 26, and lasts 60 to 120
    ticks. *)
Theorem new_gust_shape (e : Env) (s : Sim) :
  gameState s = PLAYING -> isPaused e = false ->
  0 <= r_gustVx (rand e) <= 1 -> 0 <= r_gustVy (rand e) <= 1 ->
  0 <= r_gustTime (rand e) <= 1 ->
  g_active (windGust s) = false ->
  let g := windGust (fst (update e s)) in
  g_active g = true ->
  (300 < score s)%Z /\
  -3.5 <= g_vy g <= -0.5 /\
  5 <= Qabs (g_vx g) <= 26 /\
  60 <= g_timeLeft g <= 120.
Proof.
  intros Hp Hr [Hx0 Hx1] [Hy0 Hy1] [Ht0 Ht1] Hoff g. subst g.
  rewrite update_gust by assumption. unfold stepGust. rewrite Hoff.
  pose proof (difficulty_range (score s)) as [Hd0 Hd1].
  set (d := difficulty (score s)) in *.
  destruct (300 <? score s)%Z eqn:Hs; cbn [andb];
    [|rewrite Hoff; discriminate].
  destruct (r_gust (rand e) <? gustProbability e d);
    [|rewrite Hoff; discriminate].
  intros _. cbn [g_vy g_vx g_timeLeft].
  apply Z.ltb_lt in Hs. split; [exact Hs|].
  set (a := r_gustVx (rand e)) in *. set (b := r_gustVy (rand e)) in *.
  set (c := r_gustTime (rand e)) in *.
  assert (Hbd : 0 <= b * d <= 1).
  { split; [apply Qmult_le_0_compat; lra|].
    apply Qle_trans with (1 * d); [apply Qmult_le_compat_r; lra|lra]. }
  assert (Had : 0 <= a * d <= 1).
  { split; [apply Qmult_le_0_compat; lra|].
    apply Qle_trans with (1 * d); [apply Qmult_le_compat_r; lra|lra]. }
  split; [|split; [|lra]].
  - setoid_replace (-0.5 - b * 1.5 * (1 + d))
      with (-0.5 - 1.5 * b - 1.5 * (b * d)) by ring. lra.
  - assert (Hm : 5 <= (5 + a * 8) * (1 + d) <= 26).
    { setoid_replace ((5 + a * 8) * (1 + d))
        with (5 + 8 * a + 5 * d + 8 * (a * d)) by ring. lra. }
    destruct (0.5 <? r_gustDir (rand e)).
    + setoid_replace (1 * (5 + a * 8) * (1 + d))
        with ((5 + a * 8) * (1 + d)) by ring.
      rewrite Qabs_pos by lra. exact Hm.
    + setoid_replace (-1 * (5 + a * 8) * (1 + d))
        with (- ((5 + a * 8) * (1 + d))) by ring.
      rewrite Qabs_opp, Qabs_pos by lra. exact Hm.
Qed.

Lemma new_gust_shape_witness :
  let e := mkEnv false MEDIUM ENDLESS None 400 900 0
             (mkRand 0 0.5 0.5 0.5 0.5 0.5 0.5 0.5 0.5 0.5 0.5 0.5 0.5 0.5 0.5
                     0.5 0.5 0.5 0.5) in
  let s := mkSim PLAYING None 1200 (centredPlayer 2 true) stillGust
                 [] [] [] [] [] 1 in
  g_active (windGust s) = false /\
  g_active (windGust (fst (update e s))) = true /\
  (300 < score s)%Z /\
  g_vy (windGust (fst (update e s))) <= -0.5.
Proof.
  cbv zeta. split; [reflexivity|split; [reflexivity|]].
  pose proof (new_gust_shape
    (mkEnv false MEDIUM ENDLESS None 400 900 0
       (mkRand 0 0.5 0.5 0.5 0.5 0.5 0.5 0.5 0.5 0.5 0.5 0.5 0.5 0.5 0.5
               0.5 0.5 0.5 0.5))
    (mkSim PLAYING None 1200 (centredPlayer 2 true) stillGust
           [] [] [] [] [] 1) eq_refl eq_refl) as H.
  cbv zeta in H.
  destruct H as [Hs [[_ Hv] _]]; try reflexivity;
    try (split; vm_compute; discriminate).
  split; assumption.
Defined.

(* ------------------------------------------------------------------ *)
(** ** Power-up timers *)

Lemma tickTimers_closed_form (k : nat) (aps : list ActivePowerUp) :
  tickTimers
    (map (fun a => mkActive (ap_type a) (ap_timeLeft a - Z.of_nat k)
                            (ap_duration a))
         (filter (fun a => (Z.of_nat k <? ap_timeLeft a)%Z) aps))
  = map (fun a => mkActive (ap_type a) (ap_timeLeft a - Z.of_nat (S k))
                           (ap_duration a))
        (filter (fun a => (Z.of_nat (S k) <? ap_timeLeft a)%Z) aps).
Proof.
  induction aps as [|a aps IH]; [reflexivity|].
  cbn [filter].
  destruct (Z.of_nat k <? ap_timeLeft a)%Z eqn:E1;
  destruct (Z.of_nat (S k) <? ap_timeLeft a)%Z eqn:E2;
    cbn [map tickTimers ap_timeLeft ap_type ap_duration];
    rewrite ?Z.ltb_lt, ?Z.ltb_ge in *.
  - destruct (ap_timeLeft a - Z.of_nat k - 1 <=? 0)%Z eqn:E3;
      rewrite ?Z.leb_le, ?Z.leb_gt in *; [lia|].
    rewrite IH. f_equal. f_equal. lia.
  - destruct (ap_timeLeft a - Z.of_nat k - 1 <=? 0)%Z eqn:E3;
      rewrite ?Z.leb_le, ?Z.leb_gt in *; [exact IH|lia].
  - lia.
  - exact IH.
Qed.

Lemma tickTimers_once (aps : list ActivePowerUp) :
  tickTimers aps
  = map (fun a => mkActive (ap_type a) (ap_timeLeft a - 1) (ap_duration a))
        (filter (fun a => (1 <? ap_timeLeft a)%Z) aps).
Proof.
  induction aps as [|a aps IH]; [reflexivity|].
  cbn [filter tickTimers].
  destruct (ap_timeLeft a - 1 <=? 0)%Z eqn:E1;
  destruct (1 <? ap_timeLeft a)%Z eqn:E2;
    rewrite ?Z.ltb_lt, ?Z.ltb_ge, ?Z.leb_le, ?Z.leb_gt in *; try lia.
  - exact IH.
  - cbn [map]. rewrite IH. reflexivity.
Qed.

(* ------------------------------------------------------------------ *)
(** ** Shields and hits in the obstacle loop *)

Lemma hasActive_count (t : PowerUpType) (aps : list ActivePowerUp) :
  hasActive t aps = true <-> (0 < countActive t aps)%nat.
Proof.
  unfold hasActive, countActive.
  induction aps as [|a aps IH]; cbn [existsb filter length].
  - split; [discriminate|lia].
  - destruct (PowerUpType_beq (ap_type a) t); cbn [orb length];
      [split; [lia|reflexivity]|exact IH].
Qed.

Lemma removeFirst_count (t : PowerUpType) (aps : list ActivePowerUp) :
  countActive t (removeFirst t aps) = pred (countActive t aps).
Proof.
  unfold countActive.
  induction aps as [|a aps IH]; cbn [removeFirst filter length]; [reflexivity|].
  destruct (PowerUpType_beq (ap_type a) t) eqn:E; cbn [length pred];
    [reflexivity|].
  cbn [filter]. rewrite E. exact IH.
Qed.

Lemma removeFirst_others (t : PowerUpType) (aps : list ActivePowerUp) :
  filter (fun a => negb (PowerUpType_beq (ap_type a) t)) (removeFirst t aps)
  = filter (fun a => negb (PowerUpType_beq (ap_type a) t)) aps.
Proof.
  induction aps as [|a aps IH]; cbn [removeFirst filter]; [reflexivity|].
  destruct (PowerUpType_beq (ap_type a) t) eqn:E; cbn [negb]; [reflexivity|].
  cbn [filter]. rewrite E. cbn [negb]. rewrite IH. reflexivity.
Qed.

(** X9. In the obstacle loop every shield absorbs exactly one hit.  With
    [hits] the number of obstacles that stay on screen and overlap the
    player, the loop ends the run exactly when [hits] exceeds the number of
    SHIELD entries; otherwise it leaves that number lowered by [hits].  The
    entries of the other power-up types are never touched. *)
Theorem shields_absorb_one_hit_each (e : Env) (lp0 : option LevelProgress)
  (dist : Q) (p : Player) (depth : Z) (todo : list Obstacle) :
  forall kept aps objs evs,
  let r := scanObstacles e lp0 dist p depth todo kept aps objs evs in
  let hits := length (filter (strikes e dist p) todo) in
  (sc_fatal r = true <-> (countActive SHIELD aps < hits)%nat) /\
  (sc_fatal r = false ->
   countActive SHIELD (sc_active r) = (countActive SHIELD aps - hits)%nat) /\
  filter (fun a => negb (PowerUpType_beq (ap_type a) SHIELD)) (sc_active r)
  = filter (fun a => negb (PowerUpType_beq (ap_type a) SHIELD)) aps.
Proof.
  induction todo as [|o todo IH]; intros kept aps objs evs; cbn zeta;
    cbn [scanObstacles filter].
  - cbn [sc_fatal sc_active length]. repeat split; try discriminate; lia.
  - destruct (ob_y (moveObstacle e dist o) <? -500) eqn:Ey.
    + assert (St : strikes e dist p o = false)
        by (unfold strikes; cbn zeta; rewrite Ey; reflexivity).
      rewrite St.
      destruct (updateObjectives e lp0 (bumpObjective AVOID_OBSTACLES) objs evs)
        as [objs' evs'].
      apply IH.
    + destruct (hitsObstacle p (moveObstacle e dist o)) eqn:Eh.
      2:{ assert (St : strikes e dist p o = false)
            by (unfold strikes; cbn zeta; rewrite Ey, Eh; reflexivity).
          rewrite St. apply IH. }
      assert (St : strikes e dist p o = true)
        by (unfold strikes; cbn zeta; rewrite Ey, Eh; reflexivity).
      rewrite St.
      cbn [length].
      destruct (hasActive SHIELD aps) eqn:Hs.
      * apply hasActive_count in Hs.
        specialize (IH kept (removeFirst SHIELD aps) objs evs). cbn zeta in IH.
        rewrite removeFirst_count, removeFirst_others in IH.
        destruct IH as [I1 [I2 I3]].
        split; [rewrite I1; lia|].
        split; [intro F; rewrite (I2 F); lia|exact I3].
      * assert (Hc : countActive SHIELD aps = 0%nat).
        { destruct (countActive SHIELD aps) eqn:C; [reflexivity|].
          assert (hasActive SHIELD aps = true)
            by (apply hasActive_count; lia).
          congruence. }
        destruct (updateObjectives e lp0 failNoDamage objs evs)
          as [objs' evs'].
        cbn [sc_fatal sc_active]. rewrite Hc.
        repeat split; try discriminate; lia.
Qed.

(* ------------------------------------------------------------------ *)
(** ** Which events the parts of a tick add *)

Section EventKinds.
Variable P : Event -> bool.
Hypothesis P_progress : forall lp, P (LevelProgressUpdate lp) = false.

Lemma updateObjectives_adds (e : Env) (lp0 : option LevelProgress)
  (f : ChallengObjective -> ChallengObjective)
  (objs : list ChallengObjective) (evs : list Event) :
  exists extra,
    snd (updateObjectives e lp0 f objs evs) = evs ++ extra
    /\ existsb P extra = false.
Proof using P_progress.
  unfold updateObjectives.
  destruct (gameMode e), lp0; cbn [snd];
    try (exists []; rewrite app_nil_r; split; reflexivity).
  eexists; split; [reflexivity|]. cbn [existsb]. rewrite P_progress.
  reflexivity.
Qed.

Lemma challengeTick_adds (e : Env) (lp0 : option LevelProgress) (depth : Z) :
  (forall d n, P (GameOver d (LevelComplete n)) = false) ->
  existsb P (snd (challengeTick e lp0 depth)) = false.
Proof using P_progress.
  intros Hc. unfold challengeTick.
  destruct lp0 as [lp|]; [|reflexivity].
  destruct (gameMode e), (selectedChallengeLevel e); cbn [snd];
    try reflexivity.
  cbn [existsb]. rewrite P_progress.
  destruct (forallb o_completed _); cbn [existsb orb]; [|reflexivity].
  rewrite Hc. reflexivity.
Qed.

Lemma scanObstacles_safe_adds (e : Env) (lp0 : option LevelProgress)
  (dist : Q) (p : Player) (depth : Z) (todo : list Obstacle) :
  forall kept aps objs evs,
  let r := scanObstacles e lp0 dist p depth todo kept aps objs evs in
  sc_fatal r = false ->
  exists extra, sc_events r = evs ++ extra /\ existsb P extra = false.
Proof using P_progress.
  induction todo as [|o todo IH]; intros kept aps objs evs; cbn zeta;
    cbn [scanObstacles].
  - intros _. exists []. rewrite app_nil_r. split; reflexivity.
  - destruct (ob_y (moveObstacle e dist o) <? -500).
    + pose proof (updateObjectives_adds e lp0
                    (bumpObjective AVOID_OBSTACLES) objs evs) as [x [Ex Qx]].
      destruct (updateObjectives e lp0 (bumpObjective AVOID_OBSTACLES) objs evs)
        as [objs' evs'].
      cbn [snd] in Ex. subst evs'. intros F.
      destruct (IH kept aps objs' (evs ++ x) F) as [y [Ey Qy]].
      exists (x ++ y). rewrite Ey, app_assoc. split; [reflexivity|].
      rewrite existsb_app, Qx, Qy. reflexivity.
    + destruct (hitsObstacle p (moveObstacle e dist o)); [|apply IH].
      destruct (hasActive SHIELD aps); [apply IH|].
      destruct (updateObjectives e lp0 failNoDamage objs evs) as [objs' evs'].
      cbn [sc_fatal]. discriminate.
Qed.

Hypothesis P_coin : forall n, P (CoinCollect n) = false.

Lemma scanCoins_adds (e : Env) (lp0 : option LevelProgress) (dist : Q)
  (p : Player) (todo : list Coin) :
  forall kept objs evs,
  exists extra,
    snd (scanCoins e lp0 dist p todo kept objs evs) = evs ++ extra
    /\ existsb P extra = false.
Proof using P_progress P_coin.
  induction todo as [|c todo IH]; intros kept objs evs; cbn [scanCoins].
  - exists []. rewrite app_nil_r. split; reflexivity.
  - destruct (c_y c - dist * 1.5 <? -100); [apply IH|].
    destruct (negb (c_collected c) && _); [|apply IH].
    pose proof (updateObjectives_adds e lp0 (bumpObjective COLLECT_COINS)
                  objs (evs ++ [CoinCollect 1])) as [x [Ex Qx]].
    destruct (updateObjectives e lp0 (bumpObjective COLLECT_COINS) objs
                (evs ++ [CoinCollect 1])) as [objs' evs'].
    cbn [snd] in Ex. subst evs'.
    destruct (IH kept objs' ((evs ++ [CoinCollect 1]) ++ x)) as [y [Ey Qy]].
    exists ([CoinCollect 1] ++ x ++ y).
    rewrite Ey, <- !app_assoc. split; [reflexivity|].
    rewrite !existsb_app, Qx, Qy. cbn [existsb]. rewrite P_coin. reflexivity.
Qed.

(** The two ways a running tick ends, with the obstacle loop [sc] it ran:
    the early return of a crash, or the full tick. *)
Lemma update_cases (e : Env) (s : Sim) :
  gameState s = PLAYING -> isPaused e = false ->
  exists dist depth todo aps objs,
    let sc := scanObstacles e (levelProgress s) dist
                (player (fst (update e s))) depth todo [] aps objs
                (ScoreUpdate depth :: snd (challengeTick e (levelProgress s)
                                             depth)) in
    obstacles (fst (update e s)) = sc_obstacles sc /\
    ((sc_fatal sc = true /\ snd (update e s) = sc_events sc /\
      frameCount (fst (update e s)) = frameCount s)
     \/
     (sc_fatal sc = false /\
      frameCount (fst (update e s)) = (frameCount s + 1)%Z /\
      exists extra, snd (update e s) = sc_events sc ++ extra
                    /\ existsb P extra = false)).
Proof using P_progress P_coin.
  intros Hp Hr. unfold update. rewrite Hp, Hr. cbn [GameState_beq negb orb].
  match goal with |- context [challengeTick ?a ?b ?c] =>
    destruct (challengeTick a b c) as [objs cevs] eqn:Ec
  end.
  match goal with |- context [scanObstacles ?a ?l ?d ?p ?k ?t ?kp ?ap ?o ?ev] =>
    exists d, k, t, ap, o;
    destruct (sc_fatal (scanObstacles a l d p k t kp ap o ev)) eqn:F
  end.
  - cbn [fst snd player obstacles frameCount]. rewrite Ec. cbn [snd].
    split; [reflexivity|]. left. rewrite F. repeat split; reflexivity.
  - destruct (scanPowerUps _ _ _ _ _) as [pus aps'].
    match goal with |- context [scanCoins ?a ?l ?d ?p ?t ?k ?o ?ev] =>
      destruct (scanCoins_adds a l d p t k o ev) as [y [Ey Qy]];
      destruct (scanCoins a l d p t k o ev) as [[cs objs'] evs']
    end.
    cbn [fst snd player obstacles frameCount] in *. rewrite Ec. cbn [snd].
    split; [reflexivity|]. right. rewrite F.
    split; [reflexivity|split; [reflexivity|]].
    exists y. split; [exact Ey|exact Qy].
Qed.
End EventKinds.

Lemma scanObstacles_fatal_adds (P : Event -> bool)
  (e : Env) (lp0 : option LevelProgress)
  (dist : Q) (p : Player) (depth : Z) (todo : list Obstacle) :
  (forall lp, P (LevelProgressUpdate lp) = false) ->
  forall kept aps objs evs,
  let r := scanObstacles e lp0 dist p depth todo kept aps objs evs in
  sc_fatal r = true ->
  exists pre t,
    sc_events r = evs ++ pre ++ [GameOver depth (HitObstacle t)]
    /\ existsb P pre = false.
Proof.
  intros HP.
  induction todo as [|o todo IH]; intros kept aps objs evs; cbn zeta;
    cbn [scanObstacles].
  - cbn [sc_fatal]. discriminate.
  - destruct (ob_y (moveObstacle e dist o) <? -500).
    + pose proof (updateObjectives_adds P HP e lp0
                    (bumpObjective AVOID_OBSTACLES) objs evs) as [x [Ex Qx]].
      destruct (updateObjectives e lp0 (bumpObjective AVOID_OBSTACLES) objs evs)
        as [objs' evs'].
      cbn [snd] in Ex. subst evs'. intros F.
      destruct (IH kept aps objs' (evs ++ x) F) as [pre [t [Ey Qy]]].
      exists (x ++ pre), t. rewrite Ey, <- !app_assoc.
      split; [reflexivity|]. rewrite existsb_app, Qx, Qy. reflexivity.
    + destruct (hitsObstacle p (moveObstacle e dist o)); [|apply IH].
      destruct (hasActive SHIELD aps); [apply IH|].
      pose proof (updateObjectives_adds P HP e lp0 failNoDamage objs evs)
        as [x [Ex Qx]].
      destruct (updateObjectives e lp0 failNoDamage objs evs) as [objs' evs'].
      cbn [snd] in Ex. subst evs'. cbn [sc_events]. intros _.
      exists x, (ob_type (moveObstacle e dist o)).
      rewrite <- app_assoc. split; [reflexivity|exact Qx].
Qed.

Lemma scanObstacles_survivors (e : Env) (lp0 : option LevelProgress)
  (dist : Q) (p : Player) (depth : Z) (todo : list Obstacle) :
  forall kept aps objs evs,
  let r := scanObstacles e lp0 dist p depth todo kept aps objs evs in
  sc_fatal r = false ->
  Forall (fun o => hitsObstacle p o = false /\ -500 <= ob_y o) kept ->
  Forall (fun o => hitsObstacle p o = false /\ -500 <= ob_y o)
         (sc_obstacles r).
Proof.
  induction todo as [|o todo IH]; intros kept aps objs evs; cbn zeta;
    cbn [scanObstacles].
  - intros _ H. exact H.
  - case_lt (ob_y (moveObstacle e dist o)) (-500).
    + destruct (updateObjectives e lp0 (bumpObjective AVOID_OBSTACLES) objs evs)
        as [objs' evs'].
      apply IH.
    + destruct (hitsObstacle p (moveObstacle e dist o)) eqn:Eh.
      * destruct (hasActive SHIELD aps); [apply IH|].
        destruct (updateObjectives e lp0 failNoDamage objs evs)
          as [objs' evs'].
        cbn [sc_fatal]. discriminate.
      * intros F H. apply IH; [exact F|].
        constructor; [split; assumption|exact H].
Qed.

(** X10. A crash ends the tick on the spot: when a tick reports a hit, that
    [onGameOver] call is the last event of the tick and the only crash, no
    coin is paid before it, and the frame counter does not advance. *)
Theorem crash_ends_tick (e : Env) (s : Sim) :
  gameState s = PLAYING -> isPaused e = false ->
  existsb isCrash (snd (update e s)) = true ->
  (exists pre d t,
     snd (update e s) = pre ++ [GameOver d (HitObstacle t)]
     /\ existsb isCrash pre = false /\ existsb isCoinCollect pre = false) /\
  frameCount (fst (update e s)) = frameCount s.
Proof.
  intros Hp Hr Hc.
  set (P := fun ev => isCrash ev || isCoinCollect ev).
  assert (P_split : forall l, existsb P l = false ->
            existsb isCrash l = false /\ existsb isCoinCollect l = false).
  { induction l as [|ev l IHl]; cbn [existsb]; [split; reflexivity|].
    unfold P at 1. intros H. apply orb_false_iff in H as [H1 H2].
    apply orb_false_iff in H1 as [H1 H1'].
    destruct (IHl H2) as [A B]. rewrite H1, H1', A, B. split; reflexivity. }
  destruct (update_cases isCrash (fun _ => eq_refl) (fun _ => eq_refl)
              e s Hp Hr) as [dist [depth [todo [aps [objs H]]]]].
  cbn zeta in H. destruct H as [_ [[F [E Fr]]|[F [_ [x [E Qx]]]]]].
  - split; [|exact Fr].
    destruct (scanObstacles_fatal_adds P e (levelProgress s) dist
                (player (fst (update e s))) depth todo (fun _ => eq_refl)
                [] aps objs _ F) as [pre [t [Ee Qp]]].
    exists ((ScoreUpdate depth
             :: snd (challengeTick e (levelProgress s) depth)) ++ pre),
           depth, t.
    rewrite E, Ee, app_assoc. split; [reflexivity|].
    apply P_split. rewrite existsb_app, Qp, orb_false_r.
    cbn [existsb]. apply (challengeTick_adds P (fun _ => eq_refl)).
    reflexivity.
  - exfalso.
    destruct (scanObstacles_safe_adds isCrash (fun _ => eq_refl) e
                (levelProgress s) dist (player (fst (update e s))) depth todo
                [] aps objs _ F) as [y [Ey Qy]].
    rewrite E, Ey, !existsb_app, Qx, Qy in Hc. cbn [existsb isCrash] in Hc.
    rewrite (challengeTick_adds isCrash (fun _ => eq_refl)) in Hc
      by reflexivity.
    discriminate.
Qed.

Lemma crash_ends_tick_witness :
  let e := sceneEnv CHALLENGE (Some 3%Z) 61000 in
  existsb isCrash (snd (update e levelThreeSim)) = true /\
  frameCount (fst (update e levelThreeSim)) = frameCount levelThreeSim.
Proof.
  cbv zeta. split; [reflexivity|].
  apply (crash_ends_tick (sceneEnv CHALLENGE (Some 3%Z) 61000) levelThreeSim);
    reflexivity.
Defined.

(** X11. A tick that reports no hit advances the frame counter by one and
    leaves only obstacles that are on screen ([y >= -500]) and clear of the
    player's hitbox: every obstacle that overlapped the player was removed
    by a shield. *)
Theorem surviving_tick_clears_overlaps (e : Env) (s : Sim) :
  gameState s = PLAYING -> isPaused e = false ->
  existsb isCrash (snd (update e s)) = false ->
  frameCount (fst (update e s)) = (frameCount s + 1)%Z /\
  Forall (fun o => hitsObstacle (player (fst (update e s))) o = false
                   /\ -500 <= ob_y o)
         (obstacles (fst (update e s))).
Proof.
  intros Hp Hr Hc.
  destruct (update_cases isCrash (fun _ => eq_refl) (fun _ => eq_refl)
              e s Hp Hr) as [dist [depth [todo [aps [objs H]]]]].
  cbn zeta in H. destruct H as [Eo [[F [E _]]|[F [Fr _]]]].
  - exfalso.
    destruct (scanObstacles_fatal_adds isCrash e (levelProgress s) dist
                (player (fst (update e s))) depth todo (fun _ => eq_refl)
                [] aps objs _ F) as [pre [t [Ee _]]].
    rewrite E, Ee, !existsb_app in Hc. cbn [existsb isCrash] in Hc.
    rewrite !orb_true_r in Hc. discriminate.
  - split; [exact Fr|]. rewrite Eo.
    apply scanObstacles_survivors; [exact F|constructor].
Qed.

Lemma surviving_tick_clears_overlaps_witness :
  let e := sceneEnv ENDLESS None 0 in
  existsb isCrash (snd (update e shieldPickupSim)) = false /\
  frameCount (fst (update e shieldPickupSim)) = 2%Z.
Proof.
  cbv zeta. split; [reflexivity|].
  apply (surviving_tick_clears_overlaps (sceneEnv ENDLESS None 0)
           shieldPickupSim); reflexivity.
Defined.

(** X12. Every running tick reports the score exactly once, as its first
    event, and the value is the displayed depth [floor (score / 10)] of the
    score the tick leaves. *)
Theorem one_score_update_per_tick (e : Env) (s : Sim) :
  gameState s = PLAYING -> isPaused e = false ->
  exists rest,
    snd (update e s) = ScoreUpdate (score (fst (update e s)) / 10) :: rest
    /\ existsb isScoreUpdate rest = false.
Proof.
  intros Hp Hr.
  destruct (update_events e s Hp Hr) as [extra0 [E0 _]]. cbv zeta in E0.
  destruct (update_cases isScoreUpdate (fun _ => eq_refl) (fun _ => eq_refl)
              e s Hp Hr) as [dist [depth [todo [aps [objs H]]]]].
  cbn zeta in H.
  assert (Hd : depth = (score (fst (update e s)) / 10)%Z).
  { destruct H as [_ [[F [E _]]|[F [_ [x [E _]]]]]].
    - destruct (scanObstacles_events e (levelProgress s) dist
                  (player (fst (update e s))) depth todo [] aps objs
                  (ScoreUpdate depth
                   :: snd (challengeTick e (levelProgress s) depth)))
        as [y [Ey _]].
      rewrite E, Ey in E0. cbn [app] in E0. congruence.
    - destruct (scanObstacles_events e (levelProgress s) dist
                  (player (fst (update e s))) depth todo [] aps objs
                  (ScoreUpdate depth
                   :: snd (challengeTick e (levelProgress s) depth)))
        as [y [Ey _]].
      rewrite E, Ey in E0. cbn [app] in E0. congruence. }
  subst depth.
  set (depth := (score (fst (update e s)) / 10)%Z) in *.
  pose proof (challengeTick_adds isScoreUpdate (fun _ => eq_refl) e
                (levelProgress s) depth (fun _ _ => eq_refl)) as Hq.
  destruct H as [_ [[F [E _]]|[F [_ [x [E Qx]]]]]].
  - destruct (scanObstacles_fatal_adds isScoreUpdate e (levelProgress s) dist
                (player (fst (update e s))) depth todo (fun _ => eq_refl)
                [] aps objs _ F) as [pre [t [Ee Qp]]].
    eexists. rewrite E, Ee. cbn [app]. split; [reflexivity|].
    rewrite !existsb_app, Hq, Qp. reflexivity.
  - destruct (scanObstacles_safe_adds isScoreUpdate (fun _ => eq_refl) e
                (levelProgress s) dist (player (fst (update e s))) depth todo
                [] aps objs _ F) as [y [Ey Qy]].
    eexists. rewrite E, Ey. cbn [app]. split; [reflexivity|].
    rewrite !existsb_app, Hq, Qx, Qy. reflexivity.
Qed.

Lemma one_score_update_per_tick_witness :
  let e := sceneEnv ENDLESS None 0 in
  gameState shieldPickupSim = PLAYING /\ isPaused e = false /\
  exists rest,
    snd (update e shieldPickupSim)
    = ScoreUpdate (score (fst (update e shieldPickupSim)) / 10) :: rest
    /\ existsb isScoreUpdate rest = false.
Proof.
  cbv zeta. split; [reflexivity|split; [reflexivity|]].
  apply (one_score_update_per_tick (sceneEnv ENDLESS None 0) shieldPickupSim);
    reflexivity.
Defined.

(* ------------------------------------------------------------------ *)
(** ** Power-up and coin loops *)

(** X13. The power-up loop never removes or alters an active power-up: it
    only appends, one entry per power-up collected, each with [timeLeft] and
    [duration] set to the duration of its type; a power-up is either kept,
    scrolled off or collected, so entries added plus power-ups kept never
    exceed the power-ups the loop started with. *)
Theorem power_up_loop_appends (dist : Q) (p : Player) (todo : list PowerUp) :
  forall kept aps,
  let r := scanPowerUps dist p todo kept aps in
  exists added,
    snd r = aps ++ added /\
    Forall (fun a => ap_timeLeft a = powerUpDuration (ap_type a)
                     /\ ap_duration a = powerUpDuration (ap_type a)) added /\
    (length (fst r) + length added <= length todo + length kept)%nat.
Proof.
  induction todo as [|u todo IH]; intros kept aps; cbn zeta;
    cbn [scanPowerUps].
  - exists []. rewrite app_nil_r. cbn. repeat split; [constructor|lia].
  - destruct (pu_y u - dist * 1.5 <? -100).
    + destruct (IH kept aps) as [added [E [F L]]].
      exists added. cbn [length]. repeat split; [exact E|exact F|lia].
    + destruct (negb (pu_collected u) && _).
      * destruct (IH kept
                    (aps ++ [mkActive (pu_type u) (powerUpDuration (pu_type u))
                                      (powerUpDuration (pu_type u))]))
          as [added [E [F L]]].
        eexists (_ :: added). rewrite E, <- app_assoc. cbn [app length].
        repeat split; [|lia].
        constructor; [split; reflexivity|exact F].
      * match goal with |- context [scanPowerUps _ _ _ (?x :: kept) _] =>
          destruct (IH (x :: kept) aps) as [added [E [F L]]]
        end.
        exists added. cbn [length] in *. repeat split; [exact E|exact F|lia].
Qed.

(** X14. The coin loop pays each coin at most once and always the amount 1:
    besides progress reports it adds only [CoinCollect 1] events, and coins
    kept plus coins paid never exceed the coins the loop started with. *)
Theorem coin_loop_pays_one_each (e : Env) (lp0 : option LevelProgress)
  (dist : Q) (p : Player) (todo : list Coin) :
  forall kept objs evs,
  let r := scanCoins e lp0 dist p todo kept objs evs in
  exists extra,
    snd r = evs ++ extra /\
    Forall (fun ev => ev = CoinCollect 1 \/ exists lp, ev = LevelProgressUpdate lp)
           extra /\
    (length (fst (fst r)) + length (filter isCoinCollect extra)
     <= length todo + length kept)%nat.
Proof.
  induction todo as [|c todo IH]; intros kept objs evs; cbn zeta;
    cbn [scanCoins].
  - exists []. rewrite app_nil_r. cbn. repeat split; [constructor|lia].
  - destruct (c_y c - dist * 1.5 <? -100).
    + destruct (IH kept objs evs) as [extra [E [F L]]].
      exists extra. cbn [length]. repeat split; [exact E|exact F|lia].
    + destruct (negb (c_collected c) && _).
      * assert (Hu : exists x,
                  snd (updateObjectives e lp0 (bumpObjective COLLECT_COINS)
                         objs (evs ++ [CoinCollect 1]))
                  = (evs ++ [CoinCollect 1]) ++ x
                  /\ Forall (fun ev => ev = CoinCollect 1
                                       \/ exists lp, ev = LevelProgressUpdate lp) x
                  /\ filter isCoinCollect x = []).
        { unfold updateObjectives. destruct (gameMode e), lp0; cbn [snd];
            try (exists []; rewrite app_nil_r;
                 split; [reflexivity|split; [constructor|reflexivity]]).
          eexists. split; [reflexivity|]. split; [|reflexivity].
          constructor; [right; eexists; reflexivity|constructor]. }
        destruct Hu as [x [Ex [Fx Cx]]].
        destruct (updateObjectives e lp0 (bumpObjective COLLECT_COINS) objs
                    (evs ++ [CoinCollect 1])) as [objs' evs'].
        cbn [snd] in Ex. subst evs'.
        destruct (IH kept objs' ((evs ++ [CoinCollect 1]) ++ x))
          as [extra [E [F L]]].
        exists ([CoinCollect 1] ++ x ++ extra).
        rewrite E, <- !app_assoc. split; [reflexivity|]. split.
        -- apply Forall_app. split; [constructor; [left; reflexivity|constructor]|].
           apply Forall_app. split; assumption.
        -- rewrite !filter_app, Cx, !length_app.
           change (length (filter isCoinCollect [CoinCollect 1])) with 1%nat.
           change (length (c :: todo)) with (S (length todo)).
           change (length (@nil Event)) with 0%nat.
           rewrite <- app_assoc in L. lia.
      * match goal with |- context [scanCoins _ _ _ _ _ (?x :: kept) _ _] =>
          destruct (IH (x :: kept) objs evs) as [extra [E [F L]]]
        end.
        exists extra. cbn [length] in *. repeat split; [exact E|exact F|lia].
Qed.

(* ------------------------------------------------------------------ *)
(** ** What the objective callbacks preserve *)

Section ObjectiveInvariant.
Variable R : ChallengObjective -> ChallengObjective -> Prop.
Hypothesis R_refl : forall a, R a a.
Hypothesis R_trans : forall a b c, R a b -> R b c -> R a c.
Hypothesis R_track : forall t d obj, R obj (trackObjective t d obj).
Hypothesis R_bump :
  forall ty obj, ty <> NO_DAMAGE -> R obj (bumpObjective ty obj).
Hypothesis R_fail : forall obj, R obj (failNoDamage obj).

Lemma rel_refl (l : list ChallengObjective) : Forall2 R l l.
Proof using R_refl. induction l; constructor; auto. Qed.

Lemma rel_trans (a b c : list ChallengObjective) :
  Forall2 R a b -> Forall2 R b c -> Forall2 R a c.
Proof using R_trans.
  intros Hab. revert c.
  induction Hab as [|x y a b Hxy Hab IH]; intros c Hbc.
  - inversion Hbc. constructor.
  - inversion Hbc as [|y' z b' c' Hyz Hbc']; subst.
    constructor; [eapply R_trans; eassumption|apply IH; assumption].
Qed.

Lemma rel_map (f : ChallengObjective -> ChallengObjective)
  (l : list ChallengObjective) :
  (forall obj, R obj (f obj)) -> Forall2 R l (map f l).
Proof. intros Hf. induction l; cbn [map]; constructor; auto. Qed.

Lemma updateObjectives_rel (e : Env) (lp0 : option LevelProgress)
  (f : ChallengObjective -> ChallengObjective)
  (objs : list ChallengObjective) (evs : list Event) :
  (forall obj, R obj (f obj)) ->
  Forall2 R objs (fst (updateObjectives e lp0 f objs evs)).
Proof using R_refl.
  intros Hf. unfold updateObjectives.
  destruct (gameMode e), lp0; cbn [fst];
    solve [apply rel_refl | apply rel_map; exact Hf].
Qed.

Lemma scanObstacles_rel (e : Env) (lp0 : option LevelProgress)
  (dist : Q) (p : Player) (depth : Z) (todo : list Obstacle) :
  forall kept aps objs evs,
  Forall2 R objs
    (sc_objectives (scanObstacles e lp0 dist p depth todo kept aps objs evs)).
Proof using R_refl R_trans R_bump R_fail.
  induction todo as [|o todo IH]; intros kept aps objs evs; cbn [scanObstacles].
  - apply rel_refl.
  - destruct (ob_y (moveObstacle e dist o) <? -500).
    + pose proof (updateObjectives_rel e lp0
                    (bumpObjective AVOID_OBSTACLES) objs evs) as H.
      destruct (updateObjectives e lp0 (bumpObjective AVOID_OBSTACLES) objs evs)
        as [objs' evs'].
      cbn [fst] in H. eapply rel_trans; [|apply IH].
      apply H. intro obj. apply R_bump. discriminate.
    + destruct (hitsObstacle p (moveObstacle e dist o)); [|apply IH].
      destruct (hasActive SHIELD aps); [apply IH|].
      pose proof (updateObjectives_rel e lp0 failNoDamage objs evs R_fail) as H.
      destruct (updateObjectives e lp0 failNoDamage objs evs) as [objs' evs'].
      exact H.
Qed.

Lemma scanCoins_rel (e : Env) (lp0 : option LevelProgress) (dist : Q)
  (p : Player) (todo : list Coin) :
  forall kept objs evs,
  Forall2 R objs (snd (fst (scanCoins e lp0 dist p todo kept objs evs))).
Proof using R_refl R_trans R_bump.
  induction todo as [|c todo IH]; intros kept objs evs; cbn [scanCoins].
  - apply rel_refl.
  - destruct (c_y c - dist * 1.5 <? -100); [apply IH|].
    destruct (negb (c_collected c) && _); [|apply IH].
    pose proof (updateObjectives_rel e lp0 (bumpObjective COLLECT_COINS)
                  objs (evs ++ [CoinCollect 1])) as H.
    destruct (updateObjectives e lp0 (bumpObjective COLLECT_COINS) objs
                (evs ++ [CoinCollect 1])) as [objs' evs'].
    cbn [fst] in H. eapply rel_trans; [|apply IH].
    apply H. intro obj. apply R_bump. discriminate.
Qed.

Lemma challengeTick_rel (e : Env) (lp : LevelProgress) (depth : Z) :
  Forall2 R (objectives lp) (fst (challengeTick e (Some lp) depth)).
Proof using R_refl R_track.
  unfold challengeTick.
  destruct (gameMode e), (selectedChallengeLevel e); cbn [fst];
    solve [apply rel_refl | apply rel_map; intro; apply R_track].
Qed.

Lemma update_rel (e : Env) (s : Sim) (lp : LevelProgress) :
  levelProgress s = Some lp ->
  exists lp', levelProgress (fst (update e s)) = Some lp'
              /\ Forall2 R (objectives lp) (objectives lp').
Proof using R_refl R_trans R_track R_bump R_fail.
  intros Hlp. unfold update.
  destruct (negb (GameState_beq (gameState s) PLAYING) || isPaused e).
  { exists lp. split; [exact Hlp|apply rel_refl]. }
  rewrite Hlp.
  match goal with |- context [challengeTick e (Some lp) ?d] =>
    pose proof (challengeTick_rel e lp d) as Hc;
    destruct (challengeTick e (Some lp) d) as [objs cevs]
  end.
  cbn [fst] in Hc.
  match goal with |- context [scanObstacles ?e ?l ?d ?p ?k ?t ?kp ?a ?o ?ev] =>
    pose proof (scanObstacles_rel e l d p k t kp a o ev) as Hs;
    destruct (scanObstacles e l d p k t kp a o ev) as [so sa sobj sev sf]
  end.
  cbn [sc_fatal sc_objectives sc_events sc_obstacles sc_active] in *.
  destruct sf.
  - cbn [fst levelProgress].
    destruct (progressAfter_objectives lp sobj sev) as [lp' [E O]].
    exists lp'. rewrite O. split; [exact E|].
    eapply rel_trans; eassumption.
  - destruct (scanPowerUps _ _ _ _ _) as [pus aps].
    match goal with |- context [scanCoins ?e ?l ?d ?p ?t ?k ?o ?ev] =>
      pose proof (scanCoins_rel e l d p t k o ev) as Hk;
      destruct (scanCoins e l d p t k o ev) as [[cs objs'] evs']
    end.
    cbn [fst snd levelProgress] in *.
    destruct (progressAfter_objectives lp objs' evs') as [lp' [E O]].
    exists lp'. rewrite O. split; [exact E|].
    eapply rel_trans; [eassumption|].
    eapply rel_trans; eassumption.
Qed.

Lemma run_rel (frames : list (Input * Env)) :
  forall (s : Sim) (lp : LevelProgress),
  levelProgress s = Some lp ->
  exists lp', levelProgress (fst (run s frames)) = Some lp'
              /\ Forall2 R (objectives lp) (objectives lp').
Proof using R_refl R_trans R_track R_bump R_fail.
  induction frames as [|ie frames IH]; intros s lp Hlp; cbn [run].
  - exists lp. split; [exact Hlp|apply rel_refl].
  - assert (Hf : exists lp1, levelProgress (fst (frame s ie)) = Some lp1
                             /\ Forall2 R (objectives lp) (objectives lp1)).
    { unfold frame.
      assert (Hi : levelProgress (applyInput (fst ie) s) = Some lp)
        by exact Hlp.
      destruct (update_rel (snd ie) _ lp Hi) as [lp1 [E F]].
      destruct (update (snd ie) (applyInput (fst ie) s)) as [s' evs].
      cbn [fst snd] in *. exists lp1. split; [exact E|exact F]. }
    destruct Hf as [lp1 [E1 F1]].
    destruct (frame s ie) as [s1 evs1]. cbn [fst] in E1.
    destruct (IH s1 lp1 E1) as [lp2 [E2 F2]].
    destruct (run s1 frames) as [s2 evs2]. cbn [fst] in *.
    exists lp2. split; [exact E2|eapply rel_trans; eassumption].
Qed.
End ObjectiveInvariant.

Lemma settled_refl (a : ChallengObjective) : settled a a.
Proof. repeat split. Qed.

Lemma settled_trans (a b c : ChallengObjective) :
  settled a b -> settled b c -> settled a c.
Proof.
  intros [T1 [G1 K1]] [T2 [G2 K2]]. split; [congruence|split; [congruence|]].
  intros Hn Hc. specialize (K1 Hn Hc). subst b. apply K2; assumption.
Qed.

Lemma trackObjective_settled (t : Q) (d : Z) (obj : ChallengObjective) :
  settled obj (trackObjective t d obj).
Proof.
  unfold settled, trackObjective.
  destruct obj as [ty tg cu co]; destruct co; cbn;
    [repeat split|destruct ty; cbn; repeat split; intros; congruence].
Qed.

Lemma bumpObjective_settled (ty : ObjectiveType) (obj : ChallengObjective) :
  ty <> NO_DAMAGE -> settled obj (bumpObjective ty obj).
Proof.
  intros _. unfold settled, bumpObjective.
  destruct obj as [oty tg cu co]; destruct co; cbn;
    [rewrite andb_false_r; repeat split|].
  rewrite andb_true_r.
  destruct (ObjectiveType_beq oty ty); cbn; repeat split; intros; congruence.
Qed.

Lemma failNoDamage_settled (obj : ChallengObjective) :
  settled obj (failNoDamage obj).
Proof.
  unfold settled, failNoDamage.
  destruct obj as [ty tg cu co]; destruct ty; cbn;
    repeat split; intros; congruence.
Qed.

(** X15. Over a whole run, whatever the inputs, the objective list keeps its
    length and order, no objective changes its type or its target, and an
    objective other than NO_DAMAGE that is completed is never changed again
    (neither its flag nor its counter). *)
Theorem objectives_settle_over_runs (frames : list (Input * Env))
  (s : Sim) (lp : LevelProgress) :
  levelProgress s = Some lp ->
  exists lp', levelProgress (fst (run s frames)) = Some lp'
              /\ Forall2 settled (objectives lp) (objectives lp').
Proof.
  apply (run_rel settled settled_refl settled_trans trackObjective_settled
           bumpObjective_settled failNoDamage_settled).
Qed.

Lemma objectives_settle_over_runs_witness :
  let e := sceneEnv CHALLENGE (Some 3%Z) 61000 in
  levelProgress levelThreeSim
  = Some (mkProgress [ mkObjective REACH_DEPTH 1500 1499 false;
                       mkObjective COLLECT_COINS 25 25 true;
                       mkObjective AVOID_OBSTACLES 50 50 true ] 0 60) /\
  exists lp', levelProgress (fst (run levelThreeSim [(noInput, e)])) = Some lp'
              /\ Forall2 settled
                   [ mkObjective REACH_DEPTH 1500 1499 false;
                     mkObjective COLLECT_COINS 25 25 true;
                     mkObjective AVOID_OBSTACLES 50 50 true ]
                   (objectives lp').
Proof.
  cbv zeta. split; [reflexivity|].
  apply (objectives_settle_over_runs
           [(noInput, sceneEnv CHALLENGE (Some 3%Z) 61000)] levelThreeSim
           (mkProgress [ mkObjective REACH_DEPTH 1500 1499 false;
                         mkObjective COLLECT_COINS 25 25 true;
                         mkObjective AVOID_OBSTACLES 50 50 true ] 0 60)).
  reflexivity.
Defined.

(* ------------------------------------------------------------------ *)
(** ** Level completion *)

(** X16. In a challenge tick with a selected level and a progress object,
    the level-complete event is emitted exactly when every objective is
    completed once the tracker has updated them with the elapsed time and
    the depth of this tick; outside challenge mode, or without a selected
    level, it is never emitted. *)
Theorem level_complete_iff_all_completed (e : Env) (s : Sim)
  (lp : LevelProgress) :
  gameState s = PLAYING -> isPaused e = false ->
  levelProgress s = Some lp ->
  existsb isLevelComplete (snd (update e s))
  = match gameMode e, selectedChallengeLevel e with
    | CHALLENGE, Some _ =>
        forallb o_completed
          (map (trackObjective ((now e - startTime lp) / 1000)
                               (score (fst (update e s)) / 10))
               (objectives lp))
    | _, _ => false
    end.
Proof.
  intros Hp Hr Hlp.
  destruct (update_events e s Hp Hr) as [extra [E Q]]. cbv zeta in E.
  rewrite E. cbn [existsb isLevelComplete orb].
  rewrite existsb_app, Q, orb_false_r, Hlp.
  unfold challengeTick.
  destruct (gameMode e), (selectedChallengeLevel e); cbn [snd existsb];
    try reflexivity.
  cbn [isLevelComplete orb].
  destruct (forallb o_completed _); reflexivity.
Qed.

Lemma level_complete_iff_all_completed_witness :
  let e := sceneEnv CHALLENGE (Some 3%Z) 61000 in
  gameState levelThreeSim = PLAYING /\ isPaused e = false /\
  existsb isLevelComplete (snd (update e levelThreeSim)) = true.
Proof.
  cbv zeta. split; [reflexivity|split; [reflexivity|]].
  rewrite (level_complete_iff_all_completed
             (sceneEnv CHALLENGE (Some 3%Z) 61000) levelThreeSim
             (mkProgress [ mkObjective REACH_DEPTH 1500 1499 false;
                           mkObjective COLLECT_COINS 25 25 true;
                           mkObjective AVOID_OBSTACLES 50 50 true ] 0 60)
             eq_refl eq_refl eq_refl).
  vm_compute. reflexivity.
Defined.

(* ------------------------------------------------------------------ *)
(** ** Entity factories *)

Lemma scaled_draw (r a : Q) : 0 <= r <= 1 -> 0 <= a -> 0 <= r * a <= a.
Proof.
  intros [H0 H1] Ha. split; [apply Qmult_le_0_compat; assumption|].
  apply Qle_trans with (1 * a); [apply Qmult_le_compat_r; assumption|lra].
Qed.

(** X18. On a canvas at least 250 wide and with draws in [0, 1], every
    obstacle the factory makes has a positive size, starts at least 100 below
    the bottom edge, lies between the left and right edges of the canvas,
    moves sideways only if it is a bird (then by at most 4 per tick) and is
    a building only above raw score 500. *)
Theorem spawned_obstacle_shape (e : Env) (s currentScore : Z) :
  250 <= canvasWidth e ->
  0 <= r_obsX (rand e) <= 1 -> 0 <= r_obsSpeed (rand e) <= 1 ->
  0 <= r_obsWidth (rand e) <= 1 ->
  let o := spawnObstacle e (difficulty s) currentScore in
  0 < ob_width o /\ 0 < ob_height o /\
  canvasHeight e + 100 <= ob_y o /\
  0 <= ob_x o /\ ob_x o + ob_width o <= canvasWidth e /\
  (ob_type o <> BIRD -> ob_speedX o = 0) /\
  -4 <= ob_speedX o <= 4 /\
  (ob_type o = BUILDING -> (500 < currentScore)%Z).
Proof.
  intros Hw Hx Hs Hbw o. subst o.
  pose proof (difficulty_range s) as [Hd0 Hd1].
  set (d := difficulty s) in *.
  pose proof (scaled_draw _ (canvasWidth e - 100) Hx ltac:(lra)) as [X0 X1].
  unfold spawnObstacle. cbv zeta.
  set (x := r_obsX (rand e) * (canvasWidth e - 100)) in *.
  destruct (r_obsType (rand e) <? 0.4);
    [|destruct (r_obsType (rand e) <? 0.6);
      [|destruct ((r_obsType (rand e) <? 0.8) && (500 <? currentScore)%Z)
          eqn:Eb]];
    cbn [ob_width ob_height ob_x ob_y ob_type ob_speedX].
  - assert (Hsd : -0.5 <= (r_obsSpeed (rand e) - 0.5) * d <= 0.5).
    { destruct (Qlt_le_dec (r_obsSpeed (rand e)) 0.5) as [L|L].
      - pose proof (scaled_draw d (0.5 - r_obsSpeed (rand e))
                      (conj Hd0 Hd1) ltac:(lra)) as [A B].
        setoid_replace ((r_obsSpeed (rand e) - 0.5) * d)
          with (- (d * (0.5 - r_obsSpeed (rand e)))) by ring. lra.
      - pose proof (scaled_draw d (r_obsSpeed (rand e) - 0.5)
                      (conj Hd0 Hd1) ltac:(lra)) as [A B].
        setoid_replace ((r_obsSpeed (rand e) - 0.5) * d)
          with (d * (r_obsSpeed (rand e) - 0.5)) by ring. lra. }
    assert (Hsp : -4 <= (r_obsSpeed (rand e) - 0.5) * 4 * (1 + d) <= 4).
    { setoid_replace ((r_obsSpeed (rand e) - 0.5) * 4 * (1 + d))
        with (4 * (r_obsSpeed (rand e) - 0.5)
              + 4 * ((r_obsSpeed (rand e) - 0.5) * d)) by ring. lra. }
    repeat split; try reflexivity; try lra; try congruence.
  - repeat split; try reflexivity; try lra; try congruence.
  - apply andb_true_iff in Eb as [_ Eb]. apply Z.ltb_lt in Eb.
    pose proof (scaled_draw _ 100 Hbw ltac:(lra)) as [B0 B1].
    destruct (0.5 <? r_obsSide (rand e));
      repeat split; try reflexivity; try lra; try congruence.
  - repeat split; try reflexivity; try lra; try congruence.
Qed.

Lemma spawned_obstacle_shape_witness :
  let e := sceneEnv ENDLESS None 0 in
  250 <= canvasWidth e /\
  0 < ob_width (spawnObstacle e (difficulty 900) 900) /\
  ob_x (spawnObstacle e (difficulty 900) 900)
  + ob_width (spawnObstacle e (difficulty 900) 900) <= canvasWidth e.
Proof.
  cbv zeta.
  assert (Hw : 250 <= canvasWidth (sceneEnv ENDLESS None 0))
    by (vm_compute; discriminate).
  split; [exact Hw|].
  pose proof (spawned_obstacle_shape (sceneEnv ENDLESS None 0) 900 900 Hw) as H.
  cbv zeta in H.
  destruct H as [A [_ [_ [_ [B _]]]]];
    try (split; vm_compute; discriminate).
  split; assumption.
Defined.

(** X19. A wind zone pushes along one axis only: the factory sets either
    the horizontal or the vertical force to zero.  With draws in [0, 1] the
    zone is 200 to 500 wide and 300 to 700 high, starts 100 below the bottom
    edge, and its force stays within 12.5 sideways, 3.25 upwards and 2.5
    downwards. *)
Theorem spawned_wind_zone_shape (e : Env) (s : Z) :
  0 <= r_wzWidth (rand e) <= 1 -> 0 <= r_wzHeight (rand e) <= 1 ->
  0 <= r_wzForce (rand e) <= 1 ->
  let z := spawnWindZone e (difficulty s) in
  (wz_vx z = 0 \/ wz_vy z = 0) /\
  200 <= wz_width z <= 500 /\ 300 <= wz_height z <= 700 /\
  wz_y z = canvasHeight e + 100 /\
  -12.5 <= wz_vx z <= 12.5 /\ -3.25 <= wz_vy z <= 2.5.
Proof.
  intros Hw Hh Hf z. subst z.
  pose proof (difficulty_range s) as [Hd0 Hd1].
  set (d := difficulty s) in *.
  pose proof (scaled_draw _ d Hf Hd0) as [F0 F1].
  set (f := r_wzForce (rand e)) in *.
  unfold spawnWindZone. cbv zeta. fold f.
  destruct (r_wzType (rand e) <? 0.4);
    [|destruct (r_wzType (rand e) <? 0.7)];
    cbn [wz_vx wz_vy wz_width wz_height wz_y].
  - split; [right; reflexivity|].
    assert (Hm : 2 <= (2 + f * 3) * (1 + d * 1.5) <= 12.5).
    { setoid_replace ((2 + f * 3) * (1 + d * 1.5))
        with (2 + 3 * f + 3 * d + 4.5 * (f * d)) by ring. lra. }
    repeat split; try lra.
    + destruct (0.5 <? r_wzDir (rand e)).
      * setoid_replace (1 * (2 + f * 3) * (1 + d * 1.5))
          with ((2 + f * 3) * (1 + d * 1.5)) by ring. lra.
      * setoid_replace (-1 * (2 + f * 3) * (1 + d * 1.5))
          with (- ((2 + f * 3) * (1 + d * 1.5))) by ring. lra.
    + destruct (0.5 <? r_wzDir (rand e)).
      * setoid_replace (1 * (2 + f * 3) * (1 + d * 1.5))
          with ((2 + f * 3) * (1 + d * 1.5)) by ring. lra.
      * setoid_replace (-1 * (2 + f * 3) * (1 + d * 1.5))
          with (- ((2 + f * 3) * (1 + d * 1.5))) by ring. lra.
  - split; [left; reflexivity|].
    assert (Hm : 0.5 <= (0.5 + f * 0.8) * (1 + d * 1.5) <= 3.25).
    { setoid_replace ((0.5 + f * 0.8) * (1 + d * 1.5))
        with (0.5 + 0.8 * f + 0.75 * d + 1.2 * (f * d)) by ring. lra. }
    repeat split; lra.
  - split; [left; reflexivity|].
    assert (Hm : 0.5 <= (0.5 + f * 0.5) * (1 + d * 1.5) <= 2.5).
    { setoid_replace ((0.5 + f * 0.5) * (1 + d * 1.5))
        with (0.5 + 0.5 * f + 0.75 * d + 0.75 * (f * d)) by ring. lra. }
    repeat split; lra.
Qed.

Lemma spawned_wind_zone_shape_witness :
  let e := sceneEnv ENDLESS None 0 in
  0 <= r_wzForce (rand e) <= 1 /\
  (wz_vx (spawnWindZone e (difficulty 900)) = 0
   \/ wz_vy (spawnWindZone e (difficulty 900)) = 0).
Proof.
  cbv zeta.
  assert (H : 0 <= 0.5 <= 1) by (split; vm_compute; discriminate).
  split; [exact H|].
  apply (spawned_wind_zone_shape (sceneEnv ENDLESS None 0) 900 H H H).
Defined.

(* ================================================================== *)
(** * Properties of the services and of the shop *)

(* ------------------------------------------------------------------ *)
(** ** Level table *)

(** X20. Looking a level up by id succeeds exactly for the ids 1 to 5 and
    returns the level of that id; [initializeLevelObjectives] then hands
    out a non-empty list of objectives, all open and with a positive target,
    and for any other id it hands out the empty list. *)
Theorem level_lookup (id : Z) :
  (forall level, getLevelById id = Some level ->
                 fst level = id /\ (1 <= id <= 5)%Z) /\
  ((1 <= id <= 5)%Z ->
   getLevelById id <> None /\ initializeLevelObjectives id <> []) /\
  (~ (1 <= id <= 5)%Z -> initializeLevelObjectives id = []) /\
  Forall (fun o => o_completed o = false /\ 0 < o_target o)
         (initializeLevelObjectives id).
Proof.
  unfold initializeLevelObjectives, getLevelById, CHALLENGE_LEVELS.
  cbn [find fst].
  destruct (1 =? id)%Z eqn:E1; [apply Z.eqb_eq in E1|apply Z.eqb_neq in E1];
  [|destruct (2 =? id)%Z eqn:E2; [apply Z.eqb_eq in E2|apply Z.eqb_neq in E2];
  [|destruct (3 =? id)%Z eqn:E3; [apply Z.eqb_eq in E3|apply Z.eqb_neq in E3];
  [|destruct (4 =? id)%Z eqn:E4; [apply Z.eqb_eq in E4|apply Z.eqb_neq in E4];
  [|destruct (5 =? id)%Z eqn:E5;
    [apply Z.eqb_eq in E5|apply Z.eqb_neq in E5]]]]];
  cbn [snd];
  (split; [intros level H; inversion H; subst; cbn [fst]; try (split; lia);
           discriminate
          |split; [intros H; split; try discriminate; try lia
                  |split; [intros H; try reflexivity; try lia
                          |repeat constructor]]]).
Qed.

Lemma level_lookup_witness :
  (1 <= 4 <= 5)%Z /\ getLevelById 4 <> None /\
  ~ (1 <= 9 <= 5)%Z /\ initializeLevelObjectives 9 = [].
Proof.
  split; [lia|]. split.
  - apply (level_lookup 4). lia.
  - split; [lia|]. apply (level_lookup 9). lia.
Defined.

(* ------------------------------------------------------------------ *)
(** ** Leaderboard *)

Lemma last_is_lowest (lb : list LeaderboardEntry) (lowest : LeaderboardEntry) :
  StronglySorted (fun a b => le_score b <= le_score a) lb ->
  nth_error lb (length lb - 1) = Some lowest ->
  In lowest lb /\ forall d, In d lb -> le_score lowest <= le_score d.
Proof.
  intros Hs. induction Hs as [|a lb Hs IH Ha]; cbn [length].
  - cbn. discriminate.
  - destruct lb as [|b lb'].
    + cbn. intros H. inversion H; subst. split; [left; reflexivity|].
      intros d [Hd|[]]. subst. apply Qle_refl.
    + replace (S (length (b :: lb')) - 1)%nat with (S (length (b :: lb') - 1))
        by (cbn [length]; lia).
      cbn [nth_error]. intros H. destruct (IH H) as [Hin Hlow].
      split; [right; exact Hin|].
      intros d [Hd|Hd]; [subst d|apply Hlow; exact Hd].
      rewrite Forall_forall in Ha. apply Ha. exact Hin.
Qed.

(** X21. A score always qualifies while the board shows fewer than ten
    entries.  On a board of ten or more entries sorted by descending score
    (as the query of [getLeaderboard] orders it) a score qualifies exactly
    when it is strictly above some entry of the board; ties with the lowest
    entry do not qualify. *)
Theorem high_score_rule (score : Q) (lb : list LeaderboardEntry) :
  ((length lb < 10)%nat -> isHighScore score lb = true) /\
  ((10 <= length lb)%nat ->
   StronglySorted (fun a b => le_score b <= le_score a) lb ->
   (isHighScore score lb = true <-> exists d, In d lb /\ le_score d < score)).
Proof.
  unfold isHighScore. split.
  - intros H. apply Nat.ltb_lt in H. rewrite H. reflexivity.
  - intros H Hs. apply Nat.ltb_ge in H. rewrite H.
    destruct (nth_error lb (length lb - 1)) as [lowest|] eqn:E.
    + destruct (last_is_lowest lb lowest Hs E) as [Hin Hlow].
      rewrite Qltb_true. split.
      * intros L. exists lowest. split; assumption.
      * intros [d [Hd L]]. apply Qle_lt_trans with (le_score d); auto.
    + exfalso. apply nth_error_None in E. apply Nat.ltb_ge in H. lia.
Qed.

Lemma high_score_rule_witness :
  let lb := map (fun k => mkEntry None "p" (inject_Z k) 0)
                [100; 90; 80; 70; 60; 50; 40; 30; 20; 10]%Z in
  (10 <= length lb)%nat /\
  isHighScore 10 lb = false /\ isHighScore 11 lb = true /\
  (isHighScore 11 lb = true
   <-> exists d, In d lb /\ le_score d < 11).
Proof.
  cbv zeta. split; [cbn; lia|split; [reflexivity|split; [reflexivity|]]].
  apply (high_score_rule 11
           (map (fun k => mkEntry None "p" (inject_Z k) 0)
                [100; 90; 80; 70; 60; 50; 40; 30; 20; 10]%Z)).
  - cbn; lia.
  - cbn [map]. repeat (constructor; [|repeat constructor; vm_compute; discriminate]).
    constructor.
Defined.

(* ------------------------------------------------------------------ *)
(** ** Score submission *)

Lemma userIds_app (a b : list Doc) : userIds (a ++ b) = userIds a ++ userIds b.
Proof. unfold userIds. apply flat_map_app. Qed.

Lemma ownedBy_userId (u : string) (d : Doc) :
  ownedBy u d = true <-> doc_userId d = Some u.
Proof.
  unfold ownedBy. destruct (doc_userId d) as [v|].
  - rewrite String.eqb_eq. split; [intros; subst; reflexivity|congruence].
  - split; discriminate.
Qed.

Lemma userIds_In (u : string) (docs : list Doc) :
  In u (userIds docs) <-> exists d, In d docs /\ doc_userId d = Some u.
Proof.
  unfold userIds. rewrite in_flat_map. split.
  - intros [d [Hd Hu]]. exists d. split; [exact Hd|].
    destruct (doc_userId d) as [v|]; [|destruct Hu].
    destruct Hu as [Hu|[]]. subst. reflexivity.
  - intros [d [Hd Hu]]. exists d. split; [exact Hd|].
    rewrite Hu. left. reflexivity.
Qed.

Lemma filter_ownedBy_nil (u : string) (docs : list Doc) :
  filter (ownedBy u) docs = [] -> ~ In u (userIds docs).
Proof.
  intros E Hin. apply userIds_In in Hin as [d [Hd Hu]].
  assert (Hf : In d (filter (ownedBy u) docs))
    by (apply filter_In; split; [exact Hd|apply ownedBy_userId; exact Hu]).
  rewrite E in Hf. destruct Hf.
Qed.

(** [updateDoc] keeps the id and the user id of every document. *)
Lemma update_userIds (id : string) (name : JsString) (score date : Q)
  (docs : list Doc) :
  userIds (map (fun d => if hasId id d
                         then mkDoc (doc_id d) (doc_userId d) name score date
                         else d) docs)
  = userIds docs.
Proof.
  unfold userIds. induction docs as [|d docs IH]; [reflexivity|].
  cbn [map flat_map]. rewrite IH. destruct (hasId id d); reflexivity.
Qed.

Lemma NoDup_insert (l1 l2 : list string) (u : string) :
  NoDup (l1 ++ l2) -> ~ In u (l1 ++ l2) -> NoDup (l1 ++ u :: l2).
Proof.
  intros Hn Hu. apply NoDup_Add with (a := u) (l := l1 ++ l2).
  - apply Add_app.
  - split; assumption.
Qed.

Lemma add_userIds (n : nat) (d : Doc) (docs : list Doc) :
  userIds (firstn n docs ++ d :: skipn n docs)
  = userIds (firstn n docs) ++ userIds [d] ++ userIds (skipn n docs).
Proof.
  rewrite userIds_app. change (d :: skipn n docs) with ([d] ++ skipn n docs).
  rewrite userIds_app. reflexivity.
Qed.

Lemma add_keeps_NoDup (n : nat) (d : Doc) (docs : list Doc) :
  NoDup (userIds docs) ->
  (forall u, doc_userId d = Some u -> ~ In u (userIds docs)) ->
  NoDup (userIds (firstn n docs ++ d :: skipn n docs)).
Proof.
  intros Hn Hu. rewrite add_userIds.
  rewrite <- (firstn_skipn n docs), userIds_app in Hn.
  unfold userIds at 2. cbn [flat_map]. rewrite app_nil_r.
  destruct (doc_userId d) as [u|] eqn:E; cbn [app]; [|exact Hn].
  apply NoDup_insert; [exact Hn|].
  rewrite <- userIds_app, firstn_skipn. apply Hu. reflexivity.
Qed.

(** The two requests of a call of [submitScore] served in a row. *)
Lemma alone_cases (sv1 sv2 : Server) (db : bool) (name : JsString) (score : Q)
  (userId : option string) (docs : list Doc) :
  let out := alone sv1 sv2 (submitScore db name score userId) docs in
  let added sv := firstn (sv_place sv) docs
                  ++ mkDoc (sv_newId sv) (givenUser userId) (firstn 15 name)
                           score (sv_date sv)
                     :: skipn (sv_place sv) docs in
  (* nothing written *)
  (snd out = docs /\
   (db = false \/ sv_fault sv1 <> None \/ sv_fault sv2 <> None \/
    (fst out = Return SubmitOk /\
     exists u d rest, givenUser userId = Some u
                      /\ filter (ownedBy u) docs = d :: rest
                      /\ score <= doc_score d)))
  \/
  (* a document added *)
  (fst out = Return SubmitOk /\
   ((givenUser userId = None /\ snd out = added sv1) \/
    (exists u, givenUser userId = Some u /\ filter (ownedBy u) docs = []
               /\ snd out = added sv2)))
  \/
  (* the document of the user updated *)
  (fst out = Return SubmitOk /\
   exists u d rest, givenUser userId = Some u
     /\ filter (ownedBy u) docs = d :: rest /\ doc_score d < score
     /\ snd out = map (fun x => if hasId (doc_id d) x
                                then mkDoc (doc_id x) (doc_userId x)
                                           (firstn 15 name) score (sv_date sv2)
                                else x) docs).
Proof.
  cbv zeta. unfold alone, submitScore.
  destruct db; cbn [negb].
  2:{ cbn [serve fst snd]. left. split; [reflexivity|left; reflexivity]. }
  destruct (givenUser userId) as [u|] eqn:Eu.
  - cbn [serve]. destruct (sv_fault sv1) as [m1|] eqn:F1.
    { cbn [serve caught fst snd]. left. split; [reflexivity|].
      right. left. discriminate. }
    destruct (filter (ownedBy u) docs) as [|d rest] eqn:Ef.
    + cbn [serve]. destruct (sv_fault sv2) as [m2|] eqn:F2.
      { cbn [afterWrite caught fst snd]. left. split; [reflexivity|].
        right. right. left. discriminate. }
      cbn [applyWrite afterWrite fst snd]. right. left.
      split; [reflexivity|]. right. exists u.
      repeat split; try reflexivity; try assumption.
    + case_lt (doc_score d) score.
      * cbn [serve]. destruct (sv_fault sv2) as [m2|] eqn:F2.
        { cbn [afterWrite caught fst snd]. left. split; [reflexivity|].
          right. right. left. discriminate. }
        cbn [applyWrite].
        assert (Hex : existsb (hasId (doc_id d)) docs = true).
        { apply existsb_exists. exists d. split.
          - assert (Hin : In d (filter (ownedBy u) docs))
              by (rewrite Ef; left; reflexivity).
            apply filter_In in Hin. tauto.
          - unfold hasId. apply String.eqb_refl. }
        rewrite Hex. cbn [afterWrite fst snd]. right. right.
        split; [reflexivity|]. exists u, d, rest.
        repeat split; try reflexivity; try assumption.
      * cbn [serve fst snd]. left. split; [reflexivity|].
        right. right. right. split; [reflexivity|]. exists u, d, rest.
        repeat split; try reflexivity; try assumption.
  - cbn [serve]. destruct (sv_fault sv1) as [m1|] eqn:F1.
    { cbn [afterWrite caught serve fst snd]. left. split; [reflexivity|].
      right. left. discriminate. }
    cbn [applyWrite afterWrite serve fst snd]. right. left.
    split; [reflexivity|]. left. split; reflexivity.
Qed.

Lemma filter_ownedBy_none (u : string) (docs : list Doc) :
  ~ In u (userIds docs) -> filter (ownedBy u) docs = [].
Proof.
  intros Hn. destruct (filter (ownedBy u) docs) as [|d rest] eqn:E;
    [reflexivity|].
  exfalso. apply Hn. apply userIds_In. exists d.
  assert (Hin : In d (filter (ownedBy u) docs)) by (rewrite E; left; reflexivity).
  apply filter_In in Hin as [Hd Ho]. split; [exact Hd|].
  apply ownedBy_userId. exact Ho.
Qed.

Lemma add_count (n : nat) (d : Doc) (docs : list Doc) (u : string) :
  doc_userId d = Some u ->
  count_occ string_dec (userIds (firstn n docs ++ d :: skipn n docs)) u
  = S (count_occ string_dec (userIds docs) u).
Proof.
  intros Hu. rewrite add_userIds, !count_occ_app.
  rewrite <- (firstn_skipn n docs) at 3. rewrite userIds_app, count_occ_app.
  unfold userIds at 2. cbn [flat_map]. rewrite Hu. cbn [app count_occ].
  destruct (string_dec u u) as [_|N]; [lia|congruence].
Qed.

(** X22. One document per user holds only for calls that do not overlap.
    A call of [submitScore] whose requests are served with no other write in
    between never gives a user a second document: if no user id occurs twice
    in the collection before, none does after, whatever the arguments and
    the outcome.  Two calls for a user without a document that both run
    their query before either writes both succeed and leave that user with
    two documents. *)
Theorem submit_alone_keeps_one_entry_per_user
  (docs : list Doc) (sv1 sv2 : Server) (db : bool) (name : JsString)
  (score : Q) (userId : option string) :
  NoDup (userIds docs) ->
  NoDup (userIds (snd (alone sv1 sv2 (submitScore db name score userId) docs)))
  /\
  (forall (u : string) (name2 : JsString) (score2 : Q) (r1 r2 w1 w2 : Server),
     givenUser (Some u) = Some u -> ~ In u (userIds docs) ->
     sv_fault r1 = None -> sv_fault r2 = None ->
     sv_fault w1 = None -> sv_fault w2 = None ->
     let out := interleave [(true, r1); (false, r2); (true, w1); (false, w2)]
                  (submitScore true name score (Some u))
                  (submitScore true name2 score2 (Some u)) docs in
     fst (fst out) = Return SubmitOk /\ snd (fst out) = Return SubmitOk /\
     count_occ string_dec (userIds (snd out)) u = 2%nat).
Proof.
  intros Hn. split.
  - destruct (alone_cases sv1 sv2 db name score userId docs)
      as [[E _]|[[_ [[Eu E]|[u [Eu [Ef E]]]]]|[_ [u [d [rest [_ [_ [_ E]]]]]]]]];
      cbv zeta in E; rewrite E.
    + exact Hn.
    + apply add_keeps_NoDup; [exact Hn|]. cbn [doc_userId]. rewrite Eu.
      discriminate.
    + apply add_keeps_NoDup; [exact Hn|]. cbn [doc_userId]. rewrite Eu.
      intros v Hv. inversion Hv; subst v. apply filter_ownedBy_nil. exact Ef.
    + rewrite update_userIds. exact Hn.
  - intros u name2 score2 r1 r2 w1 w2 Hu Hnot F1 F2 F3 F4.
    cbv zeta. unfold submitScore. cbn [negb]. rewrite Hu.
    cbn [interleave serve]. rewrite F1, F2.
    rewrite (filter_ownedBy_none u docs Hnot).
    cbn [interleave serve]. rewrite F3. cbn [applyWrite afterWrite].
    cbn [interleave serve]. rewrite F4. cbn [applyWrite afterWrite].
    cbn [interleave fst snd].
    split; [reflexivity|]. split; [reflexivity|].
    rewrite add_count by reflexivity. rewrite add_count by reflexivity.
    rewrite (proj1 (count_occ_not_In string_dec _ _) Hnot). reflexivity.
Qed.

Lemma same_id_same_doc (docs : list Doc) (x y : Doc) :
  NoDup (map doc_id docs) -> In x docs -> In y docs ->
  doc_id x = doc_id y -> x = y.
Proof.
  induction docs as [|d docs IH]; cbn [map]; intros Hn Hx Hy E; [destruct Hx|].
  inversion Hn as [|? ? Hd Hn']; subst.
  destruct Hx as [Hx|Hx], Hy as [Hy|Hy]; subst.
  - reflexivity.
  - exfalso. apply Hd. rewrite E. apply in_map. exact Hy.
  - exfalso. apply Hd. rewrite <- E. apply in_map. exact Hx.
  - apply IH; assumption.
Qed.

Lemma update_ids (id : string) (name : JsString) (score date : Q)
  (docs : list Doc) :
  map doc_id (map (fun d => if hasId id d
                            then mkDoc (doc_id d) (doc_userId d) name score date
                            else d) docs)
  = map doc_id docs.
Proof.
  rewrite map_map. apply map_ext. intros d. destruct (hasId id d); reflexivity.
Qed.

(** After [updateDoc] the one document with the id holds the score. *)
Lemma update_writes (id : string) (name : JsString) (score date : Q)
  (docs : list Doc) :
  NoDup (map doc_id docs) -> existsb (hasId id) docs = true ->
  map doc_score
      (filter (hasId id)
         (map (fun d => if hasId id d
                        then mkDoc (doc_id d) (doc_userId d) name score date
                        else d) docs))
  = [score].
Proof.
  induction docs as [|d docs IH]; cbn [map existsb]; [discriminate|].
  intros Hn He. inversion Hn as [|? ? Hd Hn']; subst.
  destruct (hasId id d) eqn:Hi.
  - cbn [filter]. unfold hasId at 1. cbn [doc_id]. fold (hasId id d).
    rewrite Hi. cbn [map doc_score]. f_equal.
    assert (Hnone : forall l, (forall x, In x l -> hasId id x = false) ->
              filter (hasId id)
                (map (fun d0 => if hasId id d0
                                then mkDoc (doc_id d0) (doc_userId d0) name
                                           score date
                                else d0) l) = []).
    { induction l as [|x l IHl]; [reflexivity|]. intros Hx. cbn [map filter].
      rewrite (Hx x (or_introl eq_refl)).
      rewrite (Hx x (or_introl eq_refl)).
      apply IHl. intros y Hy. apply Hx. right. exact Hy. }
    rewrite Hnone; [reflexivity|].
    intros x Hx. destruct (hasId id x) eqn:Hix; [|reflexivity].
    exfalso. apply Hd. unfold hasId in *. apply String.eqb_eq in Hi, Hix.
    rewrite Hi, <- Hix. apply in_map. exact Hx.
  - cbn [filter]. rewrite Hi. cbn [orb] in He. apply IH; assumption.
Qed.

Lemma add_In (n : nat) (d x : Doc) (docs : list Doc) :
  In x (firstn n docs ++ d :: skipn n docs) <-> x = d \/ In x docs.
Proof.
  assert (H : In x docs <-> In x (firstn n docs) \/ In x (skipn n docs))
    by (rewrite <- in_app_iff, firstn_skipn; reflexivity).
  rewrite in_app_iff, H. cbn [In]. intuition congruence.
Qed.

Lemma add_length (n : nat) (d : Doc) (docs : list Doc) :
  length (firstn n docs ++ d :: skipn n docs) = S (length docs).
Proof.
  rewrite length_app. cbn [length].
  assert (H : length docs = (length (firstn n docs) + length (skipn n docs))%nat)
    by (rewrite <- length_app, firstn_skipn; reflexivity).
  lia.
Qed.

(** X23. A stored score is lowered only by calls that overlap.  With
    document ids unique, a call of [submitScore] whose requests are served
    with no other write in between deletes no document and lowers no score,
    and adds at most one document.  When two calls for the same user both
    run their query before either writes, the call with the higher score
    writing first, the lower score replaces the higher one. *)
Theorem submit_alone_never_lowers_a_score
  (docs : list Doc) (sv1 sv2 : Server) (db : bool) (name : JsString)
  (score : Q) (userId : option string) :
  NoDup (map doc_id docs) ->
  let docs' := snd (alone sv1 sv2 (submitScore db name score userId) docs) in
  (forall d, In d docs ->
     exists d', In d' docs' /\ doc_id d' = doc_id d
                /\ doc_userId d' = doc_userId d
                /\ doc_score d <= doc_score d') /\
  (length docs <= length docs' <= S (length docs))%nat /\
  (forall (u : string) (d : Doc) (rest : list Doc) (name2 : JsString)
          (lower : Q) (r1 r2 w1 w2 : Server),
     givenUser (Some u) = Some u ->
     filter (ownedBy u) docs = d :: rest ->
     doc_score d < lower -> lower < score ->
     sv_fault r1 = None -> sv_fault r2 = None ->
     sv_fault w1 = None -> sv_fault w2 = None ->
     let a := submitScore true name score (Some u) in
     let b := submitScore true name2 lower (Some u) in
     let stored steps :=
       map doc_score
           (filter (hasId (doc_id d)) (snd (interleave steps a b docs))) in
     stored [(true, r1); (false, r2); (true, w1)] = [score] /\
     stored [(true, r1); (false, r2); (true, w1); (false, w2)] = [lower]).
Proof.
  intros Hn docs'. split; [|split].
  - intros d Hd. unfold docs'.
    destruct (alone_cases sv1 sv2 db name score userId docs)
      as [[E _]|[[_ [[Eu E]|[u [Eu [Ef E]]]]]|[_ [u [d0 [rest [_ [Ef [Hlt E]]]]]]]]];
      cbv zeta in E; rewrite E.
    + exists d. repeat split; [exact Hd|apply Qle_refl].
    + exists d. repeat split; [apply add_In; right; exact Hd|apply Qle_refl].
    + exists d. repeat split; [apply add_In; right; exact Hd|apply Qle_refl].
    + assert (Hd0 : In d0 docs).
      { assert (Hin : In d0 (filter (ownedBy u) docs))
          by (rewrite Ef; left; reflexivity).
        apply filter_In in Hin. tauto. }
      eexists. split; [apply in_map; exact Hd|].
      destruct (hasId (doc_id d0) d) eqn:Hi; cbn [doc_id doc_userId doc_score].
      * repeat split. unfold hasId in Hi. apply String.eqb_eq in Hi.
        rewrite (same_id_same_doc docs d d0 Hn Hd Hd0 Hi).
        apply Qlt_le_weak. exact Hlt.
      * repeat split. apply Qle_refl.
  - unfold docs'.
    destruct (alone_cases sv1 sv2 db name score userId docs)
      as [[E _]|[[_ [[Eu E]|[u [Eu [Ef E]]]]]|[_ [u [d0 [rest [_ [Ef [Hlt E]]]]]]]]];
      cbv zeta in E; rewrite E; rewrite ?add_length, ?length_map; lia.
  - intros u d rest name2 lower r1 r2 w1 w2 Hu Ef L1 L2 F1 F2 F3 F4.
    cbv zeta. unfold submitScore. cbn [negb]. rewrite Hu.
    assert (Hex : existsb (hasId (doc_id d)) docs = true).
    { apply existsb_exists. exists d. split.
      - assert (Hin : In d (filter (ownedBy u) docs))
          by (rewrite Ef; left; reflexivity).
        apply filter_In in Hin. tauto.
      - unfold hasId. apply String.eqb_eq. reflexivity. }
    assert (La : (doc_score d <? score) = true)
      by (apply Qltb_true; apply Qlt_trans with lower; assumption).
    assert (Lb : (doc_score d <? lower) = true) by (apply Qltb_true; exact L1).
    cbn [interleave serve]. rewrite F1, F2, Ef, La, Lb.
    cbn [interleave serve]. rewrite F3. cbn [applyWrite]. rewrite Hex.
    cbn [interleave serve afterWrite snd]. split.
    + apply update_writes; assumption.
    + rewrite F4. cbn [applyWrite].
      match goal with |- context [existsb (hasId ?i) (map ?f docs)] =>
        assert (Hex' : existsb (hasId i) (map f docs) = true)
      end.
      { rewrite existsb_exists in *. destruct Hex as [x [Hx Hi]].
        eexists. split; [apply in_map; exact Hx|].
        rewrite Hi. exact Hi. }
      rewrite Hex'. cbn [snd]. apply update_writes; [|exact Hex'].
      rewrite update_ids. exact Hn.
Qed.

(** X24. When no request fails, a call of [submitScore] whose requests are
    served with no other write in between succeeds and leaves a document for
    the caller (the signed-in user, or an anonymous one when the id is
    missing or empty) whose score is at least the submitted one; every
    document it wrote carries the submitted score and the first 15 UTF-16
    code units of the name. *)
Theorem submit_alone_puts_score_on_the_board
  (docs : list Doc) (sv1 sv2 : Server) (name : JsString) (score : Q)
  (userId : option string) :
  sv_fault sv1 = None -> sv_fault sv2 = None ->
  let out := alone sv1 sv2 (submitScore true name score userId) docs in
  fst out = Return SubmitOk /\
  (exists d, In d (snd out) /\ doc_userId d = givenUser userId
             /\ score <= doc_score d) /\
  (forall d, In d (snd out) ->
     In d docs \/
     (doc_score d = score /\ doc_name d = firstn 15 name
      /\ (length (doc_name d) <= 15)%nat)).
Proof.
  intros F1 F2 out. unfold out.
  destruct (alone_cases sv1 sv2 true name score userId docs)
    as [[E [B|[B|[B|[R [u [d0 [rest [Eu [Ef L]]]]]]]]]]
       |[[R [[Eu E]|[u [Eu [Ef E]]]]]
        |[R [u [d0 [rest [Eu [Ef [Hlt E]]]]]]]]];
    try discriminate; try congruence;
    cbv zeta in E; rewrite E; (split; [exact R|]).
  - assert (Hin : In d0 (filter (ownedBy u) docs))
      by (rewrite Ef; left; reflexivity).
    apply filter_In in Hin as [Hd Ho]. apply ownedBy_userId in Ho.
    split; [|intros d H; left; exact H].
    exists d0. repeat split; [exact Hd|congruence|exact L].
  - split.
    + eexists. split; [apply add_In; left; reflexivity|].
      cbn [doc_userId doc_score]. split; [reflexivity|apply Qle_refl].
    + intros d Hd. apply add_In in Hd as [Hd|Hd]; [right|left; exact Hd].
      subst d. cbn [doc_score doc_name].
      repeat split. apply firstn_le_length.
  - split.
    + eexists. split; [apply add_In; left; reflexivity|].
      cbn [doc_userId doc_score]. split; [reflexivity|apply Qle_refl].
    + intros d Hd. apply add_In in Hd as [Hd|Hd]; [right|left; exact Hd].
      subst d. cbn [doc_score doc_name].
      repeat split. apply firstn_le_length.
  - assert (Hin : In d0 (filter (ownedBy u) docs))
      by (rewrite Ef; left; reflexivity).
    apply filter_In in Hin as [Hd Ho]. apply ownedBy_userId in Ho.
    split.
    + eexists. split; [apply in_map; exact Hd|].
      unfold hasId. rewrite String.eqb_refl. cbn [doc_userId doc_score].
      split; [congruence|apply Qle_refl].
    + intros d Hin. apply in_map_iff in Hin as [x [Ex Hx]].
      destruct (hasId (doc_id d0) x); subst d; [right|left; exact Hx].
      cbn [doc_score doc_name]. repeat split. apply firstn_le_length.
Qed.

Lemma submit_alone_keeps_one_entry_per_user_witness :
  let docs := [mkDoc "a1" (Some "u1"%string) [65; 110; 110]%N 120 1;
               mkDoc "b7" None [66; 111; 98]%N 300 2;
               mkDoc "c3" (Some "u2"%string) [67; 121]%N 80 3] in
  let sv := mkServer None 9 "d5" 1 in
  NoDup (userIds docs) /\
  userIds (snd (alone sv sv
                  (submitScore true [67; 121; 114]%N 95 (Some "u2"%string))
                  docs))
  = ["u1"; "u2"]%string /\
  count_occ string_dec
    (userIds (snd (interleave [(true, sv); (false, sv); (true, sv); (false, sv)]
                     (submitScore true [67; 121; 114]%N 95 (Some "u3"%string))
                     (submitScore true [67; 121]%N 70 (Some "u3"%string))
                     docs)))
    "u3"%string = 2%nat.
Proof.
  cbv zeta.
  assert (Hn : NoDup (userIds
            [mkDoc "a1" (Some "u1"%string) [65; 110; 110]%N 120 1;
             mkDoc "b7" None [66; 111; 98]%N 300 2;
             mkDoc "c3" (Some "u2"%string) [67; 121]%N 80 3])).
  { cbn. constructor; [intros [H|[]]; discriminate|].
    constructor; [intros []|constructor]. }
  split; [exact Hn|]. split; [reflexivity|].
  apply (submit_alone_keeps_one_entry_per_user
           [mkDoc "a1" (Some "u1"%string) [65; 110; 110]%N 120 1;
            mkDoc "b7" None [66; 111; 98]%N 300 2;
            mkDoc "c3" (Some "u2"%string) [67; 121]%N 80 3]
           (mkServer None 9 "d5" 1) (mkServer None 9 "d5" 1)
           true [67; 121; 114]%N 95 (Some "u2"%string) Hn);
    try reflexivity.
  cbn. intros [H|[H|[]]]; discriminate.
Defined.

Lemma submit_alone_never_lowers_a_score_witness :
  let docs := [mkDoc "a1" (Some "u1"%string) [65; 110; 110]%N 50 1;
               mkDoc "b7" None [66; 111; 98]%N 300 2] in
  let sv := mkServer None 9 "d5" 0 in
  let a := submitScore true [65; 110; 110]%N 100 (Some "u1"%string) in
  let b := submitScore true [65; 110; 110]%N 90 (Some "u1"%string) in
  NoDup (map doc_id docs) /\
  map doc_score (snd (alone sv sv b (snd (alone sv sv a docs)))) = [100; 300] /\
  map doc_score
      (filter (hasId "a1")
         (snd (interleave [(true, sv); (false, sv); (true, sv); (false, sv)]
                          a b docs)))
  = [90].
Proof.
  cbv zeta.
  assert (Hn : NoDup (map doc_id
            [mkDoc "a1" (Some "u1"%string) [65; 110; 110]%N 50 1;
             mkDoc "b7" None [66; 111; 98]%N 300 2])).
  { cbn. constructor; [intros [H|[]]; discriminate|].
    constructor; [intros []|constructor]. }
  split; [exact Hn|]. split; [reflexivity|].
  pose proof (submit_alone_never_lowers_a_score
           [mkDoc "a1" (Some "u1"%string) [65; 110; 110]%N 50 1;
            mkDoc "b7" None [66; 111; 98]%N 300 2]
           (mkServer None 9 "d5" 0) (mkServer None 9 "d5" 0)
           true [65; 110; 110]%N 100 (Some "u1"%string) Hn) as H.
  cbv zeta in H. destruct H as [_ [_ H]].
  apply (H "u1"%string (mkDoc "a1" (Some "u1"%string) [65; 110; 110]%N 50 1)
           [] [65; 110; 110]%N 90
           (mkServer None 9 "d5" 0) (mkServer None 9 "d5" 0)
           (mkServer None 9 "d5" 0) (mkServer None 9 "d5" 0));
    reflexivity.
Defined.

Lemma submit_alone_puts_score_on_the_board_witness :
  let docs := [mkDoc "a1" (Some "u1"%string) [65; 110; 110]%N 120 1] in
  let sv := mkServer None 4 "d5" 1 in
  let name := [201; 108; 111; 100; 105; 101; 32; 116; 104; 101; 32; 103; 108;
               105; 100; 101; 114]%N in
  sv_fault sv = None /\
  snd (alone sv sv (submitScore true name 50 (Some ""%string)) docs)
  = [mkDoc "a1" (Some "u1"%string) [65; 110; 110]%N 120 1;
     mkDoc "d5" None
           [201; 108; 111; 100; 105; 101; 32; 116; 104; 101; 32; 103; 108;
            105; 100]%N 50 4] /\
  fst (alone sv sv (submitScore true name 50 (Some ""%string)) docs)
  = Return SubmitOk.
Proof.
  cbv zeta. split; [reflexivity|split; [reflexivity|]].
  apply (submit_alone_puts_score_on_the_board
           [mkDoc "a1" (Some "u1"%string) [65; 110; 110]%N 120 1]
           (mkServer None 4 "d5" 1) (mkServer None 4 "d5" 1)
           [201; 108; 111; 100; 105; 101; 32; 116; 104; 101; 32; 103; 108;
            105; 100; 101; 114]%N 50 (Some ""%string));
    reflexivity.
Defined.

(* ------------------------------------------------------------------ *)
(** ** Shop *)

(** X25. A purchase never overdraws: starting from a non-negative balance
    the balance stays non-negative; it either stays as it is (item already
    unlocked, or too expensive) or drops by exactly the cost, and in that
    case the item's id is added to the unlocked items and the item is
    equipped. *)
Theorem purchase_never_overdraws (item : CosmeticItem) (st : Shop) :
  (0 <= sh_coins st)%Z ->
  let st' := handlePurchaseItem item st in
  (0 <= sh_coins st')%Z /\
  (st' = st \/
   (ci_unlocked item = false /\ (ci_cost item <= sh_coins st)%Z /\
    sh_coins st' = (sh_coins st - ci_cost item)%Z /\
    sh_unlockedItems st' = sh_unlockedItems st ++ [ci_id item] /\
    sh_selectedCosmetics st' = equip item (sh_selectedCosmetics st))).
Proof.
  intros H0. unfold handlePurchaseItem.
  destruct (ci_unlocked item); [split; [exact H0|left; reflexivity]|].
  destruct (sh_coins st <? ci_cost item)%Z eqn:E.
  - split; [exact H0|left; reflexivity].
  - apply Z.ltb_ge in E. cbn. split; [lia|]. right. repeat split; exact E.
Qed.

Lemma purchase_never_overdraws_witness :
  let item := mkItem "hat_cap" "Baseball Cap" hat 100 false (Some "cap"%string) in
  let st := mkShop 130 ["umbrella_red"%string]
                   (mkCosmetics (Some "#ef4444"%string) None None None) in
  (0 <= sh_coins st)%Z /\
  (0 <= sh_coins (handlePurchaseItem item st))%Z.
Proof.
  cbv zeta. split; [cbn; lia|].
  apply (purchase_never_overdraws
           (mkItem "hat_cap" "Baseball Cap" hat 100 false (Some "cap"%string))
           (mkShop 130 ["umbrella_red"%string]
                   (mkCosmetics (Some "#ef4444"%string) None None None))).
  cbn; lia.
Defined.

Lemma includes_In (id : string) (ids : list string) :
  In id ids -> includes id ids = true.
Proof.
  intros H. unfold includes. apply existsb_exists.
  exists id. split; [exact H|apply String.eqb_refl].
Qed.

Lemma shopItems_unlocked (unlockedItems : list string) (item : CosmeticItem) :
  In item (shopItems unlockedItems) ->
  In (ci_id item) unlockedItems -> ci_unlocked item = true.
Proof.
  intros Hi Hu. unfold shopItems in Hi. cbn [In] in Hi.
  repeat (destruct Hi as [Hi|Hi];
          [subst item; cbn [ci_unlocked ci_id] in *;
           try reflexivity; apply includes_In; exact Hu|]).
  destruct Hi.
Qed.

(** X26. No item is charged twice.  Once a purchase has gone through, every
    item with that id in the shop list of the next render is marked
    unlocked, so a further purchase of it changes nothing and equipping it
    is allowed. *)
Theorem item_is_charged_once (item item' : CosmeticItem) (st : Shop) :
  ci_unlocked item = false -> (ci_cost item <= sh_coins st)%Z ->
  let st' := handlePurchaseItem item st in
  In item' (shopItems (sh_unlockedItems st')) -> ci_id item' = ci_id item ->
  ci_unlocked item' = true /\
  handlePurchaseItem item' st' = st' /\
  sh_coins (handleEquipItem item' st') = sh_coins st'.
Proof.
  intros Hl Hc st' Hi Hid.
  assert (Hu : ci_unlocked item' = true).
  { apply (shopItems_unlocked (sh_unlockedItems st')); [exact Hi|].
    subst st'. unfold handlePurchaseItem. rewrite Hl.
    apply Z.ltb_ge in Hc. rewrite Hc. cbn [sh_unlockedItems].
    rewrite Hid. apply in_or_app. right. left. reflexivity. }
  split; [exact Hu|].
  unfold handlePurchaseItem at 1, handleEquipItem. rewrite Hu.
  split; reflexivity.
Qed.

Lemma item_is_charged_once_witness :
  let st := mkShop 130 ["umbrella_red"%string]
                   (mkCosmetics (Some "#ef4444"%string) None None None) in
  let item := mkItem "hat_cap" "Baseball Cap" hat 100 false (Some "cap"%string) in
  let item' := mkItem "hat_cap" "Baseball Cap" hat 100 true (Some "cap"%string) in
  In item (shopItems (sh_unlockedItems st)) /\
  ci_unlocked item = false /\ (ci_cost item <= sh_coins st)%Z /\
  In item' (shopItems (sh_unlockedItems (handlePurchaseItem item st))) /\
  handlePurchaseItem item' (handlePurchaseItem item st)
  = handlePurchaseItem item st.
Proof.
  cbv zeta.
  assert (Hi : In (mkItem "hat_cap" "Baseball Cap" hat 100 true
                          (Some "cap"%string))
                  (shopItems
                     (sh_unlockedItems
                        (handlePurchaseItem
                           (mkItem "hat_cap" "Baseball Cap" hat 100 false
                                   (Some "cap"%string))
                           (mkShop 130 ["umbrella_red"%string]
                              (mkCosmetics (Some "#ef4444"%string)
                                           None None None)))))).
  { do 6 right. left. reflexivity. }
  split; [do 6 right; left; reflexivity|].
  split; [reflexivity|]. split; [cbn; lia|]. split; [exact Hi|].
  apply (item_is_charged_once
           (mkItem "hat_cap" "Baseball Cap" hat 100 false (Some "cap"%string))
           (mkItem "hat_cap" "Baseball Cap" hat 100 true (Some "cap"%string))
           (mkShop 130 ["umbrella_red"%string]
                   (mkCosmetics (Some "#ef4444"%string) None None None))
           eq_refl ltac:(cbn; lia) Hi eq_refl).
Defined.

(* ------------------------------------------------------------------ *)
(** ** Game-over lines *)

Lemma nth_in_range (A : Type) (l : list A) (roll : Q) :
  0 <= roll -> roll < 1 -> l <> [] ->
  let index := Qfloor (roll * inject_Z (Z.of_nat (length l))) in
  (index <? 0)%Z = false /\
  exists x, nth_error l (Z.to_nat index) = Some x /\ In x l.
Proof.
  intros H0 H1 Hl index.
  assert (Hn : (0 < length l)%nat) by (destruct l; [congruence|cbn; lia]).
  set (n := Z.of_nat (length l)) in *.
  assert (Hq : 0 < inject_Z n).
  { change 0 with (inject_Z 0). rewrite <- Zlt_Qlt. subst n. lia. }
  assert (Hlo : (0 <= index)%Z).
  { subst index. apply Qfloor_nonneg. apply Qmult_le_0_compat; lra. }
  assert (Hhi : (index < n)%Z).
  { subst index. rewrite Zlt_Qlt.
    apply Qle_lt_trans with (roll * inject_Z n); [apply Qfloor_le|].
    setoid_replace (inject_Z n) with (1 * inject_Z n) at 2 by ring.
    apply Qmult_lt_compat_r; assumption. }
  split; [apply Z.ltb_ge; exact Hlo|].
  destruct (nth_error l (Z.to_nat index)) as [x|] eqn:E.
  - exists x. split; [reflexivity|]. eapply nth_error_In; exact E.
  - exfalso. apply nth_error_None in E. subst n. lia.
Qed.

(** X27. For every score and every draw in [0, 1) the roast picker returns
    a line of the table, taken from the bracket of the score (up to 200, 500,
    1000, 2000, or above); it never fails on the index and never falls back
    to the default line. *)
Theorem roast_comes_from_bracket (score roll : Q) :
  0 <= roll -> roll < 1 ->
  exists text,
    getGameOverRoast score roll = Some text /\
    In (if score <=? 200 then 200%Z
        else if score <=? 500 then 500%Z
        else if score <=? 1000 then 1000%Z
        else if score <=? 2000 then 2000%Z else 999999%Z, text) roastsData /\
    text <> "Gravity wins."%string.
Proof.
  intros H0 H1. unfold getGameOverRoast.
  set (pick := fun k : Z => filter (fun r => (fst r =? k)%Z) roastsData).
  assert (Hk : forall k : Z,
             In k [200; 500; 1000; 2000; 999999]%Z -> pick k <> []).
  { intros k Hin. cbn [In] in Hin.
    repeat (destruct Hin as [Hin|Hin]; [subst k; vm_compute; discriminate|]).
    destruct Hin. }
  assert (Hnf : forall r, In r roastsData -> snd r <> "Gravity wins."%string).
  { assert (F : forallb (fun r => negb (String.eqb (snd r) "Gravity wins."))
                        roastsData = true) by (vm_compute; reflexivity).
    rewrite forallb_forall in F. intros r Hr E. specialize (F r Hr).
    rewrite E in F. discriminate. }
  assert (Main : forall k : Z, pick k <> [] ->
            exists text,
              (if (length (pick k) =? 0)%nat then Some "Gravity wins."%string
               else
                 if (Qfloor (roll * inject_Z (Z.of_nat (length (pick k)))) <? 0)%Z
                 then None
                 else option_map snd
                        (nth_error (pick k)
                           (Z.to_nat (Qfloor (roll * inject_Z
                                                (Z.of_nat (length (pick k))))))))
              = Some text
              /\ In (k, text) roastsData /\ text <> "Gravity wins."%string).
  { intros k Hne.
    destruct (nth_in_range _ (pick k) roll H0 H1 Hne) as [Hi [x [Ex Hx]]].
    cbv zeta in Hi. rewrite Hi, Ex.
    destruct (length (pick k) =? 0)%nat eqn:El.
    { apply Nat.eqb_eq in El. destruct (pick k); [congruence|discriminate]. }
    exists (snd x). split; [reflexivity|].
    subst pick. cbv beta in Hx. apply filter_In in Hx as [Hr Hf].
    apply Z.eqb_eq in Hf. split; [|apply Hnf; exact Hr].
    rewrite <- Hf. destruct x. exact Hr. }
  fold (pick 200%Z) (pick 500%Z) (pick 1000%Z) (pick 2000%Z) (pick 999999%Z).
  destruct (score <=? 200);
    [|destruct (score <=? 500);
      [|destruct (score <=? 1000); [|destruct (score <=? 2000)]]];
    apply Main; apply Hk; cbn; tauto.
Qed.

Lemma roast_comes_from_bracket_witness :
  0 <= 0.5 /\ 0.5 < 1 /\
  getGameOverRoast 17 0.5 = Some "Flap your arms harder next time."%string.
Proof.
  split; [vm_compute; discriminate|split; [reflexivity|]].
  destruct (roast_comes_from_bracket 17 0.5) as [text [E _]];
    [vm_compute; discriminate|reflexivity|].
  reflexivity.
Defined.

(* ------------------------------------------------------------------ *)
(** ** Home-screen stickman *)

Lemma drawStep_keeps_bounds (roll : Q) (h : Stickman) :
  0 <= hs_vy h <= 8 -> -100 <= hs_y h <= 500 ->
  -0.1 <= hs_umbrellaAnim h <= 1.1 ->
  let h' := drawStep roll h in
  0 <= hs_vy h' <= 8 /\ -100 <= hs_y h' <= 500 /\
  -0.1 <= hs_umbrellaAnim h' <= 1.1.
Proof.
  intros Hv Hy Ha. unfold drawStep. cbv zeta.
  destruct (hs_umbrellaOpen h); destruct (roll <? 0.01); cbn [negb andb];
    repeat match goal with
           | |- context [if ?a <? ?b then _ else _] => case_lt a b
           end;
    cbn [hs_vy hs_y hs_umbrellaAnim]; repeat split; lra.
Qed.

(** X28. The falling stickman of the home screen stays in view and at a
    bounded speed for ever: from the initial state, after any number of
    frames and whatever the random umbrella toggles, the fall speed is
    between 0 and 8, the height between -100 and 500 (the canvas is 400
    high), and the umbrella animation between -0.1 and 1.1. *)
Theorem home_stickman_stays_bounded (rolls : list Q) :
  let h := fold_left (fun h roll => drawStep roll h) rolls homeStickmanStart in
  0 <= hs_vy h <= 8 /\ -100 <= hs_y h <= 500 /\
  -0.1 <= hs_umbrellaAnim h <= 1.1.
Proof.
  cbv zeta.
  assert (G : forall h0,
             (0 <= hs_vy h0 <= 8 /\ -100 <= hs_y h0 <= 500 /\
              -0.1 <= hs_umbrellaAnim h0 <= 1.1) ->
             let h := fold_left (fun h roll => drawStep roll h) rolls h0 in
             0 <= hs_vy h <= 8 /\ -100 <= hs_y h <= 500 /\
             -0.1 <= hs_umbrellaAnim h <= 1.1).
  { induction rolls as [|r rolls IH]; intros h0 H0; cbn [fold_left];
      [exact H0|].
    apply IH. destruct H0 as [A [B C]].
    apply drawStep_keeps_bounds; assumption. }
  apply G. cbn. repeat split; lra.
Qed.

(* ------------------------------------------------------------------ *)
(** ** The first frame of a run *)

Lemma difficulty_low (s : Z) : (s <= 200)%Z -> difficulty s == 0.
Proof.
  intro L. rewrite Zle_Qle in L. change (inject_Z 200) with 200 in L.
  split_difficulty s.
  destruct Hm as [[? ?]|[? ?]]; destruct Hv as [[? E]|[? E]]; rewrite E; lra.
Qed.

Lemma movePlayer_y_band (e : Env) (d : Q) (aps : list ActivePowerUp)
  (zones : list WindZone) (g : WindGust) (p : Player) :
  200 <= canvasHeight e ->
  p_y (movePlayer e d aps zones g p) <= canvasHeight e - 100.
Proof.
  intros H. unfold movePlayer. cbn [p_y]. apply clampVertical_band. exact H.
Qed.

Lemma movePlayer_vy_cap (e : Env) (d : Q) (aps : list ActivePowerUp)
  (zones : list WindZone) (g : WindGust) (p : Player) :
  0 <= d ->
  p_vy (movePlayer e d aps zones g p) <= 15 * gravityMultiplier e d * 2.
Proof.
  intros Hd. pose proof (gravityMultiplier_pos e d Hd) as Hg.
  unfold movePlayer. cbn [p_vy].
  match goal with |- clampFall ?t ?a ?b ?v <= _ =>
    assert (Ht : 0 < t /\ t <= 15 * gravityMultiplier e d)
  end.
  { unfold BASE_GLIDE_TERMINAL_VELOCITY, BASE_TERMINAL_VELOCITY.
    destruct (isUmbrellaOpen p); lra. }
  destruct Ht as [Ht0 Ht1].
  match goal with |- clampFall ?t ?a ?b ?v <= _ =>
    pose proof (proj1 (clampFall_bounds t a b v Ht0)) as Hc
  end.
  cbv zeta in Hc. lra.
Qed.

Lemma spawn_below (e : Env) (d : Q) (sc : Z) :
  canvasHeight e + 100 <= ob_y (spawnObstacle e d sc).
Proof.
  unfold spawnObstacle. cbv zeta.
  destruct (r_obsType (rand e) <? 0.4);
    [|destruct (r_obsType (rand e) <? 0.6);
      [|destruct ((r_obsType (rand e) <? 0.8) && (500 <? sc)%Z)]];
    cbn [ob_y]; lra.
Qed.

Lemma scan_no_strike (e : Env) (lp0 : option LevelProgress) (dist : Q)
  (p : Player) (depth : Z) (todo : list Obstacle) :
  (forall o, In o todo -> strikes e dist p o = false) ->
  forall kept aps objs evs,
  sc_fatal (scanObstacles e lp0 dist p depth todo kept aps objs evs) = false.
Proof.
  induction todo as [|o todo IH]; intros H kept aps objs evs;
    cbn [scanObstacles]; [reflexivity|].
  assert (IH' := IH (fun o' Ho' => H o' (or_intror Ho'))).
  pose proof (H o (or_introl eq_refl)) as Ho. unfold strikes in Ho.
  cbv zeta in Ho.
  destruct (ob_y (moveObstacle e dist o) <? -500).
  - destruct (updateObjectives e lp0 (bumpObjective AVOID_OBSTACLES) objs evs).
    apply IH'.
  - cbn [negb andb] in Ho. rewrite Ho. apply IH'.
Qed.

(** A tick in which no obstacle, old or freshly spawned, strikes the player
    reports no crash. *)
Lemma no_strike_no_crash (e : Env) (s : Sim) :
  gameState s = PLAYING -> isPaused e = false ->
  let d := difficulty (score s) in
  let p := player (fst (update e s)) in
  let dist := p_vy p * worldSpeedMultiplier e d
                         (hasActive SLOW_MOTION (activePowerUps s)) in
  (forall o,
     In o (obstacles s ++ [spawnObstacle e d (score (fst (update e s)))]) ->
     strikes e dist p o = false) ->
  existsb isCrash (snd (update e s)) = false.
Proof.
  intros Hp Hr d p dist H. subst p dist.
  rewrite (update_player e s Hp Hr), (update_score e s Hp Hr) in H.
  fold d in H.
  unfold update. rewrite Hp, Hr. cbn [GameState_beq negb orb]. fold d.
  pose proof (challengeTick_adds isCrash (fun _ => eq_refl) e
                (levelProgress s)) as Hct.
  match goal with |- context [challengeTick ?a ?b ?c] =>
    specialize (Hct c (fun _ _ => eq_refl));
    destruct (challengeTick a b c) as [objs cevs]
  end.
  cbn [snd] in Hct.
  match goal with |- context [scanObstacles ?a ?l ?dd ?pp ?k (rev ?t) ?kp ?ap ?o ?ev] =>
    assert (F : sc_fatal (scanObstacles a l dd pp k (rev t) kp ap o ev) = false);
    [apply scan_no_strike; intros ob Hob; apply H; apply in_rev in Hob;
     destruct (_ =? 0)%Z; [exact Hob|apply in_or_app; left; exact Hob]
    |destruct (scanObstacles_safe_adds isCrash (fun _ => eq_refl)
                 a l dd pp k (rev t) kp ap o ev F) as [x [Ex Qx]];
     rewrite F]
  end.
  destruct (scanPowerUps _ _ _ _ _) as [pus aps'].
  match goal with |- context [scanCoins ?a ?l ?dd ?pp ?t ?k ?o ?ev] =>
    destruct (scanCoins_adds isCrash (fun _ => eq_refl) (fun _ => eq_refl)
                a l dd pp t k o ev) as [y [Ey Qy]];
    destruct (scanCoins a l dd pp t k o ev) as [[cs objs'] evs']
  end.
  cbn [fst snd] in *. rewrite Ey, Ex.
  rewrite !existsb_app, Qx, Qy. cbn [existsb isCrash orb].
  rewrite Hct. reflexivity.
Qed.

Lemma calm_start_no_crash (e : Env) (s : Sim) :
  gameState s = PLAYING -> isPaused e = false ->
  obstacles s = [] -> score s = 0%Z -> 200 <= canvasHeight e ->
  existsb isCrash (snd (update e s)) = false.
Proof.
  intros Hp Hr Ho Hs Hh. apply no_strike_no_crash; try assumption.
  cbv zeta. rewrite Ho. cbn [app]. intros o [Hob|[]]. subst o.
  rewrite (update_player e s Hp Hr).
  pose proof (difficulty_range (score s)) as [Hd0 _].
  assert (Hd : difficulty (score s) == 0)
    by (apply difficulty_low; rewrite Hs; lia).
  set (d := difficulty (score s)) in *.
  match goal with |- context [movePlayer ?a ?b ?c ?z ?g ?pl] =>
    pose proof (movePlayer_y_band a b c z g pl Hh) as Hy;
    pose proof (movePlayer_vy_cap a b c z g pl Hd0) as Hv;
    set (p := movePlayer a b c z g pl) in *
  end.
  set (slow := hasActive SLOW_MOTION (activePowerUps s)).
  pose proof (spawn_below e d (score (fst (update e s)))) as Hsp.
  set (o := spawnObstacle e d (score (fst (update e s)))) in *.
  assert (Hg : gravityMultiplier e d == 1).
  { unfold gravityMultiplier. destruct (difficultyMode e);
      cbn [modeMultiplier]; lra. }
  assert (Hw : 0 < worldSpeedMultiplier e d slow <= 1).
  { unfold worldSpeedMultiplier, WORLD_SPEED_MULTIPLIER_MAX.
    destruct (difficultyMode e), slow; cbn [modeMultiplier]; lra. }
  set (w := worldSpeedMultiplier e d slow) in *.
  assert (Hdist : p_vy p * w <= 30).
  { destruct (Qlt_le_dec (p_vy p) 0) as [N|N].
    - assert (0 <= (- p_vy p) * w) by (apply Qmult_le_0_compat; lra). lra.
    - apply Qle_trans with (p_vy p * 1); [|lra].
      setoid_replace (p_vy p * w) with (w * p_vy p) by ring.
      setoid_replace (p_vy p * 1) with (1 * p_vy p) by ring.
      apply Qmult_le_compat_r; lra. }
  unfold strikes. cbv zeta.
  assert (Hm : canvasHeight e + 55
               <= ob_y (moveObstacle e (p_vy p * w) o)).
  { unfold moveObstacle. cbn [ob_y]. lra. }
  case_lt (ob_y (moveObstacle e (p_vy p * w) o)) (-500); [reflexivity|].
  cbn [negb andb]. unfold hitsObstacle, overlaps, playerHitbox.
  cbn [rx ry rw rh].
  case_lt (ob_y (moveObstacle e (p_vy p * w) o)) (80 + (p_y p - 40));
    [lra|].
  apply andb_false_r.
Qed.

(** X29. A new run never ends on its first frame.  Whether the run is
    started from the start screen (reset effect, then [handleStart]) or
    restarted after a game over ([handleStart], then the reset effect), the
    first frame, on a canvas at least 200 high and whatever the input and
    the random draws, reports no crash. *)
Theorem new_run_survives_first_frame (prev : GameState) (e0 e1 : Env)
  (s : Sim) (i : Input) (e : Env) :
  isPaused e = false -> 200 <= canvasHeight e ->
  (gameState s = START ->
   existsb isCrash
     (snd (frame (handleStart e1 (resetEffect prev e0 s)) (i, e))) = false) /\
  (gameState s = GAME_OVER ->
   existsb isCrash
     (snd (frame (resetEffect GAME_OVER e0 (handleStart e1 s)) (i, e)))
   = false).
Proof.
  intros Hr Hh.
  assert (G : forall s1,
             gameState s1 <> PLAYING \/ (obstacles s1 = [] /\ score s1 = 0%Z) ->
             existsb isCrash (snd (frame s1 (i, e))) = false).
  { intros s1 H1. unfold frame. cbn [fst snd].
    destruct (GameState_eq_dec (gameState s1) PLAYING) as [Hp|Hp].
    - destruct H1 as [H1|[Ho Hs]]; [contradiction|].
      pose proof (calm_start_no_crash e (applyInput i s1) Hp Hr Ho Hs Hh) as C.
      destruct (update e (applyInput i s1)) as [s' evs]. exact C.
    - rewrite (update_idle e (applyInput i s1)) by (left; exact Hp).
      reflexivity. }
  split; intros Hs; apply G.
  - right. unfold resetEffect. rewrite Hs. cbn [GameState_beq orb].
    unfold handleStart. destruct (gameMode e1), (selectedChallengeLevel e1);
      split; reflexivity.
  - unfold handleStart.
    destruct (gameMode e1), (selectedChallengeLevel e1);
      unfold resetEffect; cbn [gameState]; rewrite ?Hs;
      cbn [GameState_beq orb andb];
      solve [right; split; reflexivity
            | left; rewrite Hs; discriminate].
Qed.

Lemma new_run_survives_first_frame_witness :
  let e := sceneEnv STORM None 0 in
  isPaused e = false /\ 200 <= canvasHeight e /\
  gameState (handleGameOver levelThreeSim) = GAME_OVER /\
  existsb isCrash
    (snd (frame (resetEffect GAME_OVER e
                   (handleStart e (handleGameOver levelThreeSim)))
                (mkInput (Some true) (Some 40), e))) = false.
Proof.
  cbv zeta. split; [reflexivity|].
  assert (Hh : 200 <= canvasHeight (sceneEnv STORM None 0))
    by (vm_compute; discriminate).
  split; [exact Hh|]. split; [reflexivity|].
  apply (new_run_survives_first_frame GAME_OVER (sceneEnv STORM None 0)
           (sceneEnv STORM None 0) (handleGameOver levelThreeSim)
           (mkInput (Some true) (Some 40)) (sceneEnv STORM None 0)
           eq_refl Hh).
  reflexivity.
Defined.

(* ------------------------------------------------------------------ *)
(** ** What the obstacle loop reports *)

(** Without a shield the loop ends the run exactly when it visits an
    obstacle that stays on screen and passes the test. *)
Lemma scan_fatal_iff (e : Env) (lp0 : option LevelProgress) (dist : Q)
  (p : Player) (depth : Z) (todo : list Obstacle) :
  forall kept aps objs evs,
  hasActive SHIELD aps = false ->
  sc_fatal (scanObstacles e lp0 dist p depth todo kept aps objs evs)
  = existsb (strikes e dist p) todo.
Proof.
  induction todo as [|o todo IH]; intros kept aps objs evs Hs;
    cbn [scanObstacles existsb]; [reflexivity|].
  unfold strikes at 1. cbv zeta.
  destruct (ob_y (moveObstacle e dist o) <? -500).
  - destruct (updateObjectives e lp0 (bumpObjective AVOID_OBSTACLES) objs evs).
    cbn [negb andb orb]. apply IH. exact Hs.
  - cbn [negb andb].
    destruct (hitsObstacle p (moveObstacle e dist o)); cbn [orb].
    + rewrite Hs.
      destruct (updateObjectives e lp0 failNoDamage objs evs). reflexivity.
    + apply IH. exact Hs.
Qed.

Lemma scan_fatal_strikes (e : Env) (lp0 : option LevelProgress) (dist : Q)
  (p : Player) (depth : Z) (todo : list Obstacle) :
  forall kept aps objs evs,
  sc_fatal (scanObstacles e lp0 dist p depth todo kept aps objs evs) = true ->
  existsb (strikes e dist p) todo = true.
Proof.
  intros kept aps objs evs F.
  destruct (existsb (strikes e dist p) todo) eqn:E; [reflexivity|].
  rewrite scan_no_strike in F; [discriminate|].
  intros o Ho. destruct (strikes e dist p o) eqn:So; [|reflexivity].
  assert (existsb (strikes e dist p) todo = true)
    by (apply existsb_exists; exists o; split; assumption).
  congruence.
Qed.

(** The crash event of a tick is the early return of its obstacle loop. *)
Lemma update_crash (e : Env) (s : Sim) :
  gameState s = PLAYING -> isPaused e = false ->
  exists depth objs evs,
    let sc := scanObstacles e (levelProgress s) (tickDistance e s)
                (movedPlayer e s) depth (rev (obstaclesAfterSpawn e s)) []
                (tickTimers (activePowerUps s)) objs evs in
    existsb isCrash (snd (update e s)) = sc_fatal sc /\
    obstacles (fst (update e s)) = sc_obstacles sc.
Proof.
  intros Hp Hr.
  unfold obstaclesAfterSpawn, scoreAfter, tickDistance, movedPlayer, update.
  rewrite Hp, Hr. cbn [GameState_beq negb orb]. cbv zeta.
  pose proof (challengeTick_adds isCrash (fun _ => eq_refl) e
                (levelProgress s)) as Hct.
  match goal with |- context [challengeTick ?a ?b ?c] =>
    specialize (Hct c (fun _ _ => eq_refl));
    destruct (challengeTick a b c) as [objs cevs]
  end.
  cbn [snd] in Hct.
  match goal with |- context [scanObstacles ?a ?l ?dd ?pp ?k ?t ?kp ?ap ?o ?ev] =>
    exists k, o, ev;
    destruct (sc_fatal (scanObstacles a l dd pp k t kp ap o ev)) eqn:F;
    [destruct (scanObstacles_fatal_adds isCrash a l dd pp k t
                 (fun _ => eq_refl) kp ap o ev F) as [pre [ty [Ex Qx]]]
    |destruct (scanObstacles_safe_adds isCrash (fun _ => eq_refl)
                 a l dd pp k t kp ap o ev F) as [x [Ex Qx]]]
  end.
  - cbn [fst snd obstacles]. split; [|reflexivity].
    rewrite Ex, !existsb_app. cbn [existsb isCrash].
    rewrite !orb_true_r. reflexivity.
  - destruct (scanPowerUps _ _ _ _ _) as [pus aps'].
    match goal with |- context [scanCoins ?a ?l ?dd ?pp ?t ?k ?o ?ev] =>
      destruct (scanCoins_adds isCrash (fun _ => eq_refl) (fun _ => eq_refl)
                  a l dd pp t k o ev) as [y [Ey Qy]];
      destruct (scanCoins a l dd pp t k o ev) as [[cs objs'] evs']
    end.
    cbn [fst snd obstacles] in *. split; [|reflexivity].
    rewrite Ey, Ex.
    rewrite !existsb_app, Qx, Qy. cbn [existsb isCrash orb].
    rewrite Hct. reflexivity.
Qed.

(** What a loop that did not return early leaves in the array was in it
    before, or is an obstacle it visited, as moved. *)
Lemma scan_survivors_in (e : Env) (lp0 : option LevelProgress) (dist : Q)
  (p : Player) (depth : Z) (todo : list Obstacle) :
  forall kept aps objs evs o,
  sc_fatal (scanObstacles e lp0 dist p depth todo kept aps objs evs) = false ->
  In o (sc_obstacles (scanObstacles e lp0 dist p depth todo kept aps objs evs)) ->
  In o kept \/ In o (map (moveObstacle e dist) todo).
Proof.
  induction todo as [|o0 todo IH]; intros kept aps objs evs o;
    cbn [scanObstacles map]; [intros _ H; left; exact H|].
  destruct (ob_y (moveObstacle e dist o0) <? -500).
  - destruct (updateObjectives e lp0 (bumpObjective AVOID_OBSTACLES) objs evs).
    intros F H. destruct (IH _ _ _ _ _ F H) as [K|K]; [left; exact K|].
    right. right. exact K.
  - destruct (hitsObstacle p (moveObstacle e dist o0)).
    + destruct (hasActive SHIELD aps).
      * intros F H. destruct (IH _ _ _ _ _ F H) as [K|K]; [left; exact K|].
        right. right. exact K.
      * destruct (updateObjectives e lp0 failNoDamage objs evs).
        cbn [sc_fatal]. discriminate.
    + intros F H. destruct (IH _ _ _ _ _ F H) as [[K|K]|K].
      * right. left. exact K.
      * left. exact K.
      * right. right. exact K.
Qed.

Lemma strikes_iff (e : Env) (dist : Q) (p : Player) (o : Obstacle) :
  0 < ob_width (moveObstacle e dist o) ->
  0 < ob_height (moveObstacle e dist o) ->
  (strikes e dist p o = true
   <-> -500 <= ob_y (moveObstacle e dist o)
       /\ strictOverlap (playerHitbox p) (obstacleRect (moveObstacle e dist o))).
Proof.
  intros Hw Hh. unfold strikes. cbv zeta.
  rewrite andb_true_iff, negb_true_iff, Qltb_false.
  rewrite (hitsObstacle_iff p _ Hw Hh). reflexivity.
Qed.

Lemma some_strike (e : Env) (dist : Q) (p : Player) (todo : list Obstacle) :
  Forall (fun o => 0 < ob_width o /\ 0 < ob_height o)
         (map (moveObstacle e dist) todo) ->
  (existsb (strikes e dist p) (rev todo) = true
   <-> exists o, In o (map (moveObstacle e dist) todo)
                 /\ -500 <= ob_y o
                 /\ strictOverlap (playerHitbox p) (obstacleRect o)).
Proof.
  intros Hpos. rewrite Forall_forall in Hpos. rewrite existsb_exists. split.
  - intros [o [Hin St]]. apply in_rev in Hin.
    assert (Hm : In (moveObstacle e dist o) (map (moveObstacle e dist) todo))
      by (apply in_map; exact Hin).
    destruct (Hpos _ Hm) as [Hw Hh].
    apply (strikes_iff e dist p o Hw Hh) in St.
    exists (moveObstacle e dist o). split; [exact Hm|exact St].
  - intros [o' [Hin H]]. apply in_map_iff in Hin as [o [Eo Hin]]. subst o'.
    destruct (Hpos _ (in_map _ _ _ Hin)) as [Hw Hh].
    exists o. split; [apply in_rev; rewrite rev_involutive; exact Hin|].
    apply (strikes_iff e dist p o Hw Hh). exact H.
Qed.

(** C9. The collision engine reports a hit exactly on a strict overlap.  For
    the player [p] as moved by the tick and the obstacles [seen] by the
    obstacle loop (the array after the spawn step, each obstacle as the loop
    moves it), all of positive size: the test of the loop holds exactly when
    the hitbox and the obstacle rectangle overlap strictly; with no shield
    left after the timer loop the tick calls [onGameOver] for a crash exactly
    when some obstacle that stays on screen overlaps strictly; with shields a
    crash still only comes from such an obstacle, and a tick without a crash
    leaves no obstacle that overlaps; obstacles that touch the hitbox at an
    edge give no crash, and an overlap of one unit does.  The loop drops an
    obstacle above [y = -500] before the test; with the player at
    [y >= 40] and obstacles at most 500 high (the spawner makes none
    higher than 400) such an obstacle cannot overlap, and the crash is
    reported exactly when some obstacle overlaps strictly. *)
Theorem collision_iff_strict_overlap (e : Env) (s : Sim) :
  gameState s = PLAYING -> isPaused e = false ->
  let p := movedPlayer e s in
  let A := playerHitbox p in
  let seen :=
    map (moveObstacle e (tickDistance e s)) (obstaclesAfterSpawn e s) in
  let hit := fun o => -500 <= ob_y o /\ strictOverlap A (obstacleRect o) in
  let crash := existsb isCrash (snd (update e s)) in
  let shielded := hasActive SHIELD (tickTimers (activePowerUps s)) in
  Forall (fun o => 0 < ob_width o /\ 0 < ob_height o) seen ->
  player (fst (update e s)) = p /\
  (forall o, In o seen ->
     (hitsObstacle p o = true <-> strictOverlap A (obstacleRect o))) /\
  (shielded = false -> (crash = true <-> exists o, In o seen /\ hit o)) /\
  (shielded = false -> 40 <= p_y p ->
   (forall o, In o seen -> ob_height o <= 500) ->
   (crash = true
    <-> exists o, In o seen /\ strictOverlap A (obstacleRect o))) /\
  (crash = true -> exists o, In o seen /\ hit o) /\
  (crash = false ->
   forall o, In o (obstacles (fst (update e s))) ->
             In o seen /\ -500 <= ob_y o
             /\ ~ strictOverlap A (obstacleRect o)) /\
  ((forall o, In o seen -> edgeTouch A (obstacleRect o)) -> crash = false) /\
  (shielded = false ->
   forall o, In o seen -> -500 <= ob_y o ->
     overlapLength (rx A) (rx A + rw A) (ob_x o) (ob_x o + ob_width o) == 1 ->
     0 < overlapLength (ry A) (ry A + rh A) (ob_y o) (ob_y o + ob_height o) ->
     crash = true).
Proof.
  intros Hp Hr p A seen hit crash shielded Hpos.
  destruct (update_crash e s Hp Hr) as [depth [objs [evs [Ec Eo]]]].
  cbv zeta in Ec, Eo. fold p in Ec, Eo.
  pose proof (some_strike e (tickDistance e s) p (obstaclesAfterSpawn e s) Hpos)
    as Hsome.
  fold seen in Hsome. fold A in Hsome.
  assert (Hsound : crash = true -> exists o, In o seen /\ hit o).
  { intros C. unfold crash in C. rewrite Ec in C.
    apply scan_fatal_strikes in C. apply Hsome in C.
    destruct C as [o [Hin H]]. exists o. split; [exact Hin|exact H]. }
  assert (Hiff : shielded = false ->
                 (crash = true <-> exists o, In o seen /\ hit o)).
  { intros Hs. split; [exact Hsound|].
    intros [o [Hin H]]. unfold crash. rewrite Ec.
    rewrite scan_fatal_iff by exact Hs.
    apply Hsome. exists o. split; [exact Hin|exact H]. }
  assert (Htest : forall o, In o seen ->
            (hitsObstacle p o = true <-> strictOverlap A (obstacleRect o))).
  { intros o Hin. rewrite Forall_forall in Hpos.
    destruct (Hpos o Hin) as [Hw Hh]. apply hitsObstacle_iff; assumption. }
  split; [apply update_player; assumption|].
  split; [exact Htest|].
  split; [exact Hiff|].
  split.
  { intros Hs Hy Hh. rewrite (Hiff Hs). split.
    - intros [o [Hin [_ Ov]]]. exists o. split; assumption.
    - intros [o [Hin Ov]]. exists o. split; [exact Hin|].
      split; [|exact Ov].
      rewrite Forall_forall in Hpos. destruct (Hpos o Hin) as [Hw Hh'].
      specialize (Hh o Hin). destruct Ov as [_ Oy].
      unfold A, playerHitbox, obstacleRect in Oy. cbn [rx ry rw rh] in Oy.
      apply overlapLength_pos in Oy; [|lra|lra]. lra. }
  split; [exact Hsound|].
  split; [|split].
  - intros C o Hin. unfold crash in C. rewrite Ec in C. rewrite Eo in Hin.
    pose proof (scanObstacles_survivors e (levelProgress s) (tickDistance e s)
                  p depth (rev (obstaclesAfterSpawn e s)) [] _ objs evs C
                  (Forall_nil _)) as Hsv.
    rewrite Forall_forall in Hsv. destruct (Hsv o Hin) as [Hh Hy].
    destruct (scan_survivors_in _ _ _ _ _ _ _ _ _ _ o C Hin) as [[]|K].
    rewrite map_rev in K. apply in_rev in K.
    fold seen in K.
    split; [exact K|split; [exact Hy|]].
    intros Ov. apply (Htest o K) in Ov. congruence.
  - intros Ht. destruct crash eqn:C; [|reflexivity].
    destruct (Hsound eq_refl) as [o [Hin [_ Ov]]].
    rewrite Forall_forall in Hpos. destruct (Hpos o Hin) as [Hw Hh].
    exfalso. exact (edgeTouch_no_overlap p o Hw Hh (Ht o Hin) Ov).
  - intros Hs o Hin Hy Ex Ey. apply (Hiff Hs). exists o.
    split; [exact Hin|]. split; [exact Hy|]. split; [|exact Ey].
    unfold A in *. cbn [obstacleRect rx ry rw rh] in *. rewrite Ex. lra.
Qed.

Lemma collision_iff_strict_overlap_witness :
  let e := sceneEnv ENDLESS None 0 in
  let near := mkSim PLAYING None 200 (centredPlayer 0 true) stillGust
                    [mkObstacle 209 280 40 20 BIRD 0] [] [] [] [] 1 in
  let touching := mkSim PLAYING None 200 (centredPlayer 0 true) stillGust
                        [mkObstacle 210 280 40 20 BIRD 0] [] [] [] [] 1 in
  gameState near = PLAYING /\ isPaused e = false /\
  existsb isCrash (snd (update e near)) = true /\
  existsb isCrash (snd (update e touching)) = false.
Proof.
  cbv zeta. split; [reflexivity|split; [reflexivity|split]].
  - assert (Hpos : Forall (fun o => 0 < ob_width o /\ 0 < ob_height o)
             (map (moveObstacle (sceneEnv ENDLESS None 0)
                    (tickDistance (sceneEnv ENDLESS None 0)
                       (mkSim PLAYING None 200 (centredPlayer 0 true) stillGust
                          [mkObstacle 209 280 40 20 BIRD 0] [] [] [] [] 1)))
                  (obstaclesAfterSpawn (sceneEnv ENDLESS None 0)
                     (mkSim PLAYING None 200 (centredPlayer 0 true) stillGust
                        [mkObstacle 209 280 40 20 BIRD 0] [] [] [] [] 1)))).
    { repeat constructor. }
    apply (collision_iff_strict_overlap (sceneEnv ENDLESS None 0)
             (mkSim PLAYING None 200 (centredPlayer 0 true) stillGust
                    [mkObstacle 209 280 40 20 BIRD 0] [] [] [] [] 1)
             eq_refl eq_refl Hpos) with
      (o := moveObstacle (sceneEnv ENDLESS None 0)
              (tickDistance (sceneEnv ENDLESS None 0)
                 (mkSim PLAYING None 200 (centredPlayer 0 true) stillGust
                    [mkObstacle 209 280 40 20 BIRD 0] [] [] [] [] 1))
              (mkObstacle 209 280 40 20 BIRD 0)).
    + reflexivity.
    + left. reflexivity.
    + vm_compute. discriminate.
    + vm_compute. reflexivity.
    + vm_compute. reflexivity.
  - assert (Hpos : Forall (fun o => 0 < ob_width o /\ 0 < ob_height o)
             (map (moveObstacle (sceneEnv ENDLESS None 0)
                    (tickDistance (sceneEnv ENDLESS None 0)
                       (mkSim PLAYING None 200 (centredPlayer 0 true) stillGust
                          [mkObstacle 210 280 40 20 BIRD 0] [] [] [] [] 1)))
                  (obstaclesAfterSpawn (sceneEnv ENDLESS None 0)
                     (mkSim PLAYING None 200 (centredPlayer 0 true) stillGust
                        [mkObstacle 210 280 40 20 BIRD 0] [] [] [] [] 1)))).
    { repeat constructor. }
    apply (collision_iff_strict_overlap (sceneEnv ENDLESS None 0)
             (mkSim PLAYING None 200 (centredPlayer 0 true) stillGust
                    [mkObstacle 210 280 40 20 BIRD 0] [] [] [] [] 1)
             eq_refl eq_refl Hpos).
    intros o [E|[]]. subst o. left. vm_compute. reflexivity.
Defined.

(* ------------------------------------------------------------------ *)
(** ** Wind breaker and the terminal velocity *)





(* ------------------------------------------------------------------ *)
(** ** The timer loop within the tick *)

Lemma tickTimers_iter (k : nat) (aps : list ActivePowerUp) :
  Nat.iter (S k) tickTimers aps
  = map (fun a => mkActive (ap_type a) (ap_timeLeft a - Z.of_nat (S k))
                           (ap_duration a))
        (filter (fun a => (Z.of_nat (S k) <? ap_timeLeft a)%Z) aps).
Proof.
  induction k as [|k IH].
  - apply tickTimers_once.
  - change (Nat.iter (S (S k)) tickTimers aps)
      with (tickTimers (Nat.iter (S k) tickTimers aps)).
    rewrite IH. apply tickTimers_closed_form.
Qed.

Lemma hasActive_after (t : PowerUpType) (n : Z) (aps : list ActivePowerUp) :
  hasActive t
    (map (fun a => mkActive (ap_type a) (ap_timeLeft a - n) (ap_duration a))
         (filter (fun a => (n <? ap_timeLeft a)%Z) aps))
  = existsb (fun a => PowerUpType_beq (ap_type a) t && (n <? ap_timeLeft a)%Z)
            aps.
Proof.
  unfold hasActive.
  induction aps as [|a aps IH]; [reflexivity|].
  cbn [filter existsb].
  destruct (n <? ap_timeLeft a)%Z; cbn [map existsb ap_type].
  - rewrite IH, andb_true_r. reflexivity.
  - rewrite IH, andb_false_r. reflexivity.
Qed.

(** X8. The timer loop and who reads the list.  Run [k + 1] times, the
    timer loop leaves exactly the entries whose [timeLeft] was above [k + 1],
    in their order, each lowered by [k + 1].  Within a tick the physics and
    the score read the list as it is before the timer loop, so an entry
    with [timeLeft = 1] still acts on the tick that removes it; the obstacle
    loop reads it after the timer loop, so a SHIELD protects only if its
    [timeLeft] at the start of the tick is above 1: without such an entry
    the tick crashes exactly when an obstacle strikes. *)
Theorem timers_after_k_ticks (e : Env) (s : Sim) (k : nat) :
  gameState s = PLAYING -> isPaused e = false ->
  let aps := activePowerUps s in
  let d := difficulty (score s) in
  let left := Nat.iter (S k) tickTimers aps in
  left = map (fun a => mkActive (ap_type a) (ap_timeLeft a - Z.of_nat (S k))
                                (ap_duration a))
             (filter (fun a => (Z.of_nat (S k) <? ap_timeLeft a)%Z) aps) /\
  (forall t,
     hasActive t left
     = existsb (fun a => PowerUpType_beq (ap_type a) t
                         && (Z.of_nat (S k) <? ap_timeLeft a)%Z) aps) /\
  player (fst (update e s))
  = movePlayer e d aps (windZones s) (stepGust e d (score s) (windGust s))
               (player s) /\
  score (fst (update e s))
  = (score s
     + Qfloor (p_vy (player (fst (update e s)))
               * worldSpeedMultiplier e d (hasActive SLOW_MOTION aps)
               * scoreMultiplier e d))%Z /\
  (existsb (fun a => PowerUpType_beq (ap_type a) SHIELD
                     && (1 <? ap_timeLeft a)%Z) aps = false ->
   existsb isCrash (snd (update e s))
   = existsb (strikes e (tickDistance e s) (movedPlayer e s))
             (rev (obstaclesAfterSpawn e s))).
Proof.
  intros Hp Hr aps d left.
  split; [apply tickTimers_iter|].
  split; [intros t; unfold left; rewrite tickTimers_iter; apply hasActive_after|].
  split; [apply update_player; assumption|].
  split.
  - rewrite (update_score e s Hp Hr), (update_player e s Hp Hr). reflexivity.
  - intros Hs.
    destruct (update_crash e s Hp Hr) as [depth [objs [evs [Ec _]]]].
    cbv zeta in Ec. rewrite Ec. apply scan_fatal_iff.
    rewrite tickTimers_once. rewrite (hasActive_after SHIELD 1). exact Hs.
Qed.

Lemma timers_after_k_ticks_witness :
  let e := sceneEnv ENDLESS None 0 in
  let s := mkSim PLAYING None 1000 (centredPlayer 10 false) stillGust
                 [mkObstacle 190 330 30 40 BALLOON 0] [] [] 
                 [mkActive SLOW_MOTION 1 180; mkActive SHIELD 1 5000] [] 1 in
  gameState s = PLAYING /\ isPaused e = false /\
  hasActive SHIELD (activePowerUps s) = true /\
  existsb isCrash (snd (update e s)) = true /\
  score (fst (update e s)) = 1007%Z /\
  activePowerUps (fst (update e s)) = [].
Proof.
  cbv zeta. split; [reflexivity|split; [reflexivity|split; [reflexivity|]]].
  pose proof (timers_after_k_ticks (sceneEnv ENDLESS None 0)
    (mkSim PLAYING None 1000 (centredPlayer 10 false) stillGust
                 [mkObstacle 190 330 30 40 BALLOON 0] [] [] 
                 [mkActive SLOW_MOTION 1 180; mkActive SHIELD 1 5000] [] 1)
    0 eq_refl eq_refl) as H.
  cbv zeta in H. destruct H as [_ [_ [_ [_ Hc]]]].
  split; [rewrite (Hc eq_refl); reflexivity|].
  split; reflexivity.
Defined.
